(** * KursChern: the vector server (server.cpp / server.h)

    A shallow embedding of the class [Server]: the credential loader, the
    salted SHA-224 handshake, the framed vector exchange and the saturating
    sum of squares, followed by the properties of the design document that
    are settled against it.

    Conventions.
    - [std::string] and [char] buffers are [string] (a list of 8-bit [ascii]).
    - Fixed-width integers are [Z] with their wrap-around written out
      ([wrap64], [to_int16], [size_t_wrap]).
    - [std::unordered_map<std::string, std::string>] is [gmap string string].
    - Socket, file, clock and random-device effects are threaded through a
      small state-and-trace monad [M]; every system call leaves an [event].
    - One client socket is open at a time (the server is single-threaded),
      so the world holds the current client's inbound and outbound side.
    - [Server::readExact] is called from nowhere; it is modelled with the
      label of its [recv] as a parameter.  [OpenSSL_add_all_digests] has no
      effect the model can see and is left out. *)

From Stdlib Require Import ZArith List Ascii String DecimalString Sorting.Sorted.
From stdpp Require Import gmap strings list fin_maps.

Local Open Scope Z_scope.

(* ===================================================================== *)
(** * Part I. The program                                                 *)
(* ===================================================================== *)

(** ** Fixed-width integers *)

Definition INT16_MIN : Z := -32768.
Definition INT16_MAX : Z := 32767.

(** The values an [int16_t] can hold. *)
Definition int16 (x : Z) : Prop := INT16_MIN <= x <= INT16_MAX.

(** Two's-complement reduction to [int64_t]. *)
Definition wrap64 (z : Z) : Z := (z + 2 ^ 63) mod 2 ^ 64 - 2 ^ 63.

(** [static_cast<int16_t>] of an [int64_t]. *)
Definition to_int16 (z : Z) : Z := (z + 2 ^ 15) mod 2 ^ 16 - 2 ^ 15.

(** ** Server::calculateSumOfSquares (server.cpp 214-236) *)

(** The four [return] statements of the function. *)
Inductive ret_site : Type :=
| RetEmpty   (* line 216: return 0       *)
| RetUpper   (* line 228: return 32767   *)
| RetLower   (* line 231: return -32768  *)
| RetEnd.    (* line 235: return (int16_t)sum *)

(** One run of the function: the value of [sum] after each [sum += square],
    the [return] that was taken, and the value returned. *)
Record sq_run : Type := SqRun {
  sq_sums : list Z;
  sq_site : ret_site;
  sq_ret  : Z
}.

(** The [for] loop, entered with the current [sum]. *)
Fixpoint sum_loop (sum : Z) (vector : list Z) : sq_run :=
  match vector with
  | [] => SqRun [] RetEnd (to_int16 sum)
  | value :: rest =>
      let square := wrap64 (wrap64 value * wrap64 value) in
      let sum := wrap64 (sum + square) in
      if 32767 <? sum then SqRun [sum] RetUpper 32767
      else if sum <? -32768 then SqRun [sum] RetLower (-32768)
      else
        let r := sum_loop sum rest in
        SqRun (sum :: sq_sums r) (sq_site r) (sq_ret r)
  end.

Definition calculateSumOfSquares_run (vector : list Z) : sq_run :=
  match vector with
  | [] => SqRun [] RetEmpty 0
  | _ => sum_loop 0 vector
  end.

Definition calculateSumOfSquares (vector : list Z) : Z :=
  sq_ret (calculateSumOfSquares_run vector).

(** What the design document compares it with. *)
Definition sum_of_squares (vector : list Z) : Z :=
  fold_right (fun x acc => x * x + acc) 0 vector.

Definition clamp16 (z : Z) : Z := Z.max INT16_MIN (Z.min INT16_MAX z).

(** ** Characters, byte strings and buffers *)

Definition NUL : ascii := "000"%char.
Definition LF : ascii := "010"%char.
Definition colon : ascii := ":"%char.

Definition code (c : ascii) : Z := Z.of_N (N_of_ascii c).
Definition char_of (z : Z) : ascii := ascii_of_N (Z.to_N (z mod 256)).

(** [std::toupper] in the "C" locale (the program never calls [setlocale]). *)
Definition toupper (c : ascii) : ascii :=
  if (97 <=? code c) && (code c <=? 122) then char_of (code c - 32) else c.

Fixpoint str_map (f : ascii -> ascii) (s : string) : string :=
  match s with
  | EmptyString => EmptyString
  | String c s' => String (f c) (str_map f s')
  end.

Fixpoint str_take (n : nat) (s : string) : string :=
  match n, s with
  | S n', String c s' => String c (str_take n' s')
  | _, _ => EmptyString
  end.

Fixpoint str_drop (n : nat) (s : string) : string :=
  match n, s with
  | S n', String _ s' => str_drop n' s'
  | _, _ => s
  end.

Fixpoint str_repeat (c : ascii) (n : nat) : string :=
  match n with
  | O => EmptyString
  | S n' => String c (str_repeat c n')
  end.

Fixpoint str_forall (P : ascii -> Prop) (s : string) : Prop :=
  match s with
  | EmptyString => True
  | String c s' => P c /\ str_forall P s'
  end.

(** [buf[i] = c] on an array of [char]; nothing is stored out of range. *)
Fixpoint buffer_set (buf : string) (i : nat) (c : ascii) : string :=
  match buf, i with
  | EmptyString, _ => EmptyString
  | String _ rest, O => String c rest
  | String b rest, S i' => String b (buffer_set rest i' c)
  end.

(** What [recv(fd, buf + off, ...)] stores: [data] over the bytes of [buf]
    from offset [off] on. *)
Definition buffer_write (buf : string) (off : nat) (data : string) : string :=
  str_take off buf +:+ data +:+ str_drop (off + String.length data) buf.

(** [std::string] built from a [const char] pointer: the bytes before the
    first NUL. *)
Fixpoint c_str (buf : string) : string :=
  match buf with
  | EmptyString => EmptyString
  | String c rest => if Ascii.eqb c NUL then EmptyString else String c (c_str rest)
  end.

(** [std::to_string] and [operator<<] on integers. *)
Definition to_string (z : Z) : string := NilZero.string_of_int (Z.to_int z).

(** Native (little-endian) layout of [uint32_t] and [int16_t]. *)
Fixpoint le_unsigned (bytes : string) : Z :=
  match bytes with
  | EmptyString => 0
  | String c rest => code c + 256 * le_unsigned rest
  end.

Definition uint32_of (bytes : string) : Z := le_unsigned (str_take 4 bytes).

Definition int16_of (lo hi : ascii) : Z := to_int16 (code lo + 256 * code hi).

Fixpoint int16s_of (bytes : string) : list Z :=
  match bytes with
  | String lo (String hi rest) => int16_of lo hi :: int16s_of rest
  | _ => []
  end.

Definition bytes_of_int16 (z : Z) : string :=
  String (char_of z) (String (char_of (z mod 65536 / 256)) EmptyString).

(** ** [size_t] and the pieces of [std::string] the loader uses *)

Definition size_t_wrap (z : Z) : Z := z mod 2 ^ 64.
Definition npos : Z := 2 ^ 64 - 1.

Definition str_length (s : string) : Z := Z.of_nat (String.length s).

(** [s.find(c)]: the index of the first [c], or [npos]. *)
Fixpoint find_from (c : ascii) (s : string) (i : Z) : Z :=
  match s with
  | EmptyString => npos
  | String d s' => if Ascii.eqb d c then i else find_from c s' (i + 1)
  end.

Definition find (s : string) (c : ascii) : Z := find_from c s 0.

(** [s.substr(pos, n)] and [s.substr(pos)] for [pos <= s.length()]. *)
Definition substr (s : string) (pos n : Z) : string :=
  str_take (Z.to_nat n) (str_drop (Z.to_nat pos) s).

Definition substr_from (s : string) (pos : Z) : string :=
  str_drop (Z.to_nat pos) s.

Definition empty (s : string) : bool :=
  match s with EmptyString => true | _ => false end.

(** [while (std::getline(file, line))]: the successive values of [line]. *)
Fixpoint getlines_from (line : string) (rest : string) : list string :=
  match rest with
  | EmptyString => if empty line then [] else [line]
  | String c rest' =>
      if Ascii.eqb c LF then line :: getlines_from EmptyString rest'
      else getlines_from (line +:+ String c EmptyString) rest'
  end.

Definition getlines (content : string) : list string :=
  getlines_from EmptyString content.

(** ** Hexadecimal output ([std::hex], [std::setw], [std::setfill]) *)

Definition hex_digit (d : Z) : ascii :=
  if d <? 10 then char_of (48 + d) else char_of (87 + d).

(** [operator<<] under [std::hex]: the digits of an unsigned value, most
    significant first, none of them a leading zero.  [width] bounds their
    number (8 for [unsigned int], 16 for [uint64_t]). *)
Fixpoint hex_digits (width : nat) (z : Z) : string :=
  match width with
  | O => EmptyString
  | S width' =>
      if z <? 16 then String (hex_digit z) EmptyString
      else hex_digits width' (z / 16) +:+ String (hex_digit (z mod 16)) EmptyString
  end.

(** [std::setw(w)] with [std::setfill(fill)], right-aligned. *)
Definition setw_fill (w : nat) (fill : ascii) (s : string) : string :=
  str_repeat fill (w - String.length s) +:+ s.

Definition hex_u64 (z : Z) : string := setw_fill 16 "0" (hex_digits 16 z).
Definition hex_byte (c : ascii) : string := setw_fill 2 "0" (hex_digits 8 (code c)).

Fixpoint hex_bytes (digest : string) : string :=
  match digest with
  | EmptyString => EmptyString
  | String c rest => hex_byte c +:+ hex_bytes rest
  end.

Definition is_upper_hex (c : ascii) : Prop :=
  48 <= code c <= 57 \/ 65 <= code c <= 70.

(** ** The server object and its surroundings *)

Record Server : Type := mkServer {
  port : Z;
  userDbPath : string;
  logPath : string;
  users : gmap string string
}.

(** What one [recv] finds on the client socket. *)
Inductive arrival : Type :=
| Data (bytes : string)   (* bytes are waiting *)
| Shutdown                (* the peer has closed: recv returns 0 *)
| RecvError.              (* recv returns -1 *)

(** What one [send] on the client socket does. *)
Inductive send_outcome : Type :=
| SendAll
| SendPartial (n : nat)
| SendError.

Record Client : Type := mkClient {
  c_peer : string;                   (* the peer's address, "ip:port" *)
  c_inbox : list arrival;
  c_outcomes : list send_outcome
}.

Record World : Type := mkWorld {
  server : Server;
  files : gmap string string;        (* the files that can be opened for reading *)
  appendable : string -> bool;       (* the paths that can be opened for append *)
  entropy : list Z;                  (* what successive random draws produce *)
  stack : string;                    (* indeterminate bytes of uninitialised locals *)
  inbox : list arrival;              (* client socket, inbound *)
  outcomes : list send_outcome;      (* client socket, outbound *)
  socket_ret : Z;
  setsockopt_ret : Z;
  bind_ret : Z;
  listen_ret : Z;
  accepts : list (option Client)     (* successive results of accept *)
}.

Definition set_server (s : Server) (w : World) : World :=
  mkWorld s (files w) (appendable w) (entropy w) (stack w) (inbox w) (outcomes w)
          (socket_ret w) (setsockopt_ret w) (bind_ret w) (listen_ret w) (accepts w).

Definition set_entropy (e : list Z) (w : World) : World :=
  mkWorld (server w) (files w) (appendable w) e (stack w) (inbox w) (outcomes w)
          (socket_ret w) (setsockopt_ret w) (bind_ret w) (listen_ret w) (accepts w).

Definition set_inbox (i : list arrival) (w : World) : World :=
  mkWorld (server w) (files w) (appendable w) (entropy w) (stack w) i (outcomes w)
          (socket_ret w) (setsockopt_ret w) (bind_ret w) (listen_ret w) (accepts w).

Definition set_outcomes (o : list send_outcome) (w : World) : World :=
  mkWorld (server w) (files w) (appendable w) (entropy w) (stack w) (inbox w) o
          (socket_ret w) (setsockopt_ret w) (bind_ret w) (listen_ret w) (accepts w).

Definition set_accepts (a : list (option Client)) (w : World) : World :=
  mkWorld (server w) (files w) (appendable w) (entropy w) (stack w) (inbox w) (outcomes w)
          (socket_ret w) (setsockopt_ret w) (bind_ret w) (listen_ret w) a.

Definition set_users (u : gmap string string) (s : Server) : Server :=
  mkServer (port s) (userDbPath s) (logPath s) u.

Definition set_logPath (l : string) (s : Server) : Server :=
  mkServer (port s) (userDbPath s) l (users s).

(** A local array of [n] bytes that has not been initialised. *)
Definition local_array (w : World) (n : nat) : string :=
  str_take n (stack w +:+ str_repeat NUL n).

(** The call sites of [recv] and [send], with the loop index where the
    call is inside the vector loop. *)
Inductive recv_site : Type :=
| AtLogin                (* line 154 *)
| AtResponse             (* line 179 *)
| AtCount                (* line 269 *)
| AtSize (i : Z)         (* line 289 *)
| AtData (i : Z).        (* line 311 *)

Inductive send_site : Type :=
| AtErrLogin             (* line 166 *)
| AtSalt                 (* line 173 *)
| AtOk                   (* line 196 *)
| AtErrHash              (* line 201 *)
| AtResult (i : Z).      (* line 332 *)

Inductive event : Type :=
| EvCout (text : string)
| EvCerr (text : string)
| EvLog (path level message : string)
| EvFind (key : string) (found : bool)
| EvRandom (value : Z)
| EvRecv (site : recv_site) (len ret : Z) (data : string)
| EvSend (site : send_site) (data : string) (ret : Z)
| EvClose
| EvCloseListener
| EvSystem (command : string)
| EvSocket (ret : Z)
| EvSetsockopt (ret : Z)
| EvBind (port ret : Z)
| EvListen (ret : Z)
| EvAccept (accepted : bool).

(** ** The monad: state passing with a trace of events *)

Definition M (A : Type) : Type := World -> A * World * list event.

Definition result {A} (r : A * World * list event) : A := fst (fst r).
Definition after {A} (r : A * World * list event) : World := snd (fst r).
Definition trace {A} (r : A * World * list event) : list event := snd r.

#[global] Instance M_ret : MRet M := fun A a w => (a, w, []).

#[global] Instance M_bind : MBind M := fun A B f m w =>
  let r1 := m w in
  let r2 := f (result r1) (after r1) in
  (result r2, after r2, trace r1 ++ trace r2).

Definition emit (e : event) : M unit := fun w => (tt, w, [e]).
Definition get_world : M World := fun w => (w, w, []).
Definition modify (f : World -> World) : M unit := fun w => (tt, f w, []).

Definition cout (text : string) : M unit := emit (EvCout text).
Definition cerr (text : string) : M unit := emit (EvCerr text).

(** ** System calls *)

Definition send_ret (o : send_outcome) (len : Z) : Z :=
  match o with
  | SendAll => len
  | SendPartial n => Z.min (Z.of_nat n) len
  | SendError => -1
  end.

(** [recv(clientSocket, buf + off, len, 0)]: returns the count and the
    buffer as the call leaves it.  Bytes beyond [len] stay on the socket.
    An exhausted inbox is a peer that has closed.  A call that never
    returns (the peer keeps the connection and sends nothing) has no
    arrival here: the run of the program is then the modelled one up to
    that call. *)
Definition recv (site : recv_site) (buf : string) (off : nat) (len : Z)
  : M (Z * string) := fun w =>
  match inbox w with
  | [] => ((0, buf), w, [EvRecv site len 0 EmptyString])
  | Shutdown :: rest =>
      ((0, buf), set_inbox rest w, [EvRecv site len 0 EmptyString])
  | RecvError :: rest =>
      ((-1, buf), set_inbox rest w, [EvRecv site len (-1) EmptyString])
  | Data bytes :: rest =>
      let got := str_take (Z.to_nat len) bytes in
      let left := str_drop (Z.to_nat len) bytes in
      ((str_length got, buffer_write buf off got),
       set_inbox (if empty left then rest else Data left :: rest) w,
       [EvRecv site len (str_length got) got])
  end.

(** [send(clientSocket, data, len, 0)]; when the world says nothing about
    a call, all of its bytes are accepted.  [SendError] is an error the
    call returns.  The flags are 0 and SIGPIPE is handled nowhere, so a
    [send] on a connection the peer has reset ends the process instead
    of returning; that has no outcome here: the run of the program is
    then the modelled one up to that call, and a property of the whole
    trace says something of such a run only if it holds of every initial
    part of the trace. *)
Definition send (site : send_site) (data : string) (len : Z) : M Z := fun w =>
  let ret := send_ret (hd SendAll (outcomes w)) len in
  (ret, set_outcomes (tl (outcomes w)) w,
   [EvSend site (str_take (Z.to_nat len) data) ret]).

Definition close : M unit := emit EvClose.

(** ** Server::logError (server.cpp 66-80)

    The line's timestamp is wall-clock time and is left out of the event. *)
Definition logError (message : string) (isCritical : bool) : M unit := fun w =>
  let path := logPath (server w) in
  if appendable w path
  then (tt, w, [EvLog path (if isCritical then "CRITICAL" else "NON-CRITICAL") message])
  else (tt, w, []).

(** ** Server::loadUserDatabase (server.cpp 40-59) *)

(** The body of the [while] loop: [Some (login, password)] when the line
    reaches [users[login] = password]. *)
Definition parse_line (line : string) : option (string * string) :=
  let pos := find line colon in
  if negb (pos =? npos) && (0 <? pos) && (pos <? size_t_wrap (str_length line - 1))
  then
    let login := substr line 0 pos in
    let password := substr_from line (size_t_wrap (pos + 1)) in
    if negb (empty login) && negb (empty password)
    then Some (login, password)
    else None
  else None.

Definition load_line (users : gmap string string) (line : string)
  : gmap string string :=
  match parse_line line with
  | Some (login, password) => <[login := password]> users
  | None => users
  end.

Definition loadUserDatabase : M unit := fun w =>
  let s := server w in
  match files w !! userDbPath s with
  | None => logError ("Cannot open user database file: " +:+ userDbPath s) true w
  | Some content =>
      (tt, set_server (set_users (foldl load_line (users s) (getlines content)) s) w, [])
  end.

(** ** Server::generateSalt (server.cpp 129-143) *)

Definition generateSalt : M string := fun w =>
  let saltValue := hd 0 (entropy w) mod 2 ^ 64 in
  (str_map toupper (hex_u64 saltValue), set_entropy (tl (entropy w)) w,
   [EvRandom saltValue]).

(** ** The digest the server links against

    [sha224Hash] calls OpenSSL; the server model below takes the digest as
    a parameter.  This module is SHA-224 as FIPS 180-4 defines it, so that
    the model can be run on concrete inputs and checked against the known
    answers quoted in test.cpp. *)
Module SHA224.

Definition w32 (z : Z) : Z := z mod 2 ^ 32.
Definition rotr (n x : Z) : Z := w32 (Z.lor (Z.shiftr x n) (Z.shiftl x (32 - n))).
Definition Ch (x y z : Z) : Z := Z.lxor (Z.land x y) (Z.land (w32 (Z.lnot x)) z).
Definition Maj (x y z : Z) : Z :=
  Z.lxor (Z.lxor (Z.land x y) (Z.land x z)) (Z.land y z).
Definition Sigma0 (x : Z) : Z := Z.lxor (Z.lxor (rotr 2 x) (rotr 13 x)) (rotr 22 x).
Definition Sigma1 (x : Z) : Z := Z.lxor (Z.lxor (rotr 6 x) (rotr 11 x)) (rotr 25 x).
Definition sigma0 (x : Z) : Z := Z.lxor (Z.lxor (rotr 7 x) (rotr 18 x)) (Z.shiftr x 3).
Definition sigma1 (x : Z) : Z := Z.lxor (Z.lxor (rotr 17 x) (rotr 19 x)) (Z.shiftr x 10).

(** The constants, from their definition in the standard rather than from
    a table: the primes up to 311 are the first sixty-four. *)
Definition is_prime (n : nat) : bool :=
  forallb (fun d => negb (Z.of_nat n mod Z.of_nat d =? 0)) (seq 2 (n - 2)).

Definition primes : list Z := map Z.of_nat (filter is_prime (seq 2 310)).

(** Integer cube root, one bit at a time from bit [bits - 1] down. *)
Fixpoint cube_root (bits : nat) (n r : Z) : Z :=
  match bits with
  | O => r
  | S b =>
      let r' := r + 2 ^ Z.of_nat b in
      cube_root b n (if r' * r' * r' <=? n then r' else r)
  end.

(** The first 32 bits of the fractional part of the cube root of each of
    the first sixty-four primes. *)
Definition K : list Z :=
  Eval vm_compute in map (fun p => w32 (cube_root 36 (p * 2 ^ 96) 0)) primes.

(** The second 32 bits of the fractional part of the square root of the
    ninth to the sixteenth prime. *)
Definition H0 : list Z :=
  Eval vm_compute in map (fun p => w32 (Z.sqrt (p * 2 ^ 128))) (firstn 8 (skipn 8 primes)).

Definition word (l : list Z) (i : nat) : Z := nth i l 0.

(** One round, on the working variables [a..h] and the sixteen most
    recent words of the message schedule. *)
Definition round (st : list Z * list Z) (k : Z) : list Z * list Z :=
  let '(v, win) := st in
  let a := word v 0 in let b := word v 1 in
  let c := word v 2 in let d := word v 3 in
  let e := word v 4 in let f := word v 5 in
  let g := word v 6 in let h := word v 7 in
  let t1 := w32 (h + Sigma1 e + Ch e f g + k + word win 0) in
  let t2 := w32 (Sigma0 a + Maj a b c) in
  let next := w32 (sigma1 (word win 14) + word win 9
                   + sigma0 (word win 1) + word win 0) in
  ([w32 (t1 + t2); a; b; c; w32 (d + t1); e; f; g], tl win ++ [next]).

Definition compress (h : list Z) (block : list Z) : list Z :=
  let '(v, _) := fold_left round K (h, block) in
  map (fun p => w32 (fst p + snd p)) (combine h v).

Fixpoint be_words (bytes : list Z) : list Z :=
  match bytes with
  | b0 :: b1 :: b2 :: b3 :: rest =>
      (((b0 * 256 + b1) * 256 + b2) * 256 + b3) :: be_words rest
  | _ => []
  end.

Fixpoint blocks (n : nat) (words : list Z) : list (list Z) :=
  match n with
  | O => []
  | S n' => firstn 16 words :: blocks n' (skipn 16 words)
  end.

Definition be_bytes (width : nat) (z : Z) : list Z :=
  map (fun i => Z.shiftr z (8 * Z.of_nat i) mod 256) (rev (seq 0 width)).

Definition pad (msg : list Z) : list Z :=
  let len := Z.of_nat (List.length msg) in
  let zeros := Z.to_nat ((55 - len) mod 64) in
  msg ++ [128] ++ repeat 0 zeros ++ be_bytes 8 (8 * len).

Definition digest (msg : string) : string :=
  let bytes := pad (map code (list_ascii_of_string msg)) in
  let h := fold_left compress (blocks (List.length bytes / 64) (be_words bytes)) H0 in
  string_of_list_ascii (map char_of (concat (map (be_bytes 4) (firstn 7 h)))).

(** The library call, when none of its steps fails. *)
Definition evp (msg : string) : option string := Some (digest msg).

End SHA224.

(** What the inner [while] loop of [processVectors] ends with. *)
Inductive read_result : Type :=
| ReadDone (buffer : string) (totalRead : Z)   (* the loop condition failed *)
| ReadFailed                                   (* line 315: return *)
| ReadFuel.                                    (* the model's bound was hit *)

(** What [start] ends with: [return false], or the accept loop, which it
    never leaves (lines 463-464 are not reachable). *)
Inductive start_outcome : Type :=
| ReturnedFalse
| Accepting.

Section Digest.

(** OpenSSL's one-shot SHA-224 ([EVP_DigestInit_ex] with [EVP_sha224],
    [EVP_DigestUpdate], [EVP_DigestFinal_ex]): the digest bytes, or [None]
    when a call of the sequence does not return 1. *)
Variable EVP_sha224 : string -> option string.

(** ** Server::sha224Hash (server.cpp 87-123) *)
Definition sha224Hash (input : string) : string :=
  match EVP_sha224 input with
  | None => EmptyString
  | Some digest => str_map toupper (hex_bytes digest)
  end.

(** ** Server::authenticate (server.cpp 150-205) *)

(** Lines 171-204, for a login that was found: the challenge, the
    response and its verification.  [buffer] is the array [buffer] as the
    first part left it, [secret] is [userIt->second]. *)
Definition challenge (login buffer secret : string) : M bool :=
  salt ← generateSalt;
  sent ← send AtSalt salt 16;
  if negb (sent =? 16) then
    logError "Failed to send salt to client" false;;
    mret false
  else
    r ← recv AtResponse buffer 0 255;
    let bytesRead := r.1 in
    let buffer := r.2 in
    if bytesRead <=? 0 then
      logError "No hash received from client" false;;
      mret false
    else
      let buffer := buffer_set buffer (Z.to_nat bytesRead) NUL in
      let receivedHash := c_str buffer in
      let password := secret in
      let computedHash := sha224Hash (salt +:+ password) in
      let receivedHash := str_map toupper receivedHash in
      if String.eqb computedHash receivedHash then
        send AtOk "OK" 2;;
        logError ("Authentication successful for login: " +:+ login) false;;
        mret true
      else
        send AtErrHash "ERR" 3;;
        logError ("Authentication failed for login: " +:+ login) false;;
        mret false.

(** Lines 150-169, and the hand-over to [challenge]. *)
Definition authenticate : M bool :=
  w0 ← get_world;
  let buffer := local_array w0 256 in
  r ← recv AtLogin buffer 0 255;
  let bytesRead := r.1 in
  let buffer := r.2 in
  if bytesRead <=? 0 then
    logError "No data received from client for login" false;;
    mret false
  else
    let buffer := buffer_set buffer (Z.to_nat bytesRead) NUL in
    let login := c_str buffer in
    w ← get_world;
    let userIt := users (server w) !! login in
    emit (EvFind login (bool_decide (is_Some userIt)));;
    match userIt with
    | None =>
        send AtErrLogin "ERR" 3;;
        logError ("Identification failed for login: " +:+ login) false;;
        mret false
    | Some secret => challenge login buffer secret
    end.

(** ** Server::processVectors (server.cpp 264-346) *)

(** The [while (totalRead < totalBytesToRead)] loop of lines 310-318.
    Every successful [recv] adds at least one byte, so
    [totalBytesToRead] rounds are enough ([read_vector_fuel]). *)
Fixpoint read_vector (fuel : nat) (i : Z) (buffer : string)
         (totalRead totalBytesToRead : Z) : M read_result :=
  if totalRead <? totalBytesToRead then
    match fuel with
    | O => mret ReadFuel
    | S fuel' =>
        r ← recv (AtData i) buffer (Z.to_nat totalRead)
                 (totalBytesToRead - totalRead);
        let bytesRead := r.1 in
        if bytesRead <=? 0 then
          cout "DEBUG: Failed to read vector data";;
          logError "Failed to read vector data" false;;
          mret ReadFailed
        else
          read_vector fuel' i r.2 (totalRead + bytesRead) totalBytesToRead
    end
  else mret (ReadDone buffer totalRead).

(** The body of the [for] loop, lines 285-342: [true] when the loop goes
    on, [false] when the function returns. *)
Definition process_vector (i : Z) : M bool :=
  let number := to_string ((i + 1) mod 2 ^ 32) in
  cout ("DEBUG: Processing vector " +:+ number);;
  w ← get_world;
  r ← recv (AtSize i) (local_array w 4) 0 4;
  let bytesRead := r.1 in
  cout ("DEBUG: Read " +:+ to_string bytesRead +:+ " bytes for vectorSize");;
  if negb (bytesRead =? 4) then
    cout "DEBUG: Failed to read vectorSize";;
    logError "Failed to read vector size" false;;
    mret false
  else
    let vectorSize := uint32_of r.2 in
    cout ("DEBUG: Vector " +:+ number +:+ " size: " +:+ to_string vectorSize);;
    let vector := str_repeat NUL (Z.to_nat (vectorSize * 2)) in
    let totalBytesToRead := size_t_wrap (vectorSize * 2) in
    rd ← read_vector (Z.to_nat totalBytesToRead) i vector 0 totalBytesToRead;
    match rd with
    | ReadFailed | ReadFuel => mret false
    | ReadDone buffer totalRead =>
        cout ("DEBUG: Read " +:+ to_string totalRead +:+ " bytes of vector data");;
        let vector := int16s_of buffer in
        match vector with
        | [] => mret tt
        | first :: _ => cout ("DEBUG: First value: " +:+ to_string first)
        end;;
        let result := calculateSumOfSquares vector in
        cout ("DEBUG: Sum of squares for vector " +:+ number +:+ ": "
              +:+ to_string result);;
        bytesSent ← send (AtResult i) (bytes_of_int16 result) 2;
        cout ("DEBUG: Sent " +:+ to_string bytesSent +:+ " bytes for result: "
              +:+ to_string result);;
        if negb (bytesSent =? 2) then
          cout "DEBUG: Failed to send result";;
          logError ("Failed to send result for vector " +:+ number) false;;
          mret false
        else
          cout ("DEBUG: Result for vector " +:+ number +:+ " sent successfully");;
          mret true
    end.

(** [for (uint32_t i = ...; i < numVectors; ++i)], entered with
    [todo = numVectors - i] rounds to go. *)
Fixpoint vector_loop (todo : nat) (i : Z) : M bool :=
  match todo with
  | O => mret true
  | S todo' =>
      go_on ← process_vector i;
      if (go_on : bool) then vector_loop todo' (i + 1) else mret false
  end.

Definition processVectors : M unit :=
  cout "DEBUG: Starting vector processing";;
  w ← get_world;
  r ← recv AtCount (local_array w 4) 0 4;
  let bytesRead := r.1 in
  cout ("DEBUG: Read " +:+ to_string bytesRead +:+ " bytes for numVectors");;
  if negb (bytesRead =? 4) then
    cout ("DEBUG: Failed to read numVectors. Expected 4, got " +:+ to_string bytesRead);;
    logError "Failed to read number of vectors" false
  else
    let numVectors := uint32_of r.2 in
    cout ("DEBUG: Number of vectors: " +:+ to_string numVectors);;
    finished ← vector_loop (Z.to_nat numVectors) 0;
    if (finished : bool) then
      cout ("DEBUG: All " +:+ to_string numVectors +:+ " vectors processed successfully")
    else mret tt.

(** ** Server::handleClient (server.cpp 352-368) *)
Definition handleClient : M unit :=
  cout "New client connection";;
  logError "New client connection established" false;;
  authenticated ← authenticate;
  if negb authenticated then
    logError "Authentication failed, closing connection" false;;
    close
  else
    cout "Client authenticated successfully";;
    logError "Client authenticated successfully" false;;
    processVectors;;
    close;;
    logError "Client connection closed" false.

(** ** Server::start (server.cpp 374-465) *)

(** The [while (true)] loop of lines 445-461, run over the connection
    attempts the world holds; when they are used up the server is
    blocked in [accept]. *)
Fixpoint accept_loop (pending : list (option Client)) : M start_outcome :=
  match pending with
  | [] => mret Accepting
  | None :: later =>
      emit (EvAccept false);;
      logError "Cannot accept client connection" false;;
      accept_loop later
  | Some client :: later =>
      emit (EvAccept true);;
      modify (fun w => set_outcomes (c_outcomes client) (set_inbox (c_inbox client) w));;
      cout ("Client connected from " +:+ c_peer client);;
      handleClient;;
      accept_loop later
  end.

(** Lines 376-388: the log file, or its fallback, must open. *)
Definition check_log : M bool :=
  w ← get_world;
  if appendable w (logPath (server w)) then mret true
  else
    cerr ("ERROR: Cannot open log file: " +:+ logPath (server w));;
    modify (fun w => set_server (set_logPath "./server_fallback.log" (server w)) w);;
    cerr "Trying fallback: ./server_fallback.log";;
    if appendable w "./server_fallback.log" then mret true
    else
      cerr "ERROR: Cannot open fallback log file";;
      mret false.

Definition start : M start_outcome :=
  log_ok ← check_log;
  if negb log_ok then mret ReturnedFalse
  else
    logError "=== Server starting ===" false;;
    loadUserDatabase;;
    w ← get_world;
    logError ("User database loaded, users: "
              +:+ to_string (Z.of_nat (size (users (server w))))) false;;
    emit (EvSystem "mkdir -p log 2>/dev/null");;
    emit (EvSocket (socket_ret w));;
    if socket_ret w <? 0 then
      logError "Cannot create socket" true;;
      mret ReturnedFalse
    else
      emit (EvSetsockopt (setsockopt_ret w));;
      if setsockopt_ret w <? 0 then
        logError "Cannot set socket options" true;;
        emit EvCloseListener;;
        mret ReturnedFalse
      else
        emit (EvBind (port (server w)) (bind_ret w));;
        if bind_ret w <? 0 then
          logError ("Cannot bind socket to port " +:+ to_string (port (server w))) true;;
          emit EvCloseListener;;
          mret ReturnedFalse
        else
          emit (EvListen (listen_ret w));;
          if listen_ret w <? 0 then
            logError "Cannot listen on socket" true;;
            emit EvCloseListener;;
            mret ReturnedFalse
          else
            cout ("Server started on port " +:+ to_string (port (server w)));;
            cout ("User database: " +:+ userDbPath (server w));;
            cout ("Log file: " +:+ logPath (server w));;
            cout "Press Ctrl+C to stop";;
            logError ("Server started successfully on port "
                      +:+ to_string (port (server w))) false;;
            accept_loop (accepts w).

End Digest.

(** ** Vocabulary of the properties *)

Fixpoint count_char (c : ascii) (s : string) : nat :=
  match s with
  | EmptyString => O
  | String d s' => ((if Ascii.eqb d c then 1 else 0) + count_char c s')%nat
  end.

(** The design document's criterion for a credential line: exactly one
    separator, with something on either side of it. *)
Definition one_separator_line (line : string) : Prop :=
  count_char colon line = 1%nat
  /\ exists login password,
       line = login +:+ String colon password
       /\ login <> EmptyString /\ password <> EmptyString.

(** The [std::string] the handshake builds from the bytes waiting on the
    socket, for the login and for the response alike: at most 255 of them
    are read, and the string built from the buffer stops at the first
    NUL. *)
Definition received_string (bytes : string) : string := c_str (str_take 255 bytes).

(** The events of the vector phase: every socket call of [processVectors]
    and its opening line on the console. *)
Definition vector_phase (e : event) : Prop :=
  match e with
  | EvRecv AtCount _ _ _ | EvRecv (AtSize _) _ _ _ | EvRecv (AtData _) _ _ _ => True
  | EvSend (AtResult _) _ _ => True
  | EvCout text => text = "DEBUG: Starting vector processing"
  | _ => False
  end.

(** Drawing the salt, and putting it on the wire. *)
Definition salt_event (e : event) : Prop :=
  match e with
  | EvRandom _ | EvSend AtSalt _ _ => True
  | _ => False
  end.

(** A look-up in the user table. *)
Definition find_event (e : event) : Prop :=
  match e with EvFind _ _ => True | _ => False end.

Definition log_event (e : event) : Prop :=
  match e with
  | EvLog _ _ _ => True
  | _ => False
  end.

(** What the first [send] of a world returns, asked for [len] bytes. *)
Definition next_send (w : World) (len : Z) : Z :=
  send_ret (hd SendAll (outcomes w)) len.

(** The salt the next call of [generateSalt] produces. *)
Definition next_salt (w : World) : string :=
  str_map toupper (hex_u64 (hd 0 (entropy w) mod 2 ^ 64)).

(** The user table as the world holds it. *)
Definition known (w : World) : gmap string string := users (server w).

(** ** Sample worlds

    A server as main.cpp builds it by default, with the users of the
    Makefile's test_auth_db.txt, and a few clients. *)

Definition sample_users : gmap string string :=
  {[ "user" := "P@ssW0rd"; "alice" := "password456"; "bob" := "secret789" ]}.

Definition sample_server : Server :=
  mkServer 33333 "/scale.conf" "/log/scale.log" sample_users.

Definition sample_world (inbox : list arrival) : World :=
  mkWorld sample_server ∅ (fun _ => true) [0x0123456789abcdef] "scratch"
          inbox [] 3 0 0 0 [].

(** A server that has just been constructed, on a machine where no user
    database exists. *)
Definition fresh_world : World :=
  mkWorld (mkServer 33333 "/scale.conf" "/log/scale.log" ∅)
          ∅ (fun _ => true) [] "" [] [] 3 0 0 0 [].

Definition bytes (l : list Z) : string :=
  string_of_list_ascii (map char_of l).

(** The vector a socket call belongs to, when it is one of the loop's. *)
Definition event_index (e : event) : option Z :=
  match e with
  | EvRecv (AtSize i) _ _ _ | EvRecv (AtData i) _ _ _ => Some i
  | EvSend (AtResult i) _ _ => Some i
  | _ => None
  end.

Definition at_index (j : Z) (e : event) : Prop :=
  forall k, event_index e = Some k -> k = j.

Definition unindexed (e : event) : Prop := event_index e = None.

(** In [t], every socket call for a vector [k] beyond the [j]-th comes
    after the two-byte result of vector [k - 1] has gone out whole. *)
Definition ordered_from (j : Z) (t : list event) : Prop :=
  forall pre e post k,
    t = pre ++ e :: post -> event_index e = Some k ->
    j <= k
    /\ (j < k -> exists data,
          In (EvSend (AtResult (k - 1)) data 2) pre /\ String.length data = 2%nat).

(** [m] leaves the observation [f] of the world as it found it. *)
Definition keeps {A X} (f : World -> X) (m : M A) : Prop :=
  forall w, f (after (m w)) = f w.

(** Every event [m] leaves satisfies [P]. *)
Definition emits {A} (P : event -> Prop) (m : M A) : Prop :=
  forall w, Forall P (trace (m w)).

(** ** More of the program *)

(** *** Server::readExact (server.cpp 245-257)

    The function is called from nowhere; the label of its [recv] is the
    caller's to give.  [None] is the model's bound being hit, which
    [readExact_fuel] shows never happens. *)
Fixpoint readExact_loop (fuel : nat) (site : recv_site) (buffer : string)
         (totalRead size : Z) : M (option bool * string) :=
  if totalRead <? size then
    match fuel with
    | O => mret (None, buffer)
    | S fuel' =>
        r ← recv site buffer (Z.to_nat totalRead) (size - totalRead);
        let bytesRead := r.1 in
        if bytesRead <=? 0 then mret (Some false, r.2)
        else readExact_loop fuel' site r.2 (totalRead + bytesRead) size
    end
  else mret (Some true, buffer).

Definition readExact (site : recv_site) (buffer : string) (size : Z)
  : M (option bool * string) :=
  readExact_loop (Z.to_nat size) site buffer 0 size.

(** *** createTempUserDb (test.cpp 28-40): the file the unit tests write
    for a list of users. *)
Definition createTempUserDb (users : list (string * string)) : string :=
  fold_right (fun user_pair file =>
                fst user_pair +:+ ":" +:+ snd user_pair +:+ String LF file)
             EmptyString users.

(** *** main.cpp *)

(** [std::stoi] on a whole string, base 10: white space, an optional
    sign, then digits up to the first character that is not one; [None]
    stands for the exceptions (no digit at all, or a value outside
    [int]). *)
Definition isspace (c : ascii) : bool :=
  (code c =? 32) || ((9 <=? code c) && (code c <=? 13)).

Definition isdigit (c : ascii) : bool := (48 <=? code c) && (code c <=? 57).

Fixpoint skip_spaces (s : string) : string :=
  match s with
  | String c rest => if isspace c then skip_spaces rest else s
  | EmptyString => s
  end.

(** The value of the leading digits, after [acc], and whether there was
    one. *)
Fixpoint leading_digits (acc : Z) (seen : bool) (s : string) : Z * bool :=
  match s with
  | String c rest =>
      if isdigit c then leading_digits (10 * acc + (code c - 48)) true rest
      else (acc, seen)
  | EmptyString => (acc, seen)
  end.

Definition INT_MIN : Z := - 2 ^ 31.
Definition INT_MAX : Z := 2 ^ 31 - 1.

Definition stoi (str : string) : option Z :=
  let s := skip_spaces str in
  let signed :=
    match s with
    | String "-" rest => (true, rest)
    | String "+" rest => (false, rest)
    | _ => (false, s)
    end in
  let parsed := leading_digits 0 false (snd signed) in
  if snd parsed then
    let value := if fst signed then - fst parsed else fst parsed in
    if (INT_MIN <=? value) && (value <=? INT_MAX) then Some value else None
  else None.

Definition usage : string :=
  "Usage: server [OPTIONS]
Options:
  -h              Show this help
  -p PORT         Port number (default: 33333)
  -c CONFIG_FILE  User database file (default: /scale.conf)
  -l LOG_FILE     Log file (default: /log/scale.log)
".

Definition showHelp : M unit := cout usage.

(** The three locals the option loop sets. *)
Record Options : Type := mkOptions {
  opt_port : Z;
  opt_configFile : string;
  opt_logFile : string
}.

Definition default_options : Options :=
  mkOptions 33333 "/scale.conf" "/log/scale.log".

(** The last [else] of the option loop (lines 71-75). *)
Definition unknown_option (arg : string) : M (option Options) :=
  cerr ("Unknown option: " +:+ arg);;
  showHelp;;
  mret None.

(** The second [for] loop of [main] (lines 54-76) over [argv[i..]]:
    [None] when it has returned 1.  Each of the three tests is
    [strcmp(argv[i], ...) == 0 && i + 1 < argc], so an argument that is
    the last one falls through to the final [else]. *)
Fixpoint parse_options (args : list string) (o : Options) : M (option Options) :=
  match args with
  | [] => mret (Some o)
  | arg :: rest =>
      match rest with
      | [] => unknown_option arg
      | value :: rest' =>
          if String.eqb arg "-p" then
            match stoi value with
            | Some port =>
                if (port <? 1) || (65535 <? port) then
                  cerr ("Invalid port number: " +:+ to_string port);;
                  mret None
                else
                  parse_options rest' (mkOptions port (opt_configFile o) (opt_logFile o))
            | None =>
                cerr ("Invalid port number: " +:+ value);;
                mret None
            end
          else if String.eqb arg "-c" then
            parse_options rest' (mkOptions (opt_port o) value (opt_logFile o))
          else if String.eqb arg "-l" then
            parse_options rest' (mkOptions (opt_port o) (opt_configFile o) value)
          else unknown_option arg
      end
  end.

(** How [main] ends: with an exit code, or inside [Server::start], which
    only returns on failure. *)
Inductive main_outcome : Type :=
| Exited (code : Z)
| Serving.

Section MainProgram.

Variable EVP_sha224 : string -> option string.

(** [main] (main.cpp 35-88) on [argv[1]], ..., [argv[argc - 1]]. *)
Definition main (argv : list string) : M main_outcome :=
  if existsb (fun arg => String.eqb arg "-h") argv then
    showHelp;;
    mret (Exited 0)
  else
    match argv with
    | [] =>
        showHelp;;
        mret (Exited 0)
    | _ =>
        parsed ← parse_options argv default_options;
        match parsed with
        | None => mret (Exited 1)
        | Some o =>
            modify (set_server (mkServer (opt_port o) (opt_configFile o)
                                         (opt_logFile o) ∅));;
            cout ("Starting server on port " +:+ to_string (opt_port o));;
            cout ("User database: " +:+ opt_configFile o);;
            cout ("Log file: " +:+ opt_logFile o);;
            started ← start EVP_sha224;
            match started with
            | ReturnedFalse =>
                cerr "Failed to start server";;
                mret (Exited 1)
            | Accepting => mret Serving
            end
        end
    end.

End MainProgram.

(** ** More vocabulary *)

(** The value of an upper-case hexadecimal digit, and of a string of
    them. *)
Definition hex_val (c : ascii) : Z :=
  if code c <? 58 then code c - 48 else code c - 55.

Fixpoint hex_value_from (acc : Z) (s : string) : Z :=
  match s with
  | EmptyString => acc
  | String c rest => hex_value_from (16 * acc + hex_val c) rest
  end.

Definition hex_value (s : string) : Z := hex_value_from 0 s.

(** The bytes a string of hexadecimal digit pairs stands for. *)
Fixpoint unhex_bytes (s : string) : string :=
  match s with
  | String hi (String lo rest) =>
      String (char_of (16 * hex_val hi + hex_val lo)) (unhex_bytes rest)
  | _ => EmptyString
  end.

(** The secret of the last line of [lines] that the loader records under
    [login], if there is one. *)
Fixpoint last_secret (login : string) (lines : list string) : option string :=
  match lines with
  | [] => None
  | line :: rest =>
      match last_secret login rest with
      | Some secret => Some secret
      | None =>
          match parse_line line with
          | Some (l, secret) => if String.eqb l login then Some secret else None
          | None => None
          end
      end
  end.

(** A login and a secret the loader can hold. *)
Definition well_formed_entry (login secret : string) : Prop :=
  login <> EmptyString /\ count_char colon login = O /\ secret <> EmptyString.

(** The socket as a byte stream: the first [n] bytes of what the
    segments of [inbox] hold, and what is left of [inbox] behind them;
    [None] when the stream ends, fails or stalls on an empty segment
    before [n] bytes have come. *)
Fixpoint drain (n : nat) (inbox : list arrival) : option (string * list arrival) :=
  match n with
  | O => Some (EmptyString, inbox)
  | S _ =>
      match inbox with
      | Data segment :: rest =>
          if empty segment then None
          else if (String.length segment <=? n)%nat then
            match drain (n - String.length segment) rest with
            | Some (data, inbox') => Some (segment +:+ data, inbox')
            | None => None
            end
          else Some (str_take n segment, Data (str_drop n segment) :: rest)
      | _ => None
      end
  end.

(** A freshly constructed server on a machine whose user database holds
    [content]. *)
Definition file_world (content : string) : World :=
  mkWorld (mkServer 33333 "/scale.conf" "/log/scale.log" ∅)
          {[ "/scale.conf" := content ]} (fun _ => true) [] "" [] [] 3 0 0 0 [].

(** What [createTempUserDb] can write and the loader read back: no line
    feed on either side, and a line that fits [size_t]. *)
Definition storable (user_pair : string * string) : Prop :=
  well_formed_entry (fst user_pair) (snd user_pair)
  /\ count_char LF (fst user_pair) = O
  /\ count_char LF (snd user_pair) = O
  /\ str_length (fst user_pair +:+ String colon (snd user_pair)) < 2 ^ 64.

(** The peer's side of the vector exchange: native layout of a count, of
    a vector and of a whole request. *)
Fixpoint le_bytes (width : nat) (z : Z) : string :=
  match width with
  | O => EmptyString
  | S width' => String (char_of z) (le_bytes width' (z / 256))
  end.

Fixpoint encode_int16s (v : list Z) : string :=
  match v with
  | [] => EmptyString
  | x :: rest => bytes_of_int16 x +:+ encode_int16s rest
  end.

Definition encode_vector (v : list Z) : string :=
  le_bytes 4 (Z.of_nat (length v)) +:+ encode_int16s v.

Fixpoint encode_vectors (vs : list (list Z)) : string :=
  match vs with
  | [] => EmptyString
  | v :: rest => encode_vector v +:+ encode_vectors rest
  end.

Definition encode_request (vs : list (list Z)) : string :=
  le_bytes 4 (Z.of_nat (length vs)) +:+ encode_vectors vs.

(** A stream held in one segment. *)
Definition one_segment (s : string) : list arrival :=
  if empty s then [] else [Data s].

(** The results that went out whole, in order. *)
Fixpoint results_sent (t : list event) : list string :=
  match t with
  | [] => []
  | EvSend (AtResult _) data ret :: rest =>
      if ret =? 2 then data :: results_sent rest else results_sent rest
  | _ :: rest => results_sent rest
  end.

(** Calls on the client socket. *)
Definition socket_event (e : event) : bool :=
  match e with
  | EvRecv _ _ _ _ | EvSend _ _ _ => true
  | _ => false
  end.

(** The verdicts of the handshake. *)
Definition verdict_event (e : event) : bool :=
  match e with
  | EvSend AtOk _ _ | EvSend AtErrLogin _ _ | EvSend AtErrHash _ _ => true
  | _ => false
  end.

Definition close_event (e : event) : bool :=
  match e with EvClose => true | _ => false end.

Definition accept_event (e : event) : bool :=
  match e with EvAccept _ => true | _ => false end.

(** A socket call of [processVectors] that did not do all it was asked. *)
Definition failed_call (e : event) : Prop :=
  match e with
  | EvRecv AtCount _ ret _ | EvRecv (AtSize _) _ ret _ => ret <> 4
  | EvRecv (AtData _) _ ret _ => ret <= 0
  | EvSend (AtResult _) _ ret => ret <> 2
  | _ => False
  end.

(** What the next [recv] finds is nothing: the peer is gone, the call
    fails, or the segment is empty. *)
Definition nothing_to_read (inbox : list arrival) : Prop :=
  match inbox with
  | Data segment :: _ => segment = EmptyString
  | _ => True
  end.

(** Every [send] of a two-byte result goes out whole. *)
Definition whole_sends (o : list send_outcome) : Prop :=
  Forall (fun x => send_ret x 2 = 2) o.

(** An event that is no call on the client socket. *)
Definition silent (e : event) : Prop := socket_event e = false.

(** After a socket call of the vector phase that failed, [t] holds no
    further socket call. *)
Definition stops_at_failure (t : list event) : Prop :=
  forall pre e post, t = pre ++ e :: post -> failed_call e -> Forall silent post.

(** The life of a connection: it is accepted, and it is closed. *)
Definition lifecycle_event (e : event) : bool := accept_event e || close_event e.

(** What one connection attempt leaves of it. *)
Definition served (attempt : option Client) : list event :=
  match attempt with
  | Some _ => [EvAccept true; EvClose]
  | None => [EvAccept false]
  end.

(** [t] holds one [close], with no other before it and only log lines
    behind it. *)
Definition closes_once (t : list event) : Prop :=
  exists pre post,
    t = pre ++ EvClose :: post
    /\ Forall (fun e => close_event e = false) pre
    /\ Forall log_event post.

(** A log line of [e] is written to [path]. *)
Definition logs_to (path : string) (e : event) : Prop :=
  match e with
  | EvLog p _ _ => p = path
  | _ => True
  end.

(** [m] leaves the log path as it found it and writes its log lines
    there. *)
Definition steady {A} (m : M A) : Prop :=
  forall w,
    logPath (server (after (m w))) = logPath (server w)
    /\ Forall (logs_to (logPath (server w))) (trace (m w)).

(** Output on the terminal. *)
Definition console_event (e : event) : Prop :=
  match e with
  | EvCout _ | EvCerr _ => True
  | _ => False
  end.

(** The ports [main] accepts. *)
Definition valid_port (p : Z) : Prop := 1 <= p <= 65535.

(** What only [start] does: the listening socket and the log directory. *)
Definition startup_event (e : event) : Prop :=
  match e with
  | EvSystem _ | EvSocket _ | EvSetsockopt _ | EvBind _ _ | EvListen _
  | EvCloseListener => True
  | _ => False
  end.

(** A [bind] of [e] is to port [p]. *)
Definition binds_to (p : Z) (e : event) : Prop :=
  match e with
  | EvBind q _ => q = p
  | _ => True
  end.


(* ===================================================================== *)
(** * Part II. Properties                                                 *)
(* ===================================================================== *)

#[local] Arguments String.append !s1 s2 : simpl nomatch.

(** ** Reasoning about [M] *)

Section Monad.

Context {A B : Type}.

Lemma result_bind (m : M A) (k : A -> M B) w :
  result ((m ≫= k) w) = result (k (result (m w)) (after (m w))).
Proof. reflexivity. Qed.

Lemma after_bind (m : M A) (k : A -> M B) w :
  after ((m ≫= k) w) = after (k (result (m w)) (after (m w))).
Proof. reflexivity. Qed.

Lemma trace_bind (m : M A) (k : A -> M B) w :
  trace ((m ≫= k) w) = trace (m w) ++ trace (k (result (m w)) (after (m w))).
Proof. reflexivity. Qed.

Lemma run_bind (m : M A) (k : A -> M B) w :
  (m ≫= k) w
  = (result (k (result (m w)) (after (m w))),
     after (k (result (m w)) (after (m w))),
     trace (m w) ++ trace (k (result (m w)) (after (m w)))).
Proof. reflexivity. Qed.

Lemma keeps_bind {X} (f : World -> X) (m : M A) (k : A -> M B) :
  keeps f m -> (forall a, keeps f (k a)) -> keeps f (m ≫= k).
Proof. intros Hm Hk w. rewrite after_bind, Hk. apply Hm. Qed.

Lemma emits_bind (P : event -> Prop) (m : M A) (k : A -> M B) :
  emits P m -> (forall a, emits P (k a)) -> emits P (m ≫= k).
Proof.
  intros Hm Hk w. rewrite trace_bind. apply Forall_app.
  split; [apply Hm | apply Hk].
Qed.

Lemma keeps_ret {X} (f : World -> X) (a : A) : keeps f (mret a).
Proof. intros w. reflexivity. Qed.

Lemma emits_ret (P : event -> Prop) (a : A) : emits P (mret a).
Proof. intros w. constructor. Qed.

End Monad.

Section Primitives.

Context {X : Type} (f : World -> X) (P : event -> Prop).

Lemma keeps_emit e : keeps f (emit e).
Proof. intros w. reflexivity. Qed.

Lemma keeps_get_world : keeps f get_world.
Proof. intros w. reflexivity. Qed.

Lemma keeps_logError msg crit : keeps f (logError msg crit).
Proof. intros w. unfold logError. destruct (appendable w _); reflexivity. Qed.

Lemma keeps_modify g : (forall w, f (g w) = f w) -> keeps f (modify g).
Proof. intros H w. apply H. Qed.

Lemma keeps_recv site buf off len :
  (forall i w, f (set_inbox i w) = f w) -> keeps f (recv site buf off len).
Proof.
  intros H w. unfold recv. destruct (inbox w) as [|[bytes| |] rest]; cbn; auto.
Qed.

Lemma keeps_send site data len :
  (forall o w, f (set_outcomes o w) = f w) -> keeps f (send site data len).
Proof. intros H w. apply H. Qed.

Lemma keeps_generateSalt :
  (forall e w, f (set_entropy e w) = f w) -> keeps f generateSalt.
Proof. intros H w. cbn. auto. Qed.

Lemma emits_emit e : P e -> emits P (emit e).
Proof. intros H w. repeat constructor. exact H. Qed.

Lemma emits_get_world : emits P get_world.
Proof. intros w. constructor. Qed.

Lemma emits_modify g : emits P (modify g).
Proof. intros w. constructor. Qed.

Lemma emits_logError msg crit :
  (forall path level, P (EvLog path level msg)) -> emits P (logError msg crit).
Proof.
  intros H w. unfold logError. destruct (appendable w _); repeat constructor. apply H.
Qed.

Lemma emits_recv site buf off len :
  (forall ret data, P (EvRecv site len ret data)) -> emits P (recv site buf off len).
Proof.
  intros H w. unfold recv.
  destruct (inbox w) as [|[bytes| |] rest]; repeat constructor; apply H.
Qed.

Lemma emits_send site data len :
  (forall sent ret, P (EvSend site sent ret)) -> emits P (send site data len).
Proof.
  intros H w. repeat constructor. apply H.
Qed.

Lemma emits_generateSalt : (forall v, P (EvRandom v)) -> emits P generateSalt.
Proof. intros H w. repeat constructor. apply H. Qed.

End Primitives.

(** One step through a monadic program, for either judgement; what is
    already known about sub-programs is taken from the [steps] hints. *)
Create HintDb steps.

Ltac keeps_step :=
  lazymatch goal with
  | |- keeps _ (_ ≫= _) => apply keeps_bind; [|intros ?]
  | |- keeps _ (mret _) => apply keeps_ret
  | |- keeps _ (emit _) => apply keeps_emit
  | |- keeps _ (cout _) => apply keeps_emit
  | |- keeps _ (cerr _) => apply keeps_emit
  | |- keeps _ close => apply keeps_emit
  | |- keeps _ get_world => apply keeps_get_world
  | |- keeps _ (logError _ _) => apply keeps_logError
  | |- keeps _ (recv _ _ _ _) => apply keeps_recv; reflexivity
  | |- keeps _ (send _ _ _) => apply keeps_send; reflexivity
  | |- keeps _ generateSalt => apply keeps_generateSalt; reflexivity
  | |- keeps _ (modify _) => apply keeps_modify; reflexivity
  | |- keeps _ (match ?x with _ => _ end) => destruct x
  | |- _ => first [ progress cbv zeta | solve [auto with steps] ]
  end.

Ltac emits_step side :=
  lazymatch goal with
  | |- emits _ (_ ≫= _) => apply emits_bind; [|intros ?]
  | |- emits _ (mret _) => apply emits_ret
  | |- emits _ (emit _) => apply emits_emit; side
  | |- emits _ (cout _) => apply emits_emit; side
  | |- emits _ (cerr _) => apply emits_emit; side
  | |- emits _ close => apply emits_emit; side
  | |- emits _ get_world => apply emits_get_world
  | |- emits _ (logError _ _) => apply emits_logError; intros; side
  | |- emits _ (recv _ _ _ _) => apply emits_recv; intros; side
  | |- emits _ (send _ _ _) => apply emits_send; intros; side
  | |- emits _ generateSalt => apply emits_generateSalt; intros; side
  | |- emits _ (modify _) => apply emits_modify
  | |- emits _ (match ?x with _ => _ end) => destruct x
  | |- _ => first [ progress cbv zeta | solve [auto with steps] ]
  end.

(** Closes the side conditions "this event is not of the vector phase". *)
Ltac quiet := cbn; solve [auto | intros [] | discriminate | intros ?; discriminate].

(** Runs a program on a world, one bind at a time; [known] rewrites the
    calls whose outcome is known. *)
Ltac run_with known :=
  repeat (first [ rewrite run_bind | progress known ];
          cbn [result after trace fst snd negb get_world emit cout cerr close app
               server files appendable entropy stack inbox outcomes
               set_inbox set_outcomes set_entropy]).

Section Strings.

Lemma length_app (s t : string) :
  String.length (s +:+ t) = (String.length s + String.length t)%nat.
Proof. induction s as [|c s IH]; simpl; [reflexivity | now rewrite IH]. Qed.

Lemma str_app_assoc (s t u : string) : (s +:+ t) +:+ u = s +:+ (t +:+ u).
Proof. induction s as [|c s IH]; simpl; [reflexivity | f_equal; exact IH]. Qed.

Lemma str_take_app (s t : string) : str_take (String.length s) (s +:+ t) = s.
Proof. induction s as [|c s IH]; simpl; [now destruct t | now rewrite IH]. Qed.

Lemma str_drop_app (s t : string) : str_drop (String.length s) (s +:+ t) = t.
Proof. induction s as [|c s IH]; simpl; [now destruct t | exact IH]. Qed.

Lemma find_from_none c s i : count_char c s = O -> find_from c s i = npos.
Proof.
  revert i. induction s as [|d s IH]; intros i; simpl; [reflexivity|].
  destruct (Ascii.eqb d c); [discriminate | apply IH].
Qed.

Lemma find_from_found c l p i :
  count_char c l = O -> find_from c (l +:+ String c p) i = i + str_length l.
Proof.
  revert i. induction l as [|d l IH]; intros i; simpl.
  - rewrite Ascii.eqb_refl. unfold str_length. simpl. lia.
  - destruct (Ascii.eqb d c); [discriminate|]. intros H.
    rewrite IH by exact H. unfold str_length. simpl String.length. lia.
Qed.

Lemma split_first c s :
  count_char c s = O
  \/ exists l p, s = l +:+ String c p /\ count_char c l = O.
Proof.
  induction s as [|d s IH]; [now left|].
  simpl. destruct (Ascii.eqb_spec d c) as [->|Hne].
  - right. exists EmptyString, s. split; reflexivity.
  - destruct IH as [H|(l & p & -> & H)]; [now left|].
    right. exists (String d l), p. split; [reflexivity|].
    simpl. destruct (Ascii.eqb_spec d c); [contradiction | exact H].
Qed.

Lemma length_str_take n : forall s,
  String.length (str_take n s) = Nat.min n (String.length s).
Proof.
  induction n as [|n IH]; intros [|c s]; simpl; try reflexivity.
  now rewrite IH.
Qed.

Lemma length_str_repeat c n : String.length (str_repeat c n) = n.
Proof. induction n as [|n IH]; simpl; [reflexivity | now rewrite IH]. Qed.

Lemma str_take_all n s : (String.length s <= n)%nat -> str_take n s = s.
Proof.
  revert s. induction n as [|n IH]; intros [|c s] H; simpl in *; try reflexivity.
  - lia.
  - rewrite IH by lia. reflexivity.
Qed.

Lemma local_array_length w n : String.length (local_array w n) = n.
Proof.
  unfold local_array.
  rewrite length_str_take, length_app, length_str_repeat. lia.
Qed.

(** Reading the buffer as a C string after [buf[bytesRead] = 0] gives the
    received bytes up to their first NUL, whatever the buffer held. *)
Lemma c_str_buffer got : forall buf,
  (String.length got < String.length buf)%nat ->
  c_str (buffer_set (buffer_write buf 0 got) (String.length got) NUL) = c_str got.
Proof.
  unfold buffer_write.
  induction got as [|c got IH]; intros [|b buf] H; simpl in *; try lia.
  - reflexivity.
  - destruct (Ascii.eqb c NUL); [reflexivity|].
    f_equal. rewrite <- (IH buf) by lia. simpl. reflexivity.
Qed.

Lemma c_str_no_nul s : count_char NUL s = O -> c_str s = s.
Proof.
  induction s as [|c s IH]; simpl; [reflexivity|].
  destruct (Ascii.eqb c NUL); [discriminate|]. intros H. now rewrite IH.
Qed.

Lemma c_str_prefix s :
  exists rest,
    s = c_str s +:+ rest
    /\ count_char NUL (c_str s) = O
    /\ (rest = EmptyString \/ exists rest', rest = String NUL rest').
Proof.
  induction s as [|c s (rest & IH & Hc & Hr)]; simpl.
  - exists EmptyString. repeat split. now left.
  - destruct (Ascii.eqb_spec c NUL) as [->|Hne].
    + exists (String NUL s). repeat split. right. now exists s.
    + exists rest. simpl. destruct (Ascii.eqb_spec c NUL); [contradiction|].
      split; [now rewrite <- IH | split; [exact Hc | exact Hr]].
Qed.

Lemma str_length_pos s : s <> EmptyString -> forall n, (0 < n)%nat ->
  (str_length (str_take n s) <=? 0) = false.
Proof.
  intros Hs n Hn. destruct s as [|c s]; [contradiction|].
  destruct n as [|n]; [lia|]. unfold str_length. simpl String.length.
  apply Z.leb_gt. lia.
Qed.

Lemma length_buffer_set buf : forall i c,
  String.length (buffer_set buf i c) = String.length buf.
Proof.
  induction buf as [|b buf IH]; intros [|i] c; simpl; try reflexivity.
  now rewrite IH.
Qed.

Lemma length_str_drop n : forall s,
  String.length (str_drop n s) = (String.length s - n)%nat.
Proof.
  induction n as [|n IH]; intros [|c s]; simpl; try reflexivity.
  apply IH.
Qed.

Lemma length_buffer_write buf data :
  (String.length data <= String.length buf)%nat ->
  String.length (buffer_write buf 0 data) = String.length buf.
Proof.
  intros H. unfold buffer_write.
  rewrite !length_app, length_str_take, length_str_drop. lia.
Qed.

Lemma str_map_app f s t : str_map f (s +:+ t) = str_map f s +:+ str_map f t.
Proof. induction s as [|c s IH]; simpl; [reflexivity | now rewrite IH]. Qed.

Lemma length_str_map f s : String.length (str_map f s) = String.length s.
Proof. induction s as [|c s IH]; simpl; [reflexivity | now rewrite IH]. Qed.

Lemma str_forall_app P s t :
  str_forall P (s +:+ t) <-> str_forall P s /\ str_forall P t.
Proof. induction s as [|c s IH]; simpl; tauto. Qed.

End Strings.

(** ** Hexadecimal rendering *)

Section Hex.

Lemma code_range c : 0 <= code c < 256.
Proof. unfold code. pose proof (N_ascii_bounded c). lia. Qed.

Lemma hex_digits_length n : forall z k,
  0 <= z < 16 ^ Z.of_nat k -> (1 <= k)%nat ->
  (String.length (hex_digits n z) <= k)%nat.
Proof.
  induction n as [|n IH]; intros z k Hz Hk; simpl; [lia|].
  destruct (Z.ltb_spec z 16) as [Hlt|Hge]; simpl; [lia|].
  rewrite length_app. simpl.
  destruct k as [|[|k]]; [lia | simpl in Hz; lia |].
  assert (String.length (hex_digits n (z / 16)) <= S k)%nat; [|lia].
  apply IH; [|lia].
  split; [apply Z.div_pos; lia|].
  apply Z.div_lt_upper_bound; [lia|].
  replace (Z.of_nat (S (S k))) with (Z.succ (Z.of_nat (S k))) in Hz by lia.
  rewrite Z.pow_succ_r in Hz by lia. lia.
Qed.

Lemma length_setw_fill w c s :
  (String.length s <= w)%nat -> String.length (setw_fill w c s) = w.
Proof.
  intros H. unfold setw_fill. rewrite length_app, length_str_repeat. lia.
Qed.

Lemma upper_hex_digit d : 0 <= d < 16 -> is_upper_hex (toupper (hex_digit d)).
Proof.
  intros H.
  assert (Hd : In d [0; 1; 2; 3; 4; 5; 6; 7; 8; 9; 10; 11; 12; 13; 14; 15])
    by (simpl; lia).
  unfold is_upper_hex.
  repeat (destruct Hd as [<-|Hd]; [vm_compute; intuition discriminate|]).
  destruct Hd.
Qed.

Lemma upper_hex_digits n : forall z,
  0 <= z -> str_forall is_upper_hex (str_map toupper (hex_digits n z)).
Proof.
  induction n as [|n IH]; intros z Hz; simpl; [exact I|].
  destruct (Z.ltb_spec z 16) as [Hlt|Hge]; simpl.
  - split; [apply upper_hex_digit; lia | exact I].
  - rewrite str_map_app. apply str_forall_app. split.
    + apply IH. apply Z.div_pos; lia.
    + simpl. split; [|exact I]. apply upper_hex_digit.
      apply Z.mod_pos_bound. lia.
Qed.

Lemma upper_hex_fill w s :
  str_forall is_upper_hex (str_map toupper s) ->
  str_forall is_upper_hex (str_map toupper (setw_fill w "0" s)).
Proof.
  intros H. unfold setw_fill. rewrite str_map_app. apply str_forall_app.
  split; [|exact H].
  induction (w - String.length s)%nat as [|k IH]; simpl; [exact I|].
  split; [|exact IH]. vm_compute. left. split; discriminate.
Qed.

(** [generateSalt] always yields sixteen upper-case hexadecimal digits. *)
Lemma salt_format w :
  String.length (next_salt w) = 16%nat /\ str_forall is_upper_hex (next_salt w).
Proof.
  unfold next_salt, hex_u64.
  pose proof (Z.mod_pos_bound (hd 0 (entropy w)) (2 ^ 64) ltac:(lia)) as Hv.
  split.
  - rewrite length_str_map. apply length_setw_fill.
    apply hex_digits_length; [|lia]. exact Hv.
  - apply upper_hex_fill, upper_hex_digits. lia.
Qed.

(** A digest of [n] bytes is rendered as [2 * n] upper-case hexadecimal
    digits. *)
Lemma digest_format digest :
  String.length (str_map toupper (hex_bytes digest)) = (2 * String.length digest)%nat
  /\ str_forall is_upper_hex (str_map toupper (hex_bytes digest)).
Proof.
  induction digest as [|c digest [IHl IHu]]; simpl; [split; [reflexivity | exact I]|].
  pose proof (code_range c) as Hc.
  rewrite str_map_app, length_app. split.
  - rewrite IHl, length_str_map. unfold hex_byte.
    rewrite length_setw_fill; [lia|].
    apply hex_digits_length; [|lia]. exact Hc.
  - apply str_forall_app. split; [|exact IHu].
    apply upper_hex_fill, upper_hex_digits. lia.
Qed.

End Hex.

(** ** The model on the inputs of test.cpp and of the Makefile *)

Section KnownAnswers.

(** The two digests quoted in test.cpp (SHA224HashKnownValue1 and
    SHA224HashEmptyString). *)
Example sha224Hash_test :
  sha224Hash SHA224.evp "test"
  = "90A3ED9E32B2AAF4C61C410EB925426119E1A9DC53D4286ADE99A809".
Proof. vm_compute. reflexivity. Qed.

Example sha224Hash_empty :
  sha224Hash SHA224.evp ""
  = "D14A028C2A3A2BC9476102BB288234C415A2B01F828EA62AC5B3E42F".
Proof. vm_compute. reflexivity. Qed.

(** CalculationTest: single element, zero, both overflow cases. *)
Example calculateSumOfSquares_tests :
  calculateSumOfSquares [42] = 1764
  /\ calculateSumOfSquares [0; 5; 10] = 125
  /\ calculateSumOfSquares [-200; -200] = 32767
  /\ calculateSumOfSquares [1000; 1000] = 32767.
Proof. repeat split; reflexivity. Qed.

(** LoadDatabaseWithInvalidFormat: of the five lines of invalid_format.txt
    only user2 and user5 are loaded. *)
Example load_invalid_format :
  let content := "user1pass1
user2:pass2
:pass3
user4:
user5:pass5
" in
  let w := mkWorld (mkServer 33333 "invalid_format.txt" "/log/scale.log" ∅)
                   {[ "invalid_format.txt" := content ]} (fun _ => true)
                   [] "" [] [] 3 0 0 0 [] in
  getlines content = ["user1pass1"; "user2:pass2"; ":pass3"; "user4:"; "user5:pass5"]
  /\ map_to_list (users (server (after (loadUserDatabase w))))
     ≡ₚ [("user2", "pass2"); ("user5", "pass5")].
Proof.
  split; [reflexivity|].
  assert (H : users (server (after (loadUserDatabase
                (mkWorld (mkServer 33333 "invalid_format.txt" "/log/scale.log" ∅)
                   {[ "invalid_format.txt" := "user1pass1
user2:pass2
:pass3
user4:
user5:pass5
" ]} (fun _ => true) [] "" [] [] 3 0 0 0 []))))
              = <["user5" := "pass5"]> (<["user2" := "pass2"]> ∅)).
  { reflexivity. }
  cbv zeta. rewrite H.
  rewrite map_to_list_insert by reflexivity.
  rewrite map_to_list_insert by reflexivity.
  rewrite map_to_list_empty. apply Permutation_swap.
Qed.

(** End to end: one vector [1, 2, 3, 4] after a good handshake is answered
    with 30. *)
Example one_vector_session :
  let w := sample_world
             [Data "user";
              Data "cb79139e536dc94b1f38a085176828f96915947d9f9bbefe663dd83b";
              Data (bytes [1; 0; 0; 0]);
              Data (bytes [4; 0; 0; 0; 1; 0; 2; 0]);
              Data (bytes [3; 0; 4; 0])] in
  List.filter
    (fun e => match e with EvSend _ _ _ | EvRecv _ _ _ _ => true | _ => false end)
    (trace (handleClient SHA224.evp w))
  = [EvRecv AtLogin 255 4 "user";
     EvSend AtSalt "0123456789ABCDEF" 16;
     EvRecv AtResponse 255 56 "cb79139e536dc94b1f38a085176828f96915947d9f9bbefe663dd83b";
     EvSend AtOk "OK" 2;
     EvRecv AtCount 4 4 (bytes [1; 0; 0; 0]);
     EvRecv (AtSize 0) 4 4 (bytes [4; 0; 0; 0]);
     EvRecv (AtData 0) 8 4 (bytes [1; 0; 2; 0]);
     EvRecv (AtData 0) 4 4 (bytes [3; 0; 4; 0]);
     EvSend (AtResult 0) (bytes [30; 0]) 2].
Proof. vm_compute. reflexivity. Qed.

End KnownAnswers.

Section Loader.

Lemma parse_line_no_colon line :
  count_char colon line = O -> parse_line line = None.
Proof.
  intros H. unfold parse_line, find. rewrite (find_from_none _ _ _ H).
  rewrite Z.eqb_refl. reflexivity.
Qed.

Lemma parse_line_split l p :
  count_char colon l = O ->
  str_length (l +:+ String colon p) < 2 ^ 64 ->
  parse_line (l +:+ String colon p)
  = if negb (empty l) && negb (empty p) then Some (l, p) else None.
Proof.
  intros Hl Hlen. unfold parse_line, find.
  rewrite (find_from_found _ _ _ _ Hl), Z.add_0_l.
  unfold str_length in *. rewrite length_app in *. simpl String.length in *.
  unfold size_t_wrap, npos, substr, substr_from.
  rewrite !Z.mod_small by lia.
  rewrite Nat2Z.id, Z2Nat.inj_add, Nat2Z.id by lia.
  change (Z.to_nat 0) with O. change (Z.to_nat 1) with 1%nat.
  simpl (str_drop 0 _).
  rewrite str_take_app.
  replace (String.length l + 1)%nat with (String.length (l +:+ String colon EmptyString))
    by (rewrite length_app; reflexivity).
  replace (l +:+ String colon p) with ((l +:+ String colon EmptyString) +:+ p)
    by (now rewrite str_app_assoc).
  rewrite str_drop_app.
  destruct l as [|a l], p as [|b p]; cbn [String.length empty negb andb] in *.
  all: repeat match goal with
         | |- context [?a =? ?b] => destruct (Z.eqb_spec a b); try lia
         | |- context [?a <? ?b] => destruct (Z.ltb_spec a b); try lia
         end.
  all: reflexivity.
Qed.

(** C3, as the code has it: a line is recorded exactly when its FIRST
    separator has something before it and something after it; what is
    recorded is the text before that separator, mapped to everything
    after it (further separators included).  Any other line leaves the
    mapping as it was. *)
Theorem line_recorded_iff (line login password : string) :
  str_length line < 2 ^ 64 ->
  (parse_line line = Some (login, password)
   <-> line = login +:+ String colon password
       /\ count_char colon login = O
       /\ login <> EmptyString /\ password <> EmptyString)
  /\ (forall us : gmap string string,
        (parse_line line = Some (login, password) ->
         load_line us line = <[login := password]> us)
        /\ (parse_line line = None -> load_line us line = us)).
Proof.
  intros Hlen. split.
  - split.
    + intros Hp. destruct (split_first colon line) as [H0|(l & p & -> & H0)].
      * rewrite (parse_line_no_colon _ H0) in Hp. discriminate.
      * rewrite (parse_line_split l p H0 Hlen) in Hp.
        destruct l as [|a l], p as [|b p]; simpl in Hp; try discriminate.
        injection Hp as <- <-. repeat split; try discriminate. exact H0.
    + intros (-> & H0 & Hl & Hp).
      rewrite (parse_line_split login password H0 Hlen).
      destruct login, password; simpl; congruence.
  - intros us. unfold load_line. split; intros ->; reflexivity.
Qed.

Lemma line_recorded_iff_witness :
  str_length "user2:pass2" < 2 ^ 64
  /\ parse_line "user2:pass2" = Some ("user2", "pass2").
Proof.
  assert (H : str_length "user2:pass2" < 2 ^ 64) by (vm_compute; reflexivity).
  split; [exact H|].
  apply (proj1 (line_recorded_iff "user2:pass2" "user2" "pass2" H)).
  repeat split; try discriminate.
Defined.

(** C3, as the design document states it, fails: a line with two
    separators is recorded. *)
Lemma two_separators_recorded :
  parse_line "a:b:c" = Some ("a", "b:c")
  /\ load_line ∅ "a:b:c" !! "a" = Some "b:c"
  /\ ~ (is_Some (parse_line "a:b:c") <-> one_separator_line "a:b:c").
Proof.
  split; [reflexivity|]. split; [reflexivity|].
  intros [H _]. destruct H as [Hc _]; [eexists; reflexivity|].
  vm_compute in Hc. discriminate.
Qed.

End Loader.

(** ** The handshake gates the vector phase *)

Section Gate.

Variable evp : string -> option string.

Lemma logError_run msg crit w :
  after (logError msg crit w) = w /\ result (logError msg crit w) = tt.
Proof. unfold logError. destruct (appendable w _); split; reflexivity. Qed.

Lemma authenticate_quiet : emits (fun e => ~ vector_phase e) (authenticate evp).
Proof. unfold authenticate, challenge. repeat emits_step quiet. Qed.

(** C9. Whatever the peer does, [handleClient] first runs [authenticate],
    and nothing of the vector phase happens before it has returned; when
    it returns [false] the connection is closed, nothing of the vector
    phase happens at all, and the socket's input is left where the
    handshake left it. *)
Theorem vectors_only_after_handshake (w : World) :
  let auth := authenticate evp w in
  let before := EvCout "New client connection"
                :: trace (logError "New client connection established" false w) in
  (exists rest,
      trace (handleClient evp w) = before ++ trace auth ++ rest
      /\ Forall (fun e => ~ vector_phase e) (before ++ trace auth))
  /\ (result auth = false ->
      trace (handleClient evp w)
      = before ++ trace auth
        ++ trace (logError "Authentication failed, closing connection" false (after auth))
        ++ [EvClose]
      /\ Forall (fun e => ~ vector_phase e) (trace (handleClient evp w))
      /\ inbox (after (handleClient evp w)) = inbox (after auth)).
Proof.
  intros auth before.
  assert (Hw : after (logError "New client connection established" false w) = w)
    by apply logError_run.
  assert (Hq : Forall (fun e => ~ vector_phase e) (before ++ trace auth)).
  { apply Forall_app. split; [|apply authenticate_quiet].
    constructor; [quiet|].
    apply (emits_logError (fun e => ~ vector_phase e)). intros; quiet. }
  assert (Ht : trace (handleClient evp w)
               = before ++ trace auth
                 ++ trace ((if negb (result auth)
                            then logError "Authentication failed, closing connection" false;;
                                 close
                            else cout "Client authenticated successfully";;
                                 logError "Client authenticated successfully" false;;
                                 processVectors;; close;;
                                 logError "Client connection closed" false) (after auth))).
  { unfold handleClient. rewrite !trace_bind. cbn [cout emit trace snd after result fst].
    rewrite Hw. fold auth. subst before. reflexivity. }
  split.
  - eexists. split; [exact Ht | exact Hq].
  - intros Hfail. rewrite Ht. rewrite Hfail. cbn [negb].
    rewrite trace_bind. cbn [close emit trace snd].
    split; [reflexivity|]. split.
    + rewrite !app_assoc. apply Forall_app. split.
      * apply Forall_app. split; [exact Hq|].
        apply (emits_logError (fun e => ~ vector_phase e)). intros; quiet.
      * repeat constructor. quiet.
    + unfold handleClient. rewrite !after_bind.
      cbn [cout emit after result snd fst]. rewrite Hw. fold auth. rewrite Hfail.
      cbn [negb]. rewrite after_bind. cbn [close emit after snd fst].
      now rewrite (proj1 (logError_run _ _ _)).
Qed.

End Gate.

Lemma vectors_only_after_handshake_witness :
  let w := sample_world [Data "mallory"; Data (bytes [1; 0; 0; 0])] in
  result (authenticate SHA224.evp w) = false
  /\ Forall (fun e => ~ vector_phase e) (trace (handleClient SHA224.evp w))
  /\ inbox (after (handleClient SHA224.evp w)) = [Data (bytes [1; 0; 0; 0])].
Proof.
  intros w.
  assert (H : result (authenticate SHA224.evp w) = false) by (vm_compute; reflexivity).
  split; [exact H|].
  destruct (proj2 (vectors_only_after_handshake SHA224.evp w) H) as (_ & Hq & Hi).
  split; [exact Hq|]. rewrite Hi. vm_compute. reflexivity.
Defined.

(** ** The handshake *)

Section Handshake.

Variable evp : string -> option string.

Lemma recv_data site buf off len w bytes rest :
  inbox w = Data bytes :: rest ->
  recv site buf off len w
  = let got := str_take (Z.to_nat len) bytes in
    let left := str_drop (Z.to_nat len) bytes in
    ((str_length got, buffer_write buf off got),
     set_inbox (if empty left then rest else Data left :: rest) w,
     [EvRecv site len (str_length got) got]).
Proof. intros H. unfold recv. rewrite H. reflexivity. Qed.

Lemma send_run site data len w :
  result (send site data len w) = next_send w len
  /\ trace (send site data len w)
     = [EvSend site (str_take (Z.to_nat len) data) (next_send w len)]
  /\ server (after (send site data len w)) = server w
  /\ appendable (after (send site data len w)) = appendable w
  /\ entropy (after (send site data len w)) = entropy w
  /\ inbox (after (send site data len w)) = inbox w.
Proof. repeat split; reflexivity. Qed.

Lemma logError_trace msg crit w :
  Forall log_event (trace (logError msg crit w)).
Proof.
  unfold logError. destruct (appendable w _); repeat constructor.
Qed.

(** What the first [recv] of the handshake leaves in [login]. *)
Lemma login_from_buffer w bytes :
  c_str (buffer_set (buffer_write (local_array w 256) 0 (str_take 255 bytes))
                    (Z.to_nat (str_length (str_take 255 bytes))) NUL)
  = received_string bytes.
Proof.
  unfold str_length. rewrite Nat2Z.id. apply c_str_buffer.
  rewrite local_array_length, length_str_take. lia.
Qed.

(** C5, as the code has it: when the login the server derives from the
    received bytes, [received_string] (at most 255 bytes, cut at the
    first NUL), is not in the credential mapping, [authenticate] answers
    with the three bytes ERR and returns [false]; no salt is drawn and
    none is sent, and the random source is left untouched. *)
Theorem unknown_login_gets_no_salt (w : World) (bytes : string) (rest : list arrival) :
  inbox w = Data bytes :: rest ->
  bytes <> EmptyString ->
  users (server w) !! received_string bytes = None ->
  result (authenticate evp w) = false
  /\ (exists logs,
        trace (authenticate evp w)
        = EvRecv AtLogin 255 (str_length (str_take 255 bytes)) (str_take 255 bytes)
          :: EvFind (received_string bytes) false
          :: EvSend AtErrLogin "ERR" (next_send w 3)
          :: logs
        /\ Forall log_event logs)
  /\ Forall (fun e => ~ salt_event e) (trace (authenticate evp w))
  /\ entropy (after (authenticate evp w)) = entropy w.
Proof.
  intros Hin Hne Hun.
  pose proof (str_length_pos bytes Hne 255 ltac:(lia)) as Hpos.
  pose proof (login_from_buffer w bytes) as Htok.
  pose proof (recv_data AtLogin (local_array w 256) 0 255 w bytes rest Hin) as Hrecv.
  change (Z.to_nat 255) with 255%nat in Hrecv. cbv zeta in Hrecv.
  unfold authenticate.
  run_with ltac:(rewrite ?Hrecv, ?Hpos, ?Htok, ?Hun).
  match goal with |- context [send _ _ _ ?x] => set (w1 := x) end.
  destruct (send_run AtErrLogin "ERR" 3 w1) as (_ & Ht & _ & _ & He & _).
  rewrite Ht. change (next_send w1 3) with (next_send w 3).
  set (logs := trace (logError _ false _)).
  assert (Hlogs : Forall log_event logs) by apply logError_trace.
  split; [reflexivity|]. split; [|split].
  - exists logs. split; [|exact Hlogs].
    cbn [app]. now rewrite app_nil_r.
  - constructor; [quiet|]. constructor; [quiet|]. constructor; [quiet|].
    apply Forall_app. split; [|constructor].
    eapply Forall_impl; [exact Hlogs|]. intros [] Hl; cbn in *; tauto.
  - change (entropy (after (logError ("Identification failed for login: "
                                      +:+ received_string bytes) false
                                     (after (send AtErrLogin "ERR" 3 w1))))
            = entropy w).
    rewrite (keeps_logError entropy), He. reflexivity.
Qed.

Ltac no_find := cbn; solve [auto | intros []].

Lemma challenge_no_find login buffer secret :
  emits (fun e => ~ find_event e) (challenge evp login buffer secret).
Proof. unfold challenge. repeat emits_step no_find. Qed.

(** Lines 150-164: what [authenticate] has done when it reaches the
    [if] on [userIt]. *)
Lemma authenticate_identify (w : World) (bytes : string) (rest : list arrival) :
  inbox w = Data bytes :: rest ->
  bytes <> EmptyString ->
  let got := str_take 255 bytes in
  let w1 := set_inbox (if empty (str_drop 255 bytes) then rest
                       else Data (str_drop 255 bytes) :: rest) w in
  let buffer := buffer_set (buffer_write (local_array w 256) 0 got)
                           (Z.to_nat (str_length got)) NUL in
  let login := received_string bytes in
  let tail : M bool :=
    match users (server w) !! login with
    | None =>
        send AtErrLogin "ERR" 3;;
        logError ("Identification failed for login: " +:+ login) false;;
        mret false
    | Some secret => challenge evp login buffer secret
    end in
  authenticate evp w
  = (result (tail w1), after (tail w1),
     EvRecv AtLogin 255 (str_length got) got
     :: EvFind login (bool_decide (is_Some (users (server w) !! login)))
     :: trace (tail w1)).
Proof.
  intros Hin Hne got w1 buffer login tail.
  pose proof (str_length_pos bytes Hne 255 ltac:(lia)) as Hpos.
  pose proof (login_from_buffer w bytes) as Htok.
  pose proof (recv_data AtLogin (local_array w 256) 0 255 w bytes rest Hin) as Hrecv.
  change (Z.to_nat 255) with 255%nat in Hrecv. cbv zeta in Hrecv.
  unfold authenticate.
  run_with ltac:(rewrite ?Hrecv, ?Hpos, ?Htok).
  reflexivity.
Qed.

Lemma send_eq site data len w :
  send site data len w
  = (next_send w len, set_outcomes (tl (outcomes w)) w,
     [EvSend site (str_take (Z.to_nat len) data) (next_send w len)]).
Proof. reflexivity. Qed.

Lemma generateSalt_eq w :
  generateSalt w
  = (next_salt w, set_entropy (tl (entropy w)) w,
     [EvRandom (hd 0 (entropy w) mod 2 ^ 64)]).
Proof. reflexivity. Qed.



(** C7, as the code has it: the login looked up in the credential store
    is the received bytes (at most 255 of them) up to, and not including,
    their first NUL; nothing else is trimmed, so control characters other
    than NUL stay, and a sequence without NUL is looked up verbatim. *)
Theorem login_is_bytes_before_first_nul (w : World) (bytes : string)
        (rest : list arrival) :
  inbox w = Data bytes :: rest ->
  bytes <> EmptyString ->
  (exists found, In (EvFind (received_string bytes) found) (trace (authenticate evp w)))
  /\ (forall key found,
        In (EvFind key found) (trace (authenticate evp w)) ->
        key = received_string bytes)
  /\ (exists cut,
        str_take 255 bytes = received_string bytes +:+ cut
        /\ count_char NUL (received_string bytes) = O
        /\ (cut = EmptyString \/ exists cut', cut = String NUL cut'))
  /\ (count_char NUL bytes = O -> (String.length bytes <= 255)%nat ->
      received_string bytes = bytes).
Proof.
  intros Hin Hne.
  rewrite (authenticate_identify w bytes rest Hin Hne). cbn [trace snd].
  split; [|split; [|split]].
  - eexists. right. left. reflexivity.
  - intros key found [H|[H|H]]; [discriminate H | now injection H |].
    exfalso.
    match type of H with In _ (trace (?m ?x)) =>
      assert (Hq : Forall (fun e => ~ find_event e) (trace (m x)))
    end.
    { destruct (users (server w) !! received_string bytes).
      - apply challenge_no_find.
      - match goal with |- Forall _ (trace (?m _)) =>
          assert (He : emits (fun e => ~ find_event e) m)
            by (repeat emits_step no_find);
          apply He
        end. }
    rewrite Forall_forall in Hq.
    apply (Hq _ (proj2 (list_elem_of_In _ _) H)). exact I.
  - apply c_str_prefix.
  - intros Hn Hl. unfold received_string.
    rewrite str_take_all by exact Hl. apply c_str_no_nul, Hn.
Qed.

End Handshake.

Lemma unknown_login_gets_no_salt_witness :
  let w := sample_world [Data "mallory"] in
  users (server w) !! received_string "mallory" = None
  /\ result (authenticate SHA224.evp w) = false
  /\ Forall (fun e => ~ salt_event e) (trace (authenticate SHA224.evp w)).
Proof.
  intros w.
  assert (Hun : users (server w) !! received_string "mallory" = None)
    by (vm_compute; reflexivity).
  assert (Hne : "mallory" <> EmptyString) by discriminate.
  split; [exact Hun|].
  destruct (unknown_login_gets_no_salt SHA224.evp w "mallory" [] eq_refl Hne Hun)
    as (Hr & _ & Hs & _).
  split; [exact Hr | exact Hs].
Defined.


Lemma login_is_bytes_before_first_nul_witness :
  let bytes := "user" +:+ String LF EmptyString in
  let w := sample_world [Data bytes] in
  received_string bytes = bytes
  /\ exists found, In (EvFind bytes found) (trace (authenticate SHA224.evp w)).
Proof.
  intros bytes w.
  assert (Hne : bytes <> EmptyString) by discriminate.
  destruct (login_is_bytes_before_first_nul SHA224.evp w bytes [] eq_refl Hne)
    as ((found & Hf) & _ & _ & Hv).
  assert (Heq : received_string bytes = bytes).
  { apply Hv; [reflexivity | simpl; lia]. }
  split; [exact Heq|]. exists found. rewrite <- Heq at 1. exact Hf.
Defined.

(** C5, as the design document states it, fails: a peer that sends
    "bob", a NUL and "!" has sent a token that is no key of the mapping,
    and yet it is looked up as "bob", a salt is drawn and sent to it, and
    it gets no ERR for its login. *)
Lemma unknown_token_is_sent_a_salt :
  let bytes := "bob" +:+ String NUL "!" in
  let w := sample_world [Data bytes] in
  users (server w) !! bytes = None
  /\ In (EvRandom 0x0123456789abcdef) (trace (authenticate SHA224.evp w))
  /\ In (EvSend AtSalt "0123456789ABCDEF" 16) (trace (authenticate SHA224.evp w))
  /\ ~ In (EvSend AtErrLogin "ERR" 3) (trace (authenticate SHA224.evp w))
  /\ ~ Forall (fun e => ~ salt_event e) (trace (authenticate SHA224.evp w)).
Proof.
  intros bytes w.
  assert (Hsalt : In (EvSend AtSalt "0123456789ABCDEF" 16)
                     (trace (authenticate SHA224.evp w))) by (vm_compute; tauto).
  split; [vm_compute; reflexivity|].
  split; [vm_compute; tauto|]. split; [exact Hsalt|]. split.
  - vm_compute. intros H. repeat (destruct H as [H|H]; [discriminate H|]). exact H.
  - intros Hall. exact (proj1 (List.Forall_forall _ _) Hall _ Hsalt I).
Qed.


(** C7, as the design document states it, fails: the bytes after an
    embedded NUL are dropped.  A peer that sends "user", a NUL and "x" is
    looked up as "user", found, and sent a salt. *)
Lemma nul_cuts_the_login :
  let bytes := "user" +:+ String NUL "x" in
  let w := sample_world [Data bytes] in
  (exists rest,
      trace (authenticate SHA224.evp w)
      = EvRecv AtLogin 255 6 bytes :: EvFind "user" true
        :: EvRandom 0x0123456789abcdef :: EvSend AtSalt "0123456789ABCDEF" 16 :: rest)
  /\ "user" <> bytes
  /\ users (server w) !! bytes = None.
Proof.
  intros bytes w. split; [|split].
  - eexists. vm_compute. reflexivity.
  - discriminate.
  - vm_compute. reflexivity.
Qed.

(** ** The vector exchange *)

Section Vectors.

Ltac indexed := cbn; solve [ intros ? [=]; auto | intros ? ?; discriminate | reflexivity ].

(** Walks through a program applied to a world, splitting on every test. *)
Ltac walk :=
  repeat (first
    [ rewrite run_bind
    | match goal with
      | |- context [(if ?c then _ else _) _] => destruct c eqn:?
      | |- context [(match ?x with _ => _ end) _] => destruct x eqn:?
      end ];
    cbn [result after trace fst snd get_world emit cout app]).

Ltac find_event_in :=
  repeat first [ apply in_eq | apply in_cons | apply in_or_app; right ].

Ltac all_unindexed :=
  repeat match goal with
    | |- Forall _ [] => constructor
    | |- Forall _ (_ :: _) => constructor; [reflexivity|]
    | |- Forall _ (_ ++ _) => apply Forall_app; split
    | |- Forall _ (trace (recv _ _ _ _ _)) => apply (emits_recv unindexed); reflexivity
    | |- Forall _ (trace (logError _ _ _)) => apply (emits_logError unindexed); reflexivity
    | |- Forall _ (trace (mret _ _)) => constructor
    end.

Lemma read_vector_at fuel : forall j buf n total,
  emits (at_index j) (read_vector fuel j buf n total).
Proof.
  induction fuel as [|fuel IH]; intros j buf n total; simpl;
    repeat emits_step indexed.
Qed.
#[local] Hint Resolve read_vector_at : steps.

Lemma process_vector_at j : emits (at_index j) (process_vector j).
Proof. unfold process_vector. repeat emits_step indexed. Qed.

(** The model's bound on the inner loop is never what stops it. *)
Lemma read_vector_fuel fuel : forall j buf n total w,
  (Z.to_nat (total - n) <= fuel)%nat ->
  result (read_vector fuel j buf n total w) <> ReadFuel.
Proof.
  induction fuel as [|fuel IH]; intros j buf n total w Hfuel; cbn [read_vector].
  - destruct (Z.ltb_spec n total); [lia | discriminate].
  - destruct (Z.ltb_spec n total) as [Hlt|]; [|discriminate].
    rewrite result_bind.
    destruct (Z.leb_spec (result (recv (AtData j) buf (Z.to_nat n) (total - n) w)).1 0).
    + rewrite !result_bind. discriminate.
    + apply IH. lia.
Qed.

(** When the loop body asks for another round, the result has gone out. *)
Lemma process_vector_sent j w :
  result (process_vector j w) = true ->
  exists data,
    In (EvSend (AtResult j) data 2) (trace (process_vector j w))
    /\ String.length data = 2%nat.
Proof.
  unfold process_vector. walk.
  all: try (cbn; discriminate).
  all: intros _; rewrite send_eq in *; cbn [result after trace fst snd] in *.
  all: match goal with
       | H : negb (Z.eqb ?r 2) = false |- _ =>
           apply negb_false_iff, Z.eqb_eq in H;
           match goal with
           | |- context [EvSend (AtResult _) ?d ?q] =>
               let Hq := fresh in assert (Hq : q = 2) by exact H; rewrite Hq
           end
       end.
  all: eexists; split; [find_event_in | reflexivity].
Qed.

Lemma split_app {A} (t1 : list A) : forall t2 pre e post,
  t1 ++ t2 = pre ++ e :: post ->
  (exists k, t1 = pre ++ e :: k) \/ (exists k, pre = t1 ++ k /\ t2 = k ++ e :: post).
Proof.
  induction t1 as [|a t1 IH]; intros t2 pre e post H.
  - right. exists pre. split; [reflexivity | exact H].
  - destruct pre as [|b pre]; simpl in H; injection H as <- H.
    + left. exists t1. reflexivity.
    + destruct (IH _ _ _ _ H) as [(k & ->)|(k & -> & ->)].
      * left. exists k. reflexivity.
      * right. exists k. split; reflexivity.
Qed.

Lemma vector_loop_ordered todo : forall j w,
  ordered_from j (trace (vector_loop todo j w)).
Proof.
  induction todo as [|todo IH]; intros j w pre e post k Ht He.
  - destruct pre; discriminate Ht.
  - cbn [vector_loop] in Ht. rewrite trace_bind in Ht.
    destruct (split_app _ _ _ _ _ Ht) as [(rest & Hin)|(pre' & -> & Hloop)].
    + pose proof (process_vector_at j w) as Hat. rewrite Hin in Hat.
      apply Forall_app in Hat as [_ Hat]. inversion Hat as [|? ? Hk _]; subst.
      rewrite (Hk k He). split; lia.
    + destruct (result (process_vector j w)) eqn:Hgo.
      * destruct (IH _ _ _ _ _ _ Hloop He) as [Hle Hsent].
        split; [lia|]. intros _.
        destruct (Z.eq_dec k (j + 1)) as [->|Hne].
        -- destruct (process_vector_sent j w Hgo) as (data & Hd & Hl).
           exists data. split; [|exact Hl].
           replace (j + 1 - 1) with j by lia. apply in_or_app. now left.
        -- destruct Hsent as (data & Hd & Hl); [lia|].
           exists data. split; [|exact Hl]. apply in_or_app. now right.
      * destruct pre'; discriminate Hloop.
Qed.

Lemma ordered_after_unindexed j (before t : list event) :
  Forall unindexed before -> ordered_from j t -> ordered_from j (before ++ t).
Proof.
  intros Hq Ht pre e post k Hsplit He.
  destruct (split_app _ _ _ _ _ Hsplit) as [(rest & Hin)|(pre' & -> & Hloop)].
  - rewrite Hin in Hq. apply Forall_app in Hq as [_ Hq].
    inversion Hq as [|? ? Hk _]; subst. unfold unindexed in Hk. congruence.
  - destruct (Ht _ _ _ _ Hloop He) as [Hle Hsent]. split; [exact Hle|].
    intros Hlt. destruct (Hsent Hlt) as (data & Hd & Hl).
    exists data. split; [|exact Hl]. apply in_or_app. now right.
Qed.

Lemma ordered_before_unindexed j (t behind : list event) :
  Forall unindexed behind -> ordered_from j t -> ordered_from j (t ++ behind).
Proof.
  intros Hq Ht pre e post k Hsplit He.
  destruct (split_app _ _ _ _ _ Hsplit) as [(rest & Hin)|(pre' & -> & Hloop)].
  - exact (Ht _ _ _ _ Hin He).
  - rewrite Hloop in Hq. apply Forall_app in Hq as [_ Hq].
    inversion Hq as [|? ? Hk _]; subst. unfold unindexed in Hk. congruence.
Qed.

Lemma ordered_unindexed j (t : list event) : Forall unindexed t -> ordered_from j t.
Proof.
  intros Hq pre e post k -> He.
  apply Forall_app in Hq as [_ Hq].
  inversion Hq as [|? ? Hk _]; subst. unfold unindexed in Hk. congruence.
Qed.

Lemma processVectors_ordered w : ordered_from 0 (trace (processVectors w)).
Proof.
  unfold processVectors. walk.
  - apply ordered_unindexed. all_unindexed.
  - apply (ordered_after_unindexed 0 [_]); [all_unindexed|].
    apply ordered_after_unindexed; [all_unindexed|].
    apply (ordered_after_unindexed 0 [_; _]); [all_unindexed|].
    apply ordered_before_unindexed; [all_unindexed | apply vector_loop_ordered].
  - apply (ordered_after_unindexed 0 [_]); [all_unindexed|].
    apply ordered_after_unindexed; [all_unindexed|].
    apply (ordered_after_unindexed 0 [_; _]); [all_unindexed|].
    apply ordered_before_unindexed; [all_unindexed | apply vector_loop_ordered].
Qed.

(** C8. In every run of [processVectors], whatever the peer sends and
    however it is cut into segments, any socket call for vector [i + 1]
    (the read of its size field first of all) comes after the two-byte
    result of vector [i] has been written to the socket in full. *)
Theorem result_sent_before_next_vector (w : World) (i : Z)
        (pre post : list event) (e : event) :
  trace (processVectors w) = pre ++ e :: post ->
  event_index e = Some (i + 1) ->
  0 <= i ->
  exists data,
    In (EvSend (AtResult i) data 2) pre /\ String.length data = 2%nat.
Proof.
  intros Ht He Hi.
  destruct (processVectors_ordered w pre e post (i + 1) Ht He) as [_ Hsent].
  destruct Hsent as (data & Hd & Hl); [lia|].
  replace (i + 1 - 1) with i in Hd by lia.
  exists data. split; assumption.
Qed.

End Vectors.

Lemma result_sent_before_next_vector_witness :
  let w := sample_world [Data (bytes [2; 0; 0; 0]);
                         Data (bytes [2; 0; 0; 0; 200; 0; 200; 0]);
                         Data (bytes [1; 0; 0; 0; 3; 0])] in
  let t := trace (processVectors w) in
  t = firstn 16 t ++ EvRecv (AtSize 1) 4 4 (bytes [1; 0; 0; 0]) :: skipn 17 t
  /\ exists data, In (EvSend (AtResult 0) data 2) (firstn 16 t).
Proof.
  intros w t.
  assert (Hsplit : t = firstn 16 t ++ EvRecv (AtSize 1) 4 4 (bytes [1; 0; 0; 0])
                         :: skipn 17 t) by (vm_compute; reflexivity).
  split; [exact Hsplit|].
  destruct (result_sent_before_next_vector w 0 _ _ _ Hsplit eq_refl ltac:(lia))
    as (data & Hd & _).
  exists data. exact Hd.
Defined.

(** ** Start-up with an unreadable user database *)

Section Startup.

Variable evp : string -> option string.

Lemma keeps_authenticate : keeps known (authenticate evp).
Proof. unfold authenticate, challenge. repeat keeps_step. Qed.

Lemma keeps_read_vector fuel : forall i buf n total,
  keeps known (read_vector fuel i buf n total).
Proof.
  induction fuel as [|fuel IH]; intros i buf n total; simpl; repeat keeps_step.
Qed.
#[local] Hint Resolve keeps_read_vector : steps.

Lemma keeps_process_vector i : keeps known (process_vector i).
Proof. unfold process_vector. repeat keeps_step. Qed.
#[local] Hint Resolve keeps_process_vector : steps.

Lemma keeps_vector_loop todo : forall i, keeps known (vector_loop todo i).
Proof. induction todo as [|todo IH]; intros i; simpl; repeat keeps_step. Qed.
#[local] Hint Resolve keeps_vector_loop : steps.

Lemma keeps_processVectors : keeps known processVectors.
Proof. unfold processVectors. repeat keeps_step. Qed.
#[local] Hint Resolve keeps_authenticate keeps_processVectors : steps.

Lemma keeps_handleClient : keeps known (handleClient evp).
Proof. unfold handleClient. repeat keeps_step. Qed.

(** The accept loop never returns, and serving clients never touches the
    user table. *)
Lemma accept_loop_spec pending : forall w,
  result (accept_loop evp pending w) = Accepting
  /\ known (after (accept_loop evp pending w)) = known w.
Proof.
  induction pending as [|[client|] later IH]; intros w.
  - split; reflexivity.
  - cbn [accept_loop]. rewrite !result_bind, !after_bind.
    split; [apply IH|]. rewrite (proj2 (IH _)).
    rewrite keeps_handleClient. reflexivity.
  - cbn [accept_loop]. rewrite !result_bind, !after_bind.
    split; [apply IH|]. rewrite (proj2 (IH _)).
    rewrite keeps_logError. reflexivity.
Qed.

(** C4, as the code has it: when the credential file cannot be opened,
    [loadUserDatabase] leaves the (empty) user table empty and reports
    the condition to the log with the criticality flag SET (the line is
    tagged CRITICAL); the condition is not fatal all the same: with a
    writable log and a listening socket, [start] goes on to its accept
    loop with zero known users. *)
Theorem unreadable_database_not_fatal (w : World) :
  files w !! userDbPath (server w) = None ->
  users (server w) = ∅ ->
  let line := EvLog (logPath (server w)) "CRITICAL"
                    ("Cannot open user database file: " +:+ userDbPath (server w)) in
  users (server (after (loadUserDatabase w))) = ∅
  /\ trace (loadUserDatabase w)
     = (if appendable w (logPath (server w)) then [line] else [])
  /\ (appendable w (logPath (server w)) = true ->
      0 <= socket_ret w -> 0 <= setsockopt_ret w ->
      0 <= bind_ret w -> 0 <= listen_ret w ->
      result (start evp w) = Accepting
      /\ users (server (after (start evp w))) = ∅
      /\ In line (trace (start evp w))).
Proof.
  intros Hfile Hempty line.
  assert (Hload : loadUserDatabase w
                  = logError ("Cannot open user database file: " +:+ userDbPath (server w))
                             true w).
  { unfold loadUserDatabase. rewrite Hfile. reflexivity. }
  split; [|split].
  - rewrite Hload. exact (eq_trans (keeps_logError known _ _ w) Hempty).
  - rewrite Hload. unfold logError. destruct (appendable w _); reflexivity.
  - intros Hlog Hs Ho Hb Hl.
    assert (Hcheck : check_log w = (true, w, [])).
    { unfold check_log. rewrite run_bind. cbn [get_world result after trace fst snd].
      rewrite Hlog. reflexivity. }
    apply Z.ltb_ge in Hs, Ho, Hb, Hl.
    assert (Hle : forall msg crit, logError msg crit w
                  = (tt, w, [EvLog (logPath (server w))
                                   (if crit then "CRITICAL" else "NON-CRITICAL") msg])).
    { intros. unfold logError. rewrite Hlog. reflexivity. }
    unfold start.
    run_with ltac:(rewrite ?Hcheck, ?Hload, ?Hle, ?Hs, ?Ho, ?Hb, ?Hl).
    destruct (accept_loop_spec (accepts w) w) as [Hr Hk].
    split; [exact Hr|]. split; [exact (eq_trans Hk Hempty)|].
    right. left. reflexivity.
Qed.

End Startup.

Lemma unreadable_database_not_fatal_witness :
  files fresh_world !! userDbPath (server fresh_world) = None
  /\ users (server fresh_world) = ∅
  /\ result (start SHA224.evp fresh_world) = Accepting
  /\ users (server (after (start SHA224.evp fresh_world))) = ∅.
Proof.
  assert (Hf : files fresh_world !! userDbPath (server fresh_world) = None)
    by reflexivity.
  assert (Hu : users (server fresh_world) = ∅) by reflexivity.
  split; [exact Hf|]. split; [exact Hu|].
  destruct (unreadable_database_not_fatal SHA224.evp fresh_world Hf Hu)
    as (_ & _ & Hstart).
  destruct Hstart as (Hr & Hk & _); [reflexivity | cbn; lia ..|].
  split; [exact Hr | exact Hk].
Defined.

(** C4, as the design document states it, fails: the condition is not
    flagged as non-critical; the one line written says CRITICAL. *)
Lemma unreadable_database_flagged_critical :
  trace (loadUserDatabase fresh_world)
  = [EvLog "/log/scale.log" "CRITICAL" "Cannot open user database file: /scale.conf"]
  /\ ~ (exists path message,
          In (EvLog path "NON-CRITICAL" message) (trace (loadUserDatabase fresh_world))).
Proof.
  split; [reflexivity|].
  intros (path & message & [H|[]]). discriminate H.
Qed.

Section SumOfSquares.

Lemma wrap64_small z : - 2 ^ 63 <= z < 2 ^ 63 -> wrap64 z = z.
Proof.
  intros Hz. unfold wrap64.
  rewrite Z.mod_small by lia. lia.
Qed.

Lemma to_int16_small z : int16 z -> to_int16 z = z.
Proof.
  unfold int16, INT16_MIN, INT16_MAX, to_int16. intros Hz.
  rewrite Z.mod_small by lia. lia.
Qed.

Lemma int16_square x : int16 x -> 0 <= x * x <= 1073741824.
Proof. unfold int16, INT16_MIN, INT16_MAX. nia. Qed.

Lemma square_exact x : int16 x -> wrap64 (wrap64 x * wrap64 x) = x * x.
Proof.
  intros Hx. pose proof (int16_square x Hx) as Hsq.
  rewrite (wrap64_small x) by (unfold int16, INT16_MIN, INT16_MAX in Hx; lia).
  apply wrap64_small. lia.
Qed.

Lemma sum_of_squares_nonneg v : 0 <= sum_of_squares v.
Proof. induction v as [|x v IH]; simpl; nia. Qed.

(** The loop invariant: entered with [0 <= sum <= 32767], the loop
    returns the clamped total, never leaves through line 231, and the
    recorded running sums climb from [sum]. *)
Lemma sum_loop_spec v : forall sum,
  Forall int16 v -> 0 <= sum <= 32767 ->
  sq_ret (sum_loop sum v) = clamp16 (sum + sum_of_squares v)
  /\ sq_site (sum_loop sum v) <> RetLower
  /\ Sorted Z.le (sum :: sq_sums (sum_loop sum v)).
Proof.
  induction v as [|x v IH]; intros sum Hv Hs.
  - simpl. split; [|split; [discriminate | repeat constructor]].
    rewrite Z.add_0_r, to_int16_small; unfold clamp16, int16, INT16_MIN, INT16_MAX; lia.
  - inversion Hv as [|? ? Hx Hv']; subst.
    pose proof (int16_square x Hx) as Hsq.
    pose proof (sum_of_squares_nonneg v) as Hnn.
    cbn [sum_loop sum_of_squares fold_right].
    fold (sum_of_squares v).
    rewrite (square_exact x Hx).
    rewrite (wrap64_small (sum + x * x)) by lia.
    destruct (Z.ltb_spec 32767 (sum + x * x)) as [Hhi|Hhi]; cbn.
    + split; [|split; [discriminate|]].
      * unfold clamp16, INT16_MIN, INT16_MAX. lia.
      * repeat constructor. lia.
    + destruct (Z.ltb_spec (sum + x * x) (-32768)) as [Hlo|Hlo]; [lia|].
      destruct (IH (sum + x * x) Hv' ltac:(lia)) as (Hr & Hsite & Hsorted).
      cbn. split; [|split; [exact Hsite|]].
      * rewrite Hr. f_equal. lia.
      * constructor; [exact Hsorted|]. constructor. lia.
Qed.

Lemma run_spec v :
  Forall int16 v ->
  sq_ret (calculateSumOfSquares_run v) = clamp16 (sum_of_squares v)
  /\ sq_site (calculateSumOfSquares_run v) <> RetLower
  /\ Sorted Z.le (0 :: sq_sums (calculateSumOfSquares_run v)).
Proof.
  intros Hv. destruct v as [|x v].
  - cbn. repeat split; [discriminate | repeat constructor].
  - change (calculateSumOfSquares_run (x :: v)) with (sum_loop 0 (x :: v)).
    apply (sum_loop_spec (x :: v) 0 Hv). lia.
Qed.

Lemma sum_of_squares_perm v v' :
  Permutation v v' -> sum_of_squares v = sum_of_squares v'.
Proof.
  induction 1 as [|x l l' _ IH|x y l|l l' l'' _ IH1 _ IH2];
    unfold sum_of_squares in *; simpl; lia.
Qed.

(** C1. For every sequence of 16-bit signed integers,
    [calculateSumOfSquares] returns the mathematical sum of the squares
    clamped to [-32768, 32767]; the empty sequence gives 0, [1,2,3,4] and
    [-1,2,-3,4] give 30, and [200,200] gives 32767. *)
Theorem calculateSumOfSquares_clamped (v : list Z) :
  Forall int16 v ->
  calculateSumOfSquares v = clamp16 (sum_of_squares v)
  /\ calculateSumOfSquares [] = 0
  /\ calculateSumOfSquares [1; 2; 3; 4] = 30
  /\ calculateSumOfSquares [-1; 2; -3; 4] = 30
  /\ calculateSumOfSquares [200; 200] = 32767.
Proof.
  intros Hv. split; [|repeat split; reflexivity].
  exact (proj1 (run_spec v Hv)).
Qed.

Lemma calculateSumOfSquares_clamped_witness :
  Forall int16 [150; -150; 7]
  /\ calculateSumOfSquares [150; -150; 7] = clamp16 (sum_of_squares [150; -150; 7]).
Proof.
  assert (H : Forall int16 [150; -150; 7])
    by (repeat constructor; unfold INT16_MIN, INT16_MAX; lia).
  split; [exact H|].
  exact (proj1 (calculateSumOfSquares_clamped [150; -150; 7] H)).
Defined.

(** C2. For every sequence of 16-bit signed integers the running 64-bit
    sum never decreases from one iteration to the next, and the branch
    that returns -32768 is never the one taken. *)
Theorem lower_clamp_never_taken (v : list Z) :
  Forall int16 v ->
  Sorted Z.le (0 :: sq_sums (calculateSumOfSquares_run v))
  /\ sq_site (calculateSumOfSquares_run v) <> RetLower.
Proof.
  intros Hv. destruct (run_spec v Hv) as (_ & Hsite & Hsorted). auto.
Qed.

Lemma lower_clamp_never_taken_witness :
  Forall int16 [-32768; 3; 181]
  /\ Sorted Z.le (0 :: sq_sums (calculateSumOfSquares_run [-32768; 3; 181]))
  /\ sq_site (calculateSumOfSquares_run [-32768; 3; 181]) <> RetLower.
Proof.
  assert (H : Forall int16 [-32768; 3; 181])
    by (repeat constructor; unfold INT16_MIN, INT16_MAX; lia).
  split; [exact H|].
  exact (lower_clamp_never_taken [-32768; 3; 181] H).
Defined.

(** C10. [calculateSumOfSquares] gives the same result on every
    reordering of a sequence of 16-bit signed integers, the early exit
    at 32767 notwithstanding. *)
Theorem calculateSumOfSquares_permutation (v v' : list Z) :
  Forall int16 v -> Permutation v v' ->
  calculateSumOfSquares v = calculateSumOfSquares v'.
Proof.
  intros Hv Hp.
  assert (Hv' : Forall int16 v') by (rewrite <- Hp; exact Hv).
  unfold calculateSumOfSquares.
  rewrite (proj1 (run_spec v Hv)), (proj1 (run_spec v' Hv')).
  f_equal. apply sum_of_squares_perm, Hp.
Qed.

Lemma calculateSumOfSquares_permutation_witness :
  Forall int16 [100; 1; 181] /\ Permutation [100; 1; 181] [181; 100; 1]
  /\ calculateSumOfSquares [100; 1; 181] = calculateSumOfSquares [181; 100; 1].
Proof.
  assert (H : Forall int16 [100; 1; 181])
    by (repeat constructor; unfold INT16_MIN, INT16_MAX; lia).
  assert (P : Permutation [100; 1; 181] [181; 100; 1]).
  { apply Permutation_sym. apply (Permutation_cons_app [100; 1] []). reflexivity. }
  split; [exact H|]. split; [exact P|].
  exact (calculateSumOfSquares_permutation _ _ H P).
Defined.

End SumOfSquares.

(* ===================================================================== *)
(** * Part III. Further properties of the code                            *)
(* ===================================================================== *)

(** ** More on the saturating sum *)

Section SaturatingSum.

Lemma sum_of_squares_app v v' :
  sum_of_squares (v ++ v') = sum_of_squares v + sum_of_squares v'.
Proof. induction v as [|x v IH]; simpl; [reflexivity|]. unfold sum_of_squares in *. simpl. lia. Qed.

Lemma calculateSumOfSquares_eq v :
  Forall int16 v -> calculateSumOfSquares v = clamp16 (sum_of_squares v).
Proof. intros Hv. exact (proj1 (run_spec v Hv)). Qed.

Lemma sum_of_squares_zero v : sum_of_squares v = 0 <-> Forall (eq 0) v.
Proof.
  induction v as [|x v IH]; simpl.
  - split; [constructor | reflexivity].
  - pose proof (sum_of_squares_nonneg v) as Hn. fold (sum_of_squares v).
    split.
    + intros H. assert (x = 0) by nia. assert (sum_of_squares v = 0) by nia.
      constructor; [auto | now apply IH].
    + intros H. inversion H as [|? ? Hx Hv]; subst.
      apply IH in Hv. lia.
Qed.

(** X1. The result is never negative, a result below 32767 is the exact
    sum of the squares, and 32767 is returned exactly when the exact sum
    is 32767 or more. *)
Theorem calculateSumOfSquares_exact_below_saturation (v : list Z) :
  Forall int16 v ->
  0 <= calculateSumOfSquares v <= 32767
  /\ (calculateSumOfSquares v < 32767 -> calculateSumOfSquares v = sum_of_squares v)
  /\ (calculateSumOfSquares v = 32767 <-> 32767 <= sum_of_squares v).
Proof.
  intros Hv. rewrite (calculateSumOfSquares_eq v Hv).
  pose proof (sum_of_squares_nonneg v).
  unfold clamp16, INT16_MIN, INT16_MAX. lia.
Qed.

Lemma calculateSumOfSquares_exact_below_saturation_witness :
  Forall int16 [100; -100; 50]
  /\ calculateSumOfSquares [100; -100; 50] = sum_of_squares [100; -100; 50].
Proof.
  assert (H : Forall int16 [100; -100; 50])
    by (repeat constructor; unfold INT16_MIN, INT16_MAX; lia).
  split; [exact H|].
  apply (proj1 (proj2 (calculateSumOfSquares_exact_below_saturation _ H))).
  vm_compute. reflexivity.
Defined.

(** X2. Adding elements, before or after, never lowers the result, and a
    saturated result stays saturated. *)
Theorem calculateSumOfSquares_grows (v more : list Z) :
  Forall int16 v -> Forall int16 more ->
  calculateSumOfSquares v <= calculateSumOfSquares (v ++ more)
  /\ calculateSumOfSquares v <= calculateSumOfSquares (more ++ v)
  /\ (calculateSumOfSquares v = 32767 ->
      calculateSumOfSquares (v ++ more) = 32767
      /\ calculateSumOfSquares (more ++ v) = 32767).
Proof.
  intros Hv Hm.
  assert (H1 : Forall int16 (v ++ more)) by (apply Forall_app; auto).
  assert (H2 : Forall int16 (more ++ v)) by (apply Forall_app; auto).
  rewrite (calculateSumOfSquares_eq _ Hv), (calculateSumOfSquares_eq _ H1),
    (calculateSumOfSquares_eq _ H2), !sum_of_squares_app.
  pose proof (sum_of_squares_nonneg v). pose proof (sum_of_squares_nonneg more).
  unfold clamp16, INT16_MIN, INT16_MAX. lia.
Qed.

Lemma calculateSumOfSquares_grows_witness :
  Forall int16 [181; 1] /\ Forall int16 [3]
  /\ calculateSumOfSquares [181; 1] <= calculateSumOfSquares ([181; 1] ++ [3]).
Proof.
  assert (H : Forall int16 [181; 1])
    by (repeat constructor; unfold INT16_MIN, INT16_MAX; lia).
  assert (H' : Forall int16 [3])
    by (repeat constructor; unfold INT16_MIN, INT16_MAX; lia).
  split; [exact H|]. split; [exact H'|].
  exact (proj1 (calculateSumOfSquares_grows _ _ H H')).
Defined.

(** X3. The result is 0 exactly for the vectors that hold nothing but
    zeros, the empty vector among them. *)
Theorem calculateSumOfSquares_zero (v : list Z) :
  Forall int16 v ->
  (calculateSumOfSquares v = 0 <-> Forall (eq 0) v).
Proof.
  intros Hv. rewrite (calculateSumOfSquares_eq v Hv), <- sum_of_squares_zero.
  pose proof (sum_of_squares_nonneg v).
  unfold clamp16, INT16_MIN, INT16_MAX. lia.
Qed.

Lemma calculateSumOfSquares_zero_witness :
  Forall int16 [0; 0; 0] /\ calculateSumOfSquares [0; 0; 0] = 0.
Proof.
  assert (H : Forall int16 [0; 0; 0])
    by (repeat constructor; unfold INT16_MIN, INT16_MAX; lia).
  split; [exact H|].
  apply (proj2 (calculateSumOfSquares_zero _ H)). repeat constructor.
Defined.

End SaturatingSum.


(** ** Hexadecimal strings read back *)

Section HexRoundTrip.

Lemma hex_val_digit d : 0 <= d < 16 -> hex_val (toupper (hex_digit d)) = d.
Proof.
  intros H.
  assert (Hd : In d [0; 1; 2; 3; 4; 5; 6; 7; 8; 9; 10; 11; 12; 13; 14; 15])
    by (simpl; lia).
  repeat (destruct Hd as [<-|Hd]; [reflexivity|]).
  destruct Hd.
Qed.

Lemma hex_value_from_app s : forall acc t,
  hex_value_from acc (s +:+ t) = hex_value_from (hex_value_from acc s) t.
Proof. induction s as [|c s IH]; intros acc t; simpl; [reflexivity | apply IH]. Qed.

Lemma hex_digits_value n : forall z,
  0 <= z < 16 ^ Z.of_nat n ->
  hex_value (str_map toupper (hex_digits n z)) = z.
Proof.
  induction n as [|n IH]; intros z Hz.
  - change (16 ^ Z.of_nat 0) with 1 in Hz. unfold hex_value. simpl. lia.
  - cbn [hex_digits]. destruct (Z.ltb_spec z 16) as [Hlt|Hge].
    + unfold hex_value. simpl. rewrite hex_val_digit by lia. lia.
    + unfold hex_value in *. rewrite str_map_app, hex_value_from_app.
      rewrite IH.
      * simpl. rewrite hex_val_digit by (apply Z.mod_pos_bound; lia).
        pose proof (Z.div_mod z 16 ltac:(lia)). lia.
      * split; [apply Z.div_pos; lia|].
        apply Z.div_lt_upper_bound; [lia|].
        replace (Z.of_nat (S n)) with (Z.succ (Z.of_nat n)) in Hz by lia.
        rewrite Z.pow_succ_r in Hz by lia. lia.
Qed.

Lemma hex_value_fill w s :
  hex_value (str_map toupper (setw_fill w "0" s)) = hex_value (str_map toupper s).
Proof.
  unfold setw_fill, hex_value. rewrite str_map_app, hex_value_from_app.
  f_equal. induction (w - String.length s)%nat as [|k IH]; simpl; [reflexivity|].
  exact IH.
Qed.

(** X4. [generateSalt] draws one random value and renders it as sixteen
    upper-case hexadecimal digits that read back as the value drawn, so
    different values give different salts. *)
Theorem generateSalt_reads_back (w : World) :
  let value := hd 0 (entropy w) mod 2 ^ 64 in
  let salt := result (generateSalt w) in
  String.length salt = 16%nat
  /\ str_forall is_upper_hex salt
  /\ hex_value salt = value
  /\ trace (generateSalt w) = [EvRandom value]
  /\ entropy (after (generateSalt w)) = tl (entropy w)
  /\ (forall w', result (generateSalt w') = salt ->
                 hd 0 (entropy w') mod 2 ^ 64 = value).
Proof.
  intros value salt.
  assert (Hback : forall w0, hex_value (result (generateSalt w0))
                             = hd 0 (entropy w0) mod 2 ^ 64).
  { intros w0. cbn [generateSalt result fst]. unfold hex_u64.
    rewrite hex_value_fill. apply hex_digits_value.
    apply (Z.mod_pos_bound _ (2 ^ 64)). lia. }
  destruct (salt_format w) as [Hl Hu].
  repeat split; try assumption.
  - apply Hback.
  - intros w' Heq. rewrite <- (Hback w'), Heq. apply Hback.
Qed.

Lemma unhex_byte c s :
  unhex_bytes (str_map toupper (hex_byte c) +:+ s) = String c (unhex_bytes s).
Proof. destruct c as [[] [] [] [] [] [] [] []]; reflexivity. Qed.

(** X5. [sha224Hash] returns the empty string when the library fails;
    otherwise it returns two upper-case hexadecimal digits per digest
    byte, which read back as the digest. *)
Theorem sha224Hash_reads_back (evp : string -> option string) (input : string) :
  match evp input with
  | None => sha224Hash evp input = EmptyString
  | Some digest =>
      String.length (sha224Hash evp input) = (2 * String.length digest)%nat
      /\ str_forall is_upper_hex (sha224Hash evp input)
      /\ unhex_bytes (sha224Hash evp input) = digest
  end.
Proof.
  unfold sha224Hash. destruct (evp input) as [digest|]; [|reflexivity].
  destruct (digest_format digest) as [Hl Hu].
  split; [exact Hl|]. split; [exact Hu|].
  induction digest as [|c digest IH]; [reflexivity|].
  cbn [hex_bytes]. rewrite str_map_app, unhex_byte. f_equal.
  apply IH; apply digest_format.
Qed.

End HexRoundTrip.


(** ** More on the credential loader *)

Section LoaderMore.

Lemma load_lookup lines (k : string) : forall u : gmap string string,
  foldl load_line u lines !! k
  = match last_secret k lines with
    | Some secret => Some secret
    | None => u !! k
    end.
Proof.
  induction lines as [|line rest IH]; intros u; [reflexivity|].
  cbn [foldl last_secret]. rewrite IH.
  destruct (last_secret k rest); [reflexivity|].
  unfold load_line. destruct (parse_line line) as [[l p]|]; [|reflexivity].
  destruct (String.eqb_spec l k) as [->|Hne].
  - apply lookup_insert_eq.
  - now apply lookup_insert_ne.
Qed.

Lemma load_database_run w content :
  files w !! userDbPath (server w) = Some content ->
  loadUserDatabase w
  = (tt, set_server (set_users (foldl load_line (users (server w)) (getlines content))
                               (server w)) w, []).
Proof. intros H. unfold loadUserDatabase. rewrite H. reflexivity. Qed.

Lemma parse_line_well_formed line login secret :
  parse_line line = Some (login, secret) -> well_formed_entry login secret.
Proof.
  unfold parse_line. intros H.
  destruct (negb (find line colon =? npos)) eqn:Hfound; [|discriminate].
  cbn [andb] in H.
  destruct ((0 <? find line colon)
            && (find line colon <? size_t_wrap (str_length line - 1))); [|discriminate].
  destruct (empty (substr line 0 (find line colon))) eqn:Hl; [discriminate|].
  destruct (empty (substr_from line (size_t_wrap (find line colon + 1)))) eqn:Hs;
    [discriminate|].
  cbn in H. injection H as <- <-.
  split; [intros E; rewrite E in Hl; discriminate|].
  split; [|intros E; rewrite E in Hs; discriminate].
  destruct (split_first colon line) as [H0|(l & p & -> & H0)].
  - unfold find in Hfound. rewrite (find_from_none _ _ _ H0), Z.eqb_refl in Hfound.
    discriminate.
  - unfold find. rewrite (find_from_found _ _ _ _ H0), Z.add_0_l.
    unfold substr, str_length. rewrite Nat2Z.id. simpl (str_drop _ _).
    rewrite str_take_app. exact H0.
Qed.

Lemma last_secret_well_formed lines login secret :
  last_secret login lines = Some secret -> well_formed_entry login secret.
Proof.
  induction lines as [|line rest IH]; [discriminate|].
  cbn [last_secret]. destruct (last_secret login rest); [exact IH|].
  destruct (parse_line line) as [[l p]|] eqn:Hp; [|discriminate].
  destruct (String.eqb_spec l login) as [->|]; [|discriminate].
  intros [= <-]. exact (parse_line_well_formed _ _ _ Hp).
Qed.

(** X6. When the file opens, the loader logs nothing, and afterwards a
    login maps to the secret of the LAST line recorded under it; a login
    under which no line is recorded keeps what it had. *)
Theorem loadUserDatabase_last_line_wins (w : World) (content login : string) :
  files w !! userDbPath (server w) = Some content ->
  users (server (after (loadUserDatabase w))) !! login
  = match last_secret login (getlines content) with
    | Some secret => Some secret
    | None => users (server w) !! login
    end
  /\ trace (loadUserDatabase w) = [].
Proof.
  intros Hfile. rewrite (load_database_run w content Hfile).
  split; [|reflexivity]. apply load_lookup.
Qed.

(** X7. Loading is idempotent: a second [loadUserDatabase] leaves the
    user table as the first one made it, whether the file opens or not. *)
Theorem loadUserDatabase_idempotent (w : World) :
  users (server (after (loadUserDatabase (after (loadUserDatabase w)))))
  = users (server (after (loadUserDatabase w))).
Proof.
  destruct (files w !! userDbPath (server w)) as [content|] eqn:Hfile.
  - rewrite (load_database_run w content Hfile). cbn [after fst snd].
    set (w' := set_server _ w).
    assert (Hfile' : files w' !! userDbPath (server w') = Some content) by exact Hfile.
    rewrite (load_database_run w' content Hfile'). cbn.
    apply map_eq. intros k. rewrite !load_lookup.
    destruct (last_secret k (getlines content)); reflexivity.
  - assert (Hsame : forall w0, files w0 !! userDbPath (server w0) = None ->
                               after (loadUserDatabase w0) = w0).
    { intros w0 H0. unfold loadUserDatabase. rewrite H0. apply logError_run. }
    rewrite (Hsame w Hfile). rewrite (Hsame w Hfile). reflexivity.
Qed.

(** X8. Whatever the file holds, every entry of the table after loading
    is an entry it had before or has a non-empty login without separator
    and a non-empty secret. *)
Theorem loadUserDatabase_entries_well_formed (w : World) (login secret : string) :
  users (server (after (loadUserDatabase w))) !! login = Some secret ->
  users (server w) !! login = Some secret \/ well_formed_entry login secret.
Proof.
  destruct (files w !! userDbPath (server w)) as [content|] eqn:Hfile.
  - rewrite (load_database_run w content Hfile). cbn [after fst snd server set_server
                                                        users set_users].
    rewrite load_lookup.
    destruct (last_secret login (getlines content)) as [s|] eqn:Hl; [|now left].
    intros [= <-]. right. exact (last_secret_well_formed _ _ _ Hl).
  - unfold loadUserDatabase. rewrite Hfile.
    rewrite (proj1 (logError_run _ _ _)). now left.
Qed.

End LoaderMore.

Lemma loadUserDatabase_last_line_wins_witness :
  let w := file_world "bob:one
alice:x
bob:two
" in
  users (server (after (loadUserDatabase w))) !! "bob" = Some "two".
Proof.
  intros w.
  destruct (loadUserDatabase_last_line_wins w _ "bob" eq_refl) as [H _].
  rewrite H. reflexivity.
Defined.

Lemma loadUserDatabase_entries_well_formed_witness :
  let w := file_world "bob:one
:nobody
bob:t:w:o
" in
  users (server (after (loadUserDatabase w))) !! "bob" = Some "t:w:o"
  /\ well_formed_entry "bob" "t:w:o".
Proof.
  intros w.
  assert (H : users (server (after (loadUserDatabase w))) !! "bob" = Some "t:w:o")
    by reflexivity.
  split; [exact H|].
  destruct (loadUserDatabase_entries_well_formed w "bob" "t:w:o" H) as [H0|Hw];
    [discriminate H0 | exact Hw].
Defined.

Section LoaderRoundTrip.

Lemma getlines_from_line line : forall acc rest,
  count_char LF line = O ->
  getlines_from acc (line +:+ String LF rest)
  = (acc +:+ line) :: getlines_from EmptyString rest.
Proof.
  induction line as [|c line IH]; intros acc rest Hc.
  - cbn. replace (acc +:+ EmptyString) with acc; [reflexivity|].
    clear. induction acc as [|a acc IH]; simpl; [reflexivity | now rewrite <- IH].
  - cbn [count_char] in Hc. cbn [String.append getlines_from].
    destruct (Ascii.eqb c LF); [discriminate|].
    rewrite (IH _ _ Hc), str_app_assoc. reflexivity.
Qed.

Lemma count_char_app c s t :
  count_char c (s +:+ t) = (count_char c s + count_char c t)%nat.
Proof. induction s as [|d s IH]; simpl; [reflexivity | rewrite IH; lia]. Qed.

Lemma getlines_createTempUserDb pairs :
  Forall storable pairs ->
  getlines (createTempUserDb pairs)
  = map (fun user_pair => fst user_pair +:+ String colon (snd user_pair)) pairs.
Proof.
  unfold getlines. induction 1 as [|[l p] pairs (_ & Hl & Hp & _) _ IH]; [reflexivity|].
  assert (Hcons : createTempUserDb ((l, p) :: pairs)
                  = (l +:+ String colon p) +:+ String LF (createTempUserDb pairs)).
  { unfold createTempUserDb. cbn [fold_right fst snd].
    rewrite str_app_assoc. reflexivity. }
  rewrite Hcons. cbn [map fst snd] in *.
  rewrite getlines_from_line.
  - cbn [String.append]. f_equal. exact IH.
  - rewrite count_char_app. cbn [count_char]. rewrite Hl, Hp. reflexivity.
Qed.

Lemma load_storable pairs : forall u : gmap string string,
  Forall storable pairs ->
  foldl load_line u
        (map (fun user_pair => fst user_pair +:+ String colon (snd user_pair)) pairs)
  = foldl (fun m user_pair => <[fst user_pair := snd user_pair]> m) u pairs.
Proof.
  induction pairs as [|[l p] pairs IH]; intros u Hs; [reflexivity|].
  inversion Hs as [|? ? ((Hl & Hc & Hp) & _ & _ & Hlen) Hs']; subst.
  cbn [map foldl fst snd] in *. rewrite <- (IH _ Hs'). f_equal.
  unfold load_line. rewrite (parse_line_split l p Hc Hlen).
  destruct l, p; try contradiction; reflexivity.
Qed.

Lemma foldl_insert_list_to_map (pairs : list (string * string)) :
  foldl (fun m user_pair => <[fst user_pair := snd user_pair]> m)
        (∅ : gmap string string) pairs
  = list_to_map (rev pairs).
Proof.
  induction pairs as [|[l p] pairs IH] using rev_ind; [reflexivity|].
  rewrite foldl_app, rev_app_distr. cbn [foldl rev app fst snd].
  rewrite IH. reflexivity.
Qed.

(** X9. A file written by the unit tests' [createTempUserDb] is read back
    by a fresh server as the users written, a later user overriding an
    earlier one of the same login; with distinct logins there are as many
    entries as users. *)
Theorem createTempUserDb_read_back (w : World) (pairs : list (string * string)) :
  Forall storable pairs ->
  files w !! userDbPath (server w) = Some (createTempUserDb pairs) ->
  users (server w) = ∅ ->
  users (server (after (loadUserDatabase w))) = list_to_map (rev pairs)
  /\ (NoDup (map fst pairs) ->
      size (users (server (after (loadUserDatabase w)))) = length pairs).
Proof.
  intros Hs Hfile Hempty.
  rewrite (load_database_run w _ Hfile).
  cbn [after fst snd server set_server users set_users].
  rewrite Hempty, (getlines_createTempUserDb pairs Hs), (load_storable pairs _ Hs).
  rewrite foldl_insert_list_to_map. split; [reflexivity|].
  intros Hnd. rewrite map_size_list_to_map.
  - apply length_rev.
  - change (NoDup (map fst (rev pairs))). rewrite map_rev.
    assert (Hp : rev (map fst pairs) ≡ₚ map fst pairs)
      by (symmetry; apply Permutation_rev).
    rewrite Hp. exact Hnd.
Qed.

End LoaderRoundTrip.

Lemma createTempUserDb_read_back_witness :
  let pairs := [("user1", "password123"); ("user2", "secret456"); ("admin", "adminpass")] in
  let w := file_world (createTempUserDb pairs) in
  Forall storable pairs
  /\ size (users (server (after (loadUserDatabase w)))) = 3%nat.
Proof.
  intros pairs w.
  assert (Hs : Forall storable pairs).
  { repeat constructor; try discriminate. }
  assert (Hnd : NoDup (map fst pairs)).
  { apply (bool_decide_unpack _). vm_compute. reflexivity. }
  split; [exact Hs|].
  exact (proj2 (createTempUserDb_read_back w pairs Hs eq_refl eq_refl) Hnd).
Defined.


(** ** More on the handshake *)

(** Walks through a program applied to a world, splitting on every test. *)
Ltac explore :=
  repeat (first
    [ rewrite run_bind
    | match goal with
      | |- context [(if ?c then _ else _) _] => destruct c eqn:?
      | |- context [(match ?x with _ => _ end) _] => destruct x eqn:?
      end ];
    cbn [result after trace fst snd get_world emit cout cerr close app]).

Section HandshakeMore.

Variable evp : string -> option string.

Lemma filter_quiet {A} (f : event -> bool) (m : M A) w :
  emits (fun e => f e = false) m -> List.filter f (trace (m w)) = [].
Proof.
  intros H. specialize (H w). induction H as [|e t He _ IH]; [reflexivity|].
  cbn [List.filter]. rewrite He. exact IH.
Qed.

Lemma no_verdict_recv site buf off len w :
  List.filter verdict_event (trace (recv site buf off len w)) = [].
Proof. apply filter_quiet, emits_recv. reflexivity. Qed.

Lemma no_verdict_log msg crit w :
  List.filter verdict_event (trace (logError msg crit w)) = [].
Proof. apply filter_quiet, emits_logError. reflexivity. Qed.

(** X10. In every run of [authenticate] at most one verdict goes out, and
    the function returns [true] exactly when that verdict is OK. *)
Theorem authenticate_one_verdict (w : World) :
  let verdicts := List.filter verdict_event (trace (authenticate evp w)) in
  (verdicts = [] \/ exists site data ret, verdicts = [EvSend site data ret])
  /\ (result (authenticate evp w) = true <-> exists ret, verdicts = [EvSend AtOk "OK" ret]).
Proof.
  cbv zeta. unfold authenticate, challenge. explore.
  all: rewrite ?send_eq, ?generateSalt_eq; cbn [result after trace fst snd app].
  all: change (@mret M _ bool) with (@M_ret bool); unfold M_ret;
    cbn [result after trace fst snd app].
  all: repeat (rewrite ?List.filter_app, ?no_verdict_log, ?no_verdict_recv;
    cbn [List.filter verdict_event app]).
  all: split;
    [ first [ left; reflexivity | right; do 3 eexists; reflexivity ]
    | split;
      [ first [ discriminate | intros _; eexists; reflexivity ]
      | intros [? H]; first [ discriminate H | reflexivity ] ] ].
Qed.

End HandshakeMore.

(** ** The handshake when something is missing *)

Section HandshakeEdges.
Variable evp : string -> option string.

Lemma filter_log (f : event -> bool) msg crit w :
  (forall path level, f (EvLog path level msg) = false) ->
  List.filter f (trace (logError msg crit w)) = [].
Proof.
  intros H. unfold logError. destruct (appendable w _); cbn; [|reflexivity].
  now rewrite H.
Qed.

Lemma recv_nothing site buf off len w :
  nothing_to_read (inbox w) ->
  exists ret,
    ret <= 0
    /\ (result (recv site buf off len w)).1 = ret
    /\ trace (recv site buf off len w) = [EvRecv site len ret EmptyString].
Proof.
  intros Hnone.
  unfold recv. destruct (inbox w) as [|[seg| |] rest]; cbn in Hnone |- *.
  - exists 0. split; [lia | split; reflexivity].
  - subst seg. exists 0. destruct (Z.to_nat len); split; [lia | split; reflexivity| lia | split; reflexivity].
  - exists 0. split; [lia | split; reflexivity].
  - exists (-1). split; [lia | split; reflexivity].
Qed.

(** X11. When the first [recv] of the handshake finds nothing (the peer
    has closed, the call fails, or no byte has come), [authenticate]
    returns [false] after that one socket call: nothing is sent, the user
    table is not looked at, and the random source and the outbound side
    of the socket are left untouched. *)
Theorem authenticate_nothing_received (w : World) :
  nothing_to_read (inbox w) ->
  result (authenticate evp w) = false
  /\ (exists ret, ret <= 0
        /\ List.filter socket_event (trace (authenticate evp w))
           = [EvRecv AtLogin 255 ret EmptyString])
  /\ Forall (fun e => ~ find_event e) (trace (authenticate evp w))
  /\ entropy (after (authenticate evp w)) = entropy w
  /\ outcomes (after (authenticate evp w)) = outcomes w.
Proof.
  intros Hnone. unfold authenticate. rewrite !run_bind.
  cbn [result after trace fst snd get_world app].
  destruct (recv_nothing AtLogin (local_array w 256) 0 255 w Hnone)
    as (ret & Hret & Hres & Htrace).
  rewrite Hres, Htrace.
  destruct (Z.leb_spec ret 0) as [_|Hgt]; [|lia].
  rewrite !run_bind. cbn [result after trace fst snd app].
  rewrite (proj1 (logError_run _ _ _)).
  split; [reflexivity|]. split; [|split; [|split]].
  - exists ret. split; [exact Hret|].
    cbn [List.filter socket_event app]. rewrite List.filter_app.
    rewrite filter_log by reflexivity. reflexivity.
  - constructor; [intros []|]. apply Forall_app. split; [|constructor].
    apply (emits_logError (fun e => ~ find_event e)). intros ? ? [].
  - apply (keeps_recv entropy); reflexivity.
  - apply (keeps_recv outcomes); reflexivity.
Qed.


Lemma filter_recv (f : event -> bool) site buf off len w :
  (forall ret data, f (EvRecv site len ret data) = true) ->
  List.filter f (trace (recv site buf off len w)) = trace (recv site buf off len w).
Proof.
  intros H. unfold recv.
  destruct (inbox w) as [|[seg| |] rest]; cbn; now rewrite H.
Qed.

Lemma salt_whole w : str_take (Z.to_nat 16) (next_salt w) = next_salt w.
Proof. apply str_take_all. rewrite (proj1 (salt_format w)). reflexivity. Qed.

(** X12. For a known login, when the salt does not go out whole ([send]
    returns anything but 16), [authenticate] returns [false]; its socket
    calls are the read of the login and the send of the salt, so no
    verdict is sent, and the response is never read: what followed the
    login stays on the socket. *)
Theorem salt_not_sent_ends_handshake (w : World) (bytes secret : string)
        (rest : list arrival) :
  inbox w = Data bytes :: rest ->
  bytes <> EmptyString ->
  known w !! received_string bytes = Some secret ->
  next_send w 16 <> 16 ->
  result (authenticate evp w) = false
  /\ List.filter socket_event (trace (authenticate evp w))
     = [EvRecv AtLogin 255 (str_length (str_take 255 bytes)) (str_take 255 bytes);
        EvSend AtSalt (next_salt w) (next_send w 16)]
  /\ inbox (after (authenticate evp w))
     = (if empty (str_drop 255 bytes) then rest else Data (str_drop 255 bytes) :: rest).
Proof.
  intros Hin Hne Hknown Hsend.
  rewrite (authenticate_identify evp w bytes rest Hin Hne). cbv zeta.
  unfold known in Hknown. rewrite Hknown.
  match goal with |- context [set_inbox ?i w] => set (w1 := set_inbox i w) end.
  assert (Hs : next_send w1 16 = next_send w 16) by reflexivity.
  assert (Hsalt : next_salt w1 = next_salt w) by reflexivity.
  unfold challenge.
  rewrite run_bind, generateSalt_eq. cbn [result after trace fst snd].
  rewrite run_bind, send_eq. cbn [result after trace fst snd].
  change (next_send (set_entropy (tl (entropy w1)) w1) 16) with (next_send w 16).
  destruct (Z.eqb_spec (next_send w 16) 16) as [|_]; [contradiction|].
  cbn [negb]. rewrite !run_bind. cbn [result after trace fst snd app].
  rewrite (proj1 (logError_run _ _ _)), salt_whole, Hsalt.
  split; [reflexivity|]. split; [|reflexivity].
  cbn [List.filter socket_event app]. rewrite List.filter_app.
  rewrite filter_log by reflexivity. reflexivity.
Qed.

(** X13. For a known login whose salt has gone out, when no response
    arrives [authenticate] returns [false], and its socket calls are the
    read of the login, the send of the salt and the failed read: neither
    OK nor ERR is sent. *)
Theorem no_response_no_verdict (w : World) (bytes secret : string)
        (rest : list arrival) :
  inbox w = Data bytes :: rest ->
  bytes <> EmptyString ->
  (String.length bytes <= 255)%nat ->
  known w !! received_string bytes = Some secret ->
  next_send w 16 = 16 ->
  nothing_to_read rest ->
  result (authenticate evp w) = false
  /\ exists ret,
       ret <= 0
       /\ List.filter socket_event (trace (authenticate evp w))
          = [EvRecv AtLogin 255 (str_length bytes) bytes;
             EvSend AtSalt (next_salt w) 16;
             EvRecv AtResponse 255 ret EmptyString].
Proof.
  intros Hin Hne Hlen Hknown Hsend Hrest.
  rewrite (authenticate_identify evp w bytes rest Hin Hne). cbv zeta.
  unfold known in Hknown. rewrite Hknown.
  assert (Hdrop : str_drop 255 bytes = EmptyString).
  { pose proof (length_str_drop 255 bytes) as Hl.
    destruct (str_drop 255 bytes); [reflexivity | simpl in Hl; lia]. }
  rewrite Hdrop, (str_take_all 255 bytes Hlen). cbn [empty].
  set (w1 := set_inbox rest w).
  unfold challenge.
  rewrite run_bind, generateSalt_eq. cbn [result after trace fst snd].
  rewrite run_bind, send_eq. cbn [result after trace fst snd].
  change (next_send (set_entropy (tl (entropy w1)) w1) 16) with (next_send w 16).
  rewrite Hsend. cbn [negb Z.eqb Pos.eqb].
  rewrite run_bind. cbn [result after trace fst snd].
  match goal with |- context [recv AtResponse ?b 0 255 ?w3] =>
    destruct (recv_nothing AtResponse b 0 255 w3 Hrest) as (ret & Hret & Hres & Htrace)
  end.
  rewrite Hres, Htrace.
  destruct (Z.leb_spec ret 0) as [_|Hgt]; [|lia].
  rewrite !run_bind. cbn [result after trace fst snd app].
  rewrite (proj1 (logError_run _ _ _)), salt_whole.
  split; [reflexivity|]. exists ret. split; [exact Hret|].
  cbn [List.filter socket_event app]. rewrite List.filter_app.
  rewrite filter_log by reflexivity. reflexivity.
Qed.

Lemma eqb_empty_upper s : String.eqb EmptyString (str_map toupper s) = empty s.
Proof. destruct s; reflexivity. Qed.

(** X14. When the digest cannot be computed (one of the OpenSSL calls
    fails, so that [sha224Hash] returns the empty string), [authenticate]
    on a known login returns [true] exactly when the response, read as a
    C string, is empty (its first byte is NUL); the one verdict sent is
    then OK, and ERR otherwise. *)
Theorem digest_failure_accepts_empty_response (w : World)
        (login_bytes resp secret : string) (rest : list arrival) :
  inbox w = Data login_bytes :: Data resp :: rest ->
  login_bytes <> EmptyString ->
  (String.length login_bytes <= 255)%nat ->
  resp <> EmptyString ->
  known w !! received_string login_bytes = Some secret ->
  next_send w 16 = 16 ->
  evp (next_salt w +:+ secret) = None ->
  (result (authenticate evp w) = true <-> received_string resp = EmptyString)
  /\ exists ret,
       List.filter verdict_event (trace (authenticate evp w))
       = [if empty (received_string resp)
          then EvSend AtOk "OK" ret else EvSend AtErrHash "ERR" ret].
Proof.
  intros Hin Hne Hlen Hresp Hknown Hsend Hevp.
  rewrite (authenticate_identify evp w login_bytes _ Hin Hne). cbv zeta.
  unfold known in Hknown. rewrite Hknown.
  assert (Hdrop : str_drop 255 login_bytes = EmptyString).
  { pose proof (length_str_drop 255 login_bytes) as Hl.
    destruct (str_drop 255 login_bytes); [reflexivity | simpl in Hl; lia]. }
  rewrite Hdrop. cbn [empty].
  set (w1 := set_inbox (Data resp :: rest) w).
  match goal with |- context [challenge evp _ ?b _] => set (buffer := b) end.
  assert (Hbuf : String.length buffer = 256%nat).
  { subst buffer. rewrite length_buffer_set, length_buffer_write, local_array_length;
      [reflexivity | rewrite local_array_length, length_str_take; lia]. }
  pose proof (str_length_pos resp Hresp 255 ltac:(lia)) as Hpos.
  assert (Htok : c_str (buffer_set (buffer_write buffer 0 (str_take 255 resp))
                                   (Z.to_nat (str_length (str_take 255 resp))) NUL)
                 = received_string resp).
  { unfold str_length. rewrite Nat2Z.id. apply c_str_buffer.
    rewrite Hbuf, length_str_take. lia. }
  assert (Hhash : sha224Hash evp (next_salt w1 +:+ secret) = EmptyString).
  { unfold sha224Hash. change (next_salt w1) with (next_salt w). now rewrite Hevp. }
  unfold challenge.
  rewrite run_bind, generateSalt_eq. cbn [result after trace fst snd].
  rewrite run_bind, send_eq. cbn [result after trace fst snd].
  change (next_send (set_entropy (tl (entropy w1)) w1) 16) with (next_send w 16).
  rewrite Hsend. cbn [negb Z.eqb Pos.eqb].
  rewrite run_bind.
  match goal with |- context [recv AtResponse buffer 0 255 ?w3] =>
    pose proof (recv_data AtResponse buffer 0 255 w3 resp rest eq_refl) as Hrecv
  end.
  change (Z.to_nat 255) with 255%nat in Hrecv. cbv zeta in Hrecv.
  rewrite Hrecv. cbn [result after trace fst snd].
  rewrite Hpos, Htok, Hhash, eqb_empty_upper.
  destruct (received_string resp) as [|c s] eqn:Hr; cbn [empty].
  - rewrite !run_bind, send_eq. cbn [result after trace fst snd app].
    split; [split; reflexivity|]. eexists.
    cbn [List.filter socket_event verdict_event app]. rewrite !List.filter_app.
    rewrite filter_log by reflexivity. reflexivity.
  - rewrite !run_bind, send_eq. cbn [result after trace fst snd app].
    split; [split; discriminate|]. eexists.
    cbn [List.filter socket_event verdict_event app]. rewrite !List.filter_app.
    rewrite filter_log by reflexivity. reflexivity.
Qed.

End HandshakeEdges.

Lemma authenticate_nothing_received_witness :
  let w := sample_world [Shutdown] in
  nothing_to_read (inbox w)
  /\ result (authenticate SHA224.evp w) = false
  /\ Forall (fun e => ~ find_event e) (trace (authenticate SHA224.evp w)).
Proof.
  intros w.
  pose proof (authenticate_nothing_received SHA224.evp w I) as (Hres & _ & Hfind & _).
  split; [exact I|]. split; [exact Hres | exact Hfind].
Defined.

Lemma salt_not_sent_ends_handshake_witness :
  let w := set_outcomes [SendPartial 5] (sample_world [Data "user"; Data "late"]) in
  known w !! received_string "user" = Some "P@ssW0rd"
  /\ next_send w 16 = 5
  /\ result (authenticate SHA224.evp w) = false
  /\ inbox (after (authenticate SHA224.evp w)) = [Data "late"].
Proof.
  intros w.
  assert (Hk : known w !! received_string "user" = Some "P@ssW0rd") by reflexivity.
  assert (Hs : next_send w 16 <> 16) by (vm_compute; discriminate).
  pose proof (salt_not_sent_ends_handshake SHA224.evp w "user" "P@ssW0rd" [Data "late"]
                eq_refl ltac:(discriminate) Hk Hs) as (Hres & _ & Hin).
  split; [exact Hk|]. split; [reflexivity|]. split; [exact Hres | exact Hin].
Defined.

Lemma no_response_no_verdict_witness :
  let w := sample_world [Data "user"; Shutdown] in
  known w !! received_string "user" = Some "P@ssW0rd"
  /\ result (authenticate SHA224.evp w) = false.
Proof.
  intros w.
  assert (Hk : known w !! received_string "user" = Some "P@ssW0rd") by reflexivity.
  assert (Hl : (String.length "user" <= 255)%nat) by (vm_compute; lia).
  split; [exact Hk|].
  exact (proj1 (no_response_no_verdict SHA224.evp w "user" "P@ssW0rd" [Shutdown]
                  eq_refl ltac:(discriminate) Hl Hk eq_refl I)).
Defined.

Lemma digest_failure_accepts_empty_response_witness :
  let w := sample_world [Data "user"; Data (String NUL "x")] in
  let failing : string -> option string := fun _ => None in
  known w !! received_string "user" = Some "P@ssW0rd"
  /\ received_string (String NUL "x") = EmptyString
  /\ result (authenticate failing w) = true.
Proof.
  intros w failing.
  assert (Hk : known w !! received_string "user" = Some "P@ssW0rd") by reflexivity.
  assert (Hl : (String.length "user" <= 255)%nat) by (vm_compute; lia).
  split; [exact Hk|]. split; [reflexivity|].
  apply (proj1 (digest_failure_accepts_empty_response failing w "user" (String NUL "x")
                  "P@ssW0rd" [] eq_refl ltac:(discriminate) Hl ltac:(discriminate)
                  Hk eq_refl eq_refl)).
  reflexivity.
Defined.

(** ** The vector exchange, end to end *)

Section Exchange.

Lemma code_char_of z : code (char_of z) = z mod 256.
Proof.
  unfold code, char_of.
  pose proof (Z.mod_pos_bound z 256 ltac:(lia)) as Hb.
  rewrite N_ascii_embedding by lia. lia.
Qed.

Lemma length_le_bytes k : forall n, String.length (le_bytes k n) = k.
Proof. induction k as [|k IH]; intros n; simpl; [reflexivity | now rewrite IH]. Qed.

Lemma le_unsigned_le_bytes k : forall n,
  0 <= n < 256 ^ Z.of_nat k -> le_unsigned (le_bytes k n) = n.
Proof.
  induction k as [|k IH]; intros n Hn.
  - change (256 ^ Z.of_nat 0) with 1 in Hn. simpl. lia.
  - cbn [le_bytes le_unsigned]. rewrite code_char_of, IH.
    + pose proof (Z.div_mod n 256 ltac:(lia)). lia.
    + replace (Z.of_nat (S k)) with (Z.succ (Z.of_nat k)) in Hn by lia.
      rewrite Z.pow_succ_r in Hn by lia.
      split; [apply Z.div_pos; lia | apply Z.div_lt_upper_bound; lia].
Qed.

Lemma uint32_of_le_bytes n : 0 <= n < 2 ^ 32 -> uint32_of (le_bytes 4 n) = n.
Proof.
  intros Hn. unfold uint32_of.
  rewrite str_take_all by (rewrite length_le_bytes; lia).
  apply le_unsigned_le_bytes. exact Hn.
Qed.

Lemma int16_of_bytes x : int16 x -> int16_of (char_of x) (char_of (x mod 65536 / 256)) = x.
Proof.
  unfold int16, INT16_MIN, INT16_MAX, int16_of, to_int16. intros Hx.
  rewrite !code_char_of.
  pose proof (Z.mod_pos_bound x 65536 ltac:(lia)) as Hm.
  assert (Hhi : (x mod 65536 / 256) mod 256 = x mod 65536 / 256).
  { apply Z.mod_small. split; [apply Z.div_pos; lia | apply Z.div_lt_upper_bound; lia]. }
  assert (Hlo : x mod 256 = (x mod 65536) mod 256).
  { symmetry. apply Z.mod_mod_divide. exists 256. lia. }
  rewrite Hhi, Hlo.
  pose proof (Z.div_mod (x mod 65536) 256 ltac:(lia)) as Hd.
  replace (x mod 65536 mod 256 + 256 * (x mod 65536 / 256)) with (x mod 65536) by lia.
  change (2 ^ 15) with 32768. change (2 ^ 16) with 65536.
  rewrite Z.add_mod_idemp_l by lia.
  rewrite Z.mod_small by lia. lia.
Qed.

Lemma int16s_of_encode v : Forall int16 v -> int16s_of (encode_int16s v) = v.
Proof.
  induction 1 as [|x v Hx _ IH]; [reflexivity|].
  cbn [encode_int16s bytes_of_int16 String.append int16s_of].
  now rewrite int16_of_bytes, IH.
Qed.

Lemma length_encode_int16s v : String.length (encode_int16s v) = (2 * length v)%nat.
Proof.
  induction v as [|x v IH]; [reflexivity|].
  cbn [encode_int16s bytes_of_int16 String.append String.length length].
  rewrite IH. lia.
Qed.

Lemma buffer_write_all buf data :
  String.length buf = String.length data -> buffer_write buf 0 data = data.
Proof.
  intros H. unfold buffer_write. cbn [str_take Nat.add].
  assert (Hd : str_drop (String.length data) buf = EmptyString).
  { pose proof (length_str_drop (String.length data) buf) as Hl.
    destruct (str_drop _ buf); [reflexivity | simpl in Hl; lia]. }
  rewrite Hd. destruct buf; cbn [str_take String.append];
    clear; induction data as [|c d IH]; simpl; congruence.
Qed.

Lemma one_segment_cons (a b : string) rest :
  a <> EmptyString -> one_segment (a +:+ b) ++ rest = Data (a +:+ b) :: rest.
Proof. destruct a; [contradiction | reflexivity]. Qed.

(** One [recv] that asks for the bytes at the head of a one-segment
    stream. *)
Lemma recv_segment site buf off (a b : string) rest w :
  inbox w = one_segment (a +:+ b) ++ rest ->
  a <> EmptyString ->
  recv site buf off (str_length a) w
  = ((str_length a, buffer_write buf off a),
     set_inbox (one_segment b ++ rest) w,
     [EvRecv site (str_length a) (str_length a) a]).
Proof.
  intros Hin Ha. rewrite one_segment_cons in Hin by exact Ha.
  rewrite (recv_data site buf off _ w _ _ Hin). cbv zeta.
  assert (Hn : Z.to_nat (str_length a) = String.length a)
    by (unfold str_length; apply Nat2Z.id).
  rewrite Hn, str_take_app, str_drop_app.
  destruct b; reflexivity.
Qed.

Lemma results_sent_app t1 t2 :
  results_sent (t1 ++ t2) = results_sent t1 ++ results_sent t2.
Proof.
  induction t1 as [|e t1 IH]; [reflexivity|].
  destruct e as [| | | | | |[] ? ret| | | | | | | |]; simpl; try exact IH.
  destruct (ret =? 2); simpl; now rewrite IH.
Qed.

Lemma read_vector_segment i (data b : string) rest w buf :
  inbox w = one_segment (data +:+ b) ++ rest ->
  String.length buf = String.length data ->
  let r := read_vector (Z.to_nat (str_length data)) i buf 0 (str_length data) w in
  result r = ReadDone data (str_length data)
  /\ results_sent (trace r) = []
  /\ inbox (after r) = one_segment b ++ rest
  /\ outcomes (after r) = outcomes w.
Proof.
  intros Hin Hbuf. destruct data as [|c data].
  - destruct buf; [|discriminate Hbuf]. repeat split. exact Hin.
  - set (dat := String c data) in *.
    assert (Hne : dat <> EmptyString) by discriminate.
    assert (Hpos : 0 < str_length dat) by (unfold str_length; simpl; lia).
    clearbody dat. cbv zeta.
    destruct (Z.to_nat (str_length dat)) as [|fuel] eqn:Hfuel; [lia|].
    cbn [read_vector].
    destruct (Z.ltb_spec 0 (str_length dat)) as [_|]; [|lia].
    rewrite run_bind. change (Z.to_nat 0) with O. rewrite Z.sub_0_r.
    rewrite (recv_segment _ _ _ _ _ _ _ Hin Hne).
    cbn [result after trace fst snd].
    destruct (Z.leb_spec (str_length dat) 0) as [|_]; [lia|].
    rewrite Z.add_0_l.
    destruct fuel; cbn [read_vector]; rewrite Z.ltb_irrefl;
      rewrite buffer_write_all by exact Hbuf; repeat split.
Qed.

Lemma whole_sends_next w : whole_sends (outcomes w) -> next_send w 2 = 2.
Proof.
  unfold next_send. intros H. destruct (outcomes w); [reflexivity|].
  inversion H; assumption.
Qed.

Lemma whole_sends_tl o : whole_sends o -> whole_sends (tl o).
Proof. intros H. destruct o; [exact H | inversion H; assumption]. Qed.

Lemma process_vector_serves i (v : list Z) (b : string) rest w :
  inbox w = one_segment (encode_vector v +:+ b) ++ rest ->
  Z.of_nat (length v) < 2 ^ 32 ->
  Forall int16 v ->
  next_send w 2 = 2 ->
  result (process_vector i w) = true
  /\ results_sent (trace (process_vector i w))
     = [bytes_of_int16 (calculateSumOfSquares v)]
  /\ inbox (after (process_vector i w)) = one_segment b ++ rest
  /\ outcomes (after (process_vector i w)) = tl (outcomes w).
Proof.
  intros Hin Hlen Hv Hsend.
  unfold encode_vector in Hin. rewrite str_app_assoc in Hin.
  remember (Z.of_nat (length v)) as n eqn:Hn.
  pose proof (recv_segment (AtSize i) (local_array w 4) 0 (le_bytes 4 n) _ rest w Hin
                ltac:(discriminate)) as Hrecv.
  change (str_length (le_bytes 4 n)) with 4 in Hrecv.
  rewrite buffer_write_all in Hrecv by (now rewrite local_array_length).
  unfold process_vector.
  rewrite !run_bind. cbn [result after trace fst snd get_world cout emit].
  rewrite Hrecv. cbn [result after trace fst snd negb Z.eqb Pos.eqb].
  rewrite uint32_of_le_bytes by lia.
  rewrite !run_bind. cbn [result after trace fst snd get_world cout emit].
  set (w1 := set_inbox (one_segment (encode_int16s v +:+ b) ++ rest) w).
  assert (Htotal : size_t_wrap (n * 2) = str_length (encode_int16s v)).
  { unfold size_t_wrap, str_length. rewrite length_encode_int16s.
    rewrite Z.mod_small by lia. lia. }
  rewrite Htotal.
  destruct (read_vector_segment i (encode_int16s v) b rest w1
              (str_repeat NUL (Z.to_nat (n * 2))) eq_refl)
    as (Hres & Htr & Hinb & Hout).
  { rewrite length_str_repeat, length_encode_int16s. lia. }
  cbv zeta in Hres, Htr, Hinb, Hout.
  rewrite Hres. rewrite int16s_of_encode by exact Hv.
  set (w2 := after (read_vector _ _ _ _ _ w1)) in *.
  assert (Hsend2 : next_send w2 2 = 2).
  { unfold next_send in *. rewrite Hout. exact Hsend. }
  rewrite !run_bind. cbn [result after trace fst snd get_world cout emit].
  assert (Hfirst : exists t,
            (match v with
             | [] => mret tt
             | first :: _ => cout ("DEBUG: First value: " +:+ to_string first)
             end) w2 = (tt, w2, t) /\ results_sent t = []).
  { destruct v; eexists; split; reflexivity. }
  destruct Hfirst as (t & Hfirst & Ht). rewrite Hfirst.
  cbn [result after trace fst snd get_world cout emit].
  rewrite send_eq, Hsend2. cbn [result after trace fst snd negb Z.eqb Pos.eqb].
  rewrite !run_bind. cbn [result after trace fst snd get_world cout emit].
  split; [reflexivity|]. split; [|split].
  - rewrite !results_sent_app, Htr, Ht. reflexivity.
  - cbn. exact Hinb.
  - cbn. now rewrite Hout.
Qed.

Lemma vector_loop_serves (vs : list (list Z)) : forall i (b : string) rest w,
  inbox w = one_segment (encode_vectors vs +:+ b) ++ rest ->
  Forall (fun v => Z.of_nat (length v) < 2 ^ 32 /\ Forall int16 v) vs ->
  whole_sends (outcomes w) ->
  result (vector_loop (length vs) i w) = true
  /\ results_sent (trace (vector_loop (length vs) i w))
     = map (fun v => bytes_of_int16 (calculateSumOfSquares v)) vs
  /\ inbox (after (vector_loop (length vs) i w)) = one_segment b ++ rest.
Proof.
  induction vs as [|v vs IH]; intros i b rest w Hin Hvs Hsends.
  - repeat split. exact Hin.
  - inversion Hvs as [|? ? [Hlen Hv] Hvs']; subst.
    cbn [encode_vectors] in Hin. rewrite str_app_assoc in Hin.
    destruct (process_vector_serves i v _ rest w Hin Hlen Hv (whole_sends_next w Hsends))
      as (Hres & Htr & Hinb & Hout).
    cbn [length vector_loop]. rewrite run_bind, Hres.
    cbn [result after trace fst snd].
    destruct (IH (i + 1) b rest (after (process_vector i w)) Hinb Hvs')
      as (Hres' & Htr' & Hinb').
    { rewrite Hout. apply whole_sends_tl. exact Hsends. }
    split; [exact Hres'|]. split; [|exact Hinb'].
    rewrite results_sent_app, Htr, Htr'. reflexivity.
Qed.

Lemma str_app_nil s : s +:+ EmptyString = s.
Proof. induction s as [|c s IH]; simpl; congruence. Qed.

(** The same with bytes of a later message behind the request, in the
    same segment. *)
Lemma processVectors_run (w : World) (vs : list (list Z)) (b : string)
      (rest : list arrival) :
  inbox w = Data (encode_request vs +:+ b) :: rest ->
  Z.of_nat (length vs) < 2 ^ 32 ->
  Forall (fun v => Z.of_nat (length v) < 2 ^ 32 /\ Forall int16 v) vs ->
  whole_sends (outcomes w) ->
  results_sent (trace (processVectors w))
  = map (fun v => bytes_of_int16 (calculateSumOfSquares v)) vs
  /\ inbox (after (processVectors w)) = one_segment b ++ rest.
Proof.
  intros Hin Hlen Hvs Hsends.
  remember (Z.of_nat (length vs)) as n eqn:Hn.
  assert (Hin' : inbox w = one_segment (le_bytes 4 n +:+ encode_vectors vs +:+ b)
                           ++ rest).
  { rewrite Hin. unfold encode_request. rewrite <- Hn, str_app_assoc. reflexivity. }
  pose proof (recv_segment AtCount (local_array w 4) 0 (le_bytes 4 n) _ rest w Hin'
                ltac:(discriminate)) as Hrecv.
  change (str_length (le_bytes 4 n)) with 4 in Hrecv.
  rewrite buffer_write_all in Hrecv by (now rewrite local_array_length).
  unfold processVectors.
  rewrite !run_bind. cbn [result after trace fst snd get_world cout emit].
  rewrite Hrecv. cbn [result after trace fst snd negb Z.eqb Pos.eqb].
  rewrite uint32_of_le_bytes by lia.
  rewrite !run_bind. cbn [result after trace fst snd get_world cout emit].
  replace (Z.to_nat n) with (length vs) by lia.
  match goal with |- context [vector_loop (length vs) 0 ?w'] => set (w1 := w') end.
  destruct (vector_loop_serves vs 0 b rest w1 eq_refl Hvs Hsends)
    as (Hres & Htr & Hinb).
  rewrite Hres. cbn [result after trace fst snd get_world cout emit].
  split; [|exact Hinb].
  rewrite !results_sent_app, Htr. cbn. now rewrite app_nil_r.
Qed.

(** X15. A request that arrives in one segment, laid out as the code
    reads it (the count in four bytes, then for every vector its length
    in four bytes and its [int16_t] values, all in native order), is
    answered in full: [processVectors] sends back, in order, exactly the
    two bytes of [calculateSumOfSquares] of each vector, and reads the
    request and nothing beyond it. *)
Theorem processVectors_serves_request (w : World) (vs : list (list Z))
        (rest : list arrival) :
  inbox w = Data (encode_request vs) :: rest ->
  Z.of_nat (length vs) < 2 ^ 32 ->
  Forall (fun v => Z.of_nat (length v) < 2 ^ 32 /\ Forall int16 v) vs ->
  whole_sends (outcomes w) ->
  results_sent (trace (processVectors w))
  = map (fun v => bytes_of_int16 (calculateSumOfSquares v)) vs
  /\ inbox (after (processVectors w)) = rest.
Proof.
  intros Hin Hlen Hvs Hsends.
  rewrite <- (str_app_nil (encode_request vs)) in Hin.
  destruct (processVectors_run w vs EmptyString rest Hin Hlen Hvs Hsends)
    as [Hsent Hleft].
  split; [exact Hsent | exact Hleft].
Qed.


(** X16. The count is read with a single [recv]: when what that call
    finds is shorter than four bytes (or nothing), [processVectors] makes
    this one socket call and no other, so nothing is sent back even if
    the rest of the count is in the next segment. *)
Theorem count_must_arrive_whole (w : World) :
  (forall seg rest, inbox w = Data seg :: rest -> (String.length seg < 4)%nat) ->
  exists ret data,
    ret <> 4
    /\ List.filter socket_event (trace (processVectors w)) = [EvRecv AtCount 4 ret data].
Proof.
  intros Hshort.
  assert (Hrecv : exists ret data,
             ret <> 4
             /\ (result (recv AtCount (local_array w 4) 0 4 w)).1 = ret
             /\ trace (recv AtCount (local_array w 4) 0 4 w) = [EvRecv AtCount 4 ret data]).
  { unfold recv. destruct (inbox w) as [|[seg| |] rest0] eqn:Hin.
    - exists 0, EmptyString. split; [lia | split; reflexivity].
    - specialize (Hshort seg rest0 eq_refl).
      exists (str_length (str_take (Z.to_nat 4) seg)), (str_take (Z.to_nat 4) seg).
      split; [|split; reflexivity].
      unfold str_length. rewrite length_str_take. lia.
    - exists 0, EmptyString. split; [lia | split; reflexivity].
    - exists (-1), EmptyString. split; [lia | split; reflexivity]. }
  destruct Hrecv as (ret & data & Hret & Hres & Htrace).
  exists ret, data. split; [exact Hret|].
  unfold processVectors.
  rewrite !run_bind. cbn [result after trace fst snd get_world cout emit].
  rewrite Hres, Htrace.
  destruct (Z.eqb_spec ret 4) as [|_]; [contradiction|]. cbn [negb].
  rewrite !run_bind. cbn [result after trace fst snd get_world cout emit app].
  cbn [List.filter socket_event]. rewrite filter_log by reflexivity. reflexivity.
Qed.

End Exchange.

Lemma processVectors_serves_request_witness :
  let vs := [[1; 2; 3; 4]; [200; 200]; []] in
  let w := sample_world [Data (encode_request vs)] in
  whole_sends (outcomes w)
  /\ results_sent (trace (processVectors w))
     = [bytes [30; 0]; bytes [255; 127]; bytes [0; 0]].
Proof.
  intros vs w.
  assert (Hs : whole_sends (outcomes w)) by constructor.
  assert (Hv : Forall (fun v => Z.of_nat (length v) < 2 ^ 32 /\ Forall int16 v) vs).
  { unfold int16, INT16_MIN, INT16_MAX.
    repeat first [apply Forall_nil_2 | apply Forall_cons_2 | split]; cbn [length]; lia. }
  assert (Hn : Z.of_nat (length vs) < 2 ^ 32) by (cbn [length vs]; lia).
  split; [exact Hs|].
  exact (proj1 (processVectors_serves_request w vs [] eq_refl Hn Hv Hs)).
Defined.

Lemma count_must_arrive_whole_witness :
  let w := sample_world [Data (bytes [2; 0]); Data (bytes [0; 0])] in
  (forall seg rest, inbox w = Data seg :: rest -> (String.length seg < 4)%nat)
  /\ exists ret data,
       ret <> 4
       /\ List.filter socket_event (trace (processVectors w)) = [EvRecv AtCount 4 ret data].
Proof.
  intros w.
  assert (H : forall seg rest, inbox w = Data seg :: rest -> (String.length seg < 4)%nat).
  { intros seg rest [= <- _]. cbn. lia. }
  split; [exact H | exact (count_must_arrive_whole w H)].
Defined.

(** ** The first failure ends the exchange *)

Section Failure.

Lemma clean_nil : stops_at_failure [].
Proof. intros pre e post H. destruct pre; discriminate H. Qed.

Lemma clean_cons_sound e t :
  ~ failed_call e -> stops_at_failure t -> stops_at_failure (e :: t).
Proof.
  intros He Ht pre e' post H Hf. destruct pre as [|p pre]; simpl in H.
  - injection H as <- _. contradiction.
  - injection H as _ H. exact (Ht _ _ _ H Hf).
Qed.

Lemma silent_not_failed e : silent e -> ~ failed_call e.
Proof. destruct e as [| | | | |[]|[]| | | | | | | |]; cbn; intros H; try discriminate H; tauto. Qed.

Lemma clean_silent t : Forall silent t -> stops_at_failure t.
Proof.
  intros Ht pre e post -> _. apply Forall_app in Ht as [_ Ht].
  inversion Ht; assumption.
Qed.

Lemma clean_cons_last e t : Forall silent t -> stops_at_failure (e :: t).
Proof.
  intros Ht pre e' post H Hf. destruct pre as [|p pre]; simpl in H.
  - injection H as _ <-. exact Ht.
  - injection H as _ H. exact (clean_silent t Ht _ _ _ H Hf).
Qed.

Lemma clean_app_sound t1 t2 :
  Forall (fun e => ~ failed_call e) t1 -> stops_at_failure t2 ->
  stops_at_failure (t1 ++ t2).
Proof.
  induction 1 as [|e t1 He _ IH]; intros Ht2; [exact Ht2|].
  apply clean_cons_sound; auto.
Qed.

Lemma clean_app_silent t1 t2 :
  stops_at_failure t1 -> Forall silent t2 -> stops_at_failure (t1 ++ t2).
Proof.
  intros H1 H2 pre e post H Hf.
  destruct (split_app _ _ _ _ _ H) as [(k & Hk)|(k & -> & Hk)].
  - pose proof (H1 _ _ _ Hk Hf) as Hpost.
    assert (Hp : post = k ++ t2).
    { rewrite Hk in H. rewrite <- app_assoc in H. simpl in H.
      apply app_inv_head in H. now injection H. }
    rewrite Hp. apply Forall_app. split; assumption.
  - rewrite Hk in H2. apply Forall_app in H2 as [_ H2]. inversion H2; assumption.
Qed.

Lemma run_ret {A} (a : A) (w : World) : (mret a : M A) w = (a, w, []).
Proof. reflexivity. Qed.

Lemma recv_event site buf off len w :
  exists data,
    trace (recv site buf off len w)
    = [EvRecv site len (result (recv site buf off len w)).1 data].
Proof.
  unfold recv. destruct (inbox w) as [|[seg| |] rest]; eexists; reflexivity.
Qed.

Lemma silent_log msg crit w : Forall silent (trace (logError msg crit w)).
Proof. apply (emits_logError silent). reflexivity. Qed.

Ltac hush :=
  repeat match goal with
    | H : Forall ?P ?t |- Forall ?P ?t => exact H
    | |- Forall _ [] => apply Forall_nil_2
    | |- Forall _ (_ :: _) => apply Forall_cons_2; [reflexivity|]
    | |- Forall _ (_ ++ _) => apply Forall_app_2
    | |- Forall _ (trace (logError _ _ _)) => apply silent_log
    end.

Ltac sound :=
  repeat match goal with
    | H : Forall ?P ?t |- Forall ?P ?t => exact H
    | |- Forall _ [] => apply Forall_nil_2
    | |- Forall _ (_ :: _) =>
        apply Forall_cons_2; [cbn; first [tauto | lia | intros []]|]
    | |- Forall _ (_ ++ _) => apply Forall_app_2
    end.

Ltac tidy :=
  repeat match goal with
    | H : stops_at_failure ?t |- stops_at_failure ?t => exact H
    | |- stops_at_failure [] => apply clean_nil
    | |- stops_at_failure (_ :: _) =>
        first [ apply clean_cons_sound; [solve [cbn; first [tauto | lia | intros []]]|]
              | apply clean_cons_last; solve [hush] ]
    | |- stops_at_failure (_ ++ _) =>
        first [ apply clean_app_sound; [assumption|]
              | apply clean_app_silent; [assumption | solve [hush]] ]
    end.

Lemma silent_sound t : Forall silent t -> Forall (fun e => ~ failed_call e) t.
Proof. induction 1; constructor; auto using silent_not_failed. Qed.

Lemma read_vector_clean fuel : forall i buf n total w,
  stops_at_failure (trace (read_vector fuel i buf n total w))
  /\ (result (read_vector fuel i buf n total w) <> ReadFailed ->
      Forall (fun e => ~ failed_call e) (trace (read_vector fuel i buf n total w))).
Proof.
  induction fuel as [|fuel IH]; intros i buf n total w; cbn [read_vector].
  - destruct (n <? total); (split; [apply clean_nil | intros _; constructor]).
  - destruct (n <? total); [|split; [apply clean_nil | intros _; constructor]].
    rewrite run_bind. cbn [result after trace fst snd].
    destruct (recv_event (AtData i) buf (Z.to_nat n) (total - n) w) as (data & Hrecv).
    rewrite Hrecv. set (r := recv _ _ _ _ w).
    destruct (Z.leb_spec (result r).1 0) as [Hle|Hgt].
    + rewrite !run_bind, run_ret. cbn [result after trace fst snd cout emit app].
      split; [|intros H; now contradiction H].
      apply clean_cons_last. hush.
    + destruct (IH i (result r).2 (n + (result r).1) total (after r)) as [Hc Hs].
      cbn [app]. split.
      * apply clean_cons_sound; [cbn; lia | exact Hc].
      * intros H. apply Forall_cons_2; [cbn; lia | exact (Hs H)].
Qed.

Lemma process_vector_clean i w :
  stops_at_failure (trace (process_vector i w))
  /\ (result (process_vector i w) = true ->
      Forall (fun e => ~ failed_call e) (trace (process_vector i w))).
Proof.
  unfold process_vector.
  rewrite !run_bind. cbn [result after trace fst snd get_world cout emit app].
  destruct (recv_event (AtSize i) (local_array w 4) 0 4 w) as (data & Hrecv).
  rewrite Hrecv. set (r := recv _ _ _ _ w).
  destruct (Z.eqb_spec (result r).1 4) as [H4|H4]; cbn [negb].
  2:{ rewrite !run_bind, run_ret. cbn [result after trace fst snd get_world cout emit app].
      split; [|discriminate].
      apply clean_cons_sound; [intros []|]. apply clean_cons_last. hush. }
  rewrite !run_bind. cbn [result after trace fst snd get_world cout emit app].
  match goal with |- context [read_vector ?f i ?b 0 ?t ?w'] =>
    destruct (read_vector_clean f i b 0 t w') as [Hc Hs];
    set (rv := read_vector f i b 0 t w') in *
  end.
  destruct (result rv) as [buffer totalRead| |] eqn:Hrv.
  - specialize (Hs ltac:(discriminate)).
    rewrite !run_bind. cbn [result after trace fst snd get_world cout emit app].
    assert (Hfirst : exists t,
              (match int16s_of buffer with
               | [] => mret tt
               | first :: _ => cout ("DEBUG: First value: " +:+ to_string first)
               end) (after rv) = (tt, after rv, t) /\ Forall silent t).
    { destruct (int16s_of buffer); eexists; (split; [reflexivity|]); hush. }
    destruct Hfirst as (t & Hfirst & Ht). rewrite Hfirst.
    pose proof (silent_sound t Ht) as Ht'.
    cbn [result after trace fst snd get_world cout emit app].
    rewrite send_eq. cbn [result after trace fst snd].
    destruct (Z.eqb_spec (next_send (after rv) 2) 2) as [H2|H2]; cbn [negb];
      rewrite !run_bind, ?run_ret;
      cbn [result after trace fst snd get_world cout emit app].
    + split; [tidy | intros _; sound].
    + split; [tidy | discriminate].
  - rewrite run_ret. cbn [result after trace fst snd].
    split; [tidy | discriminate].
  - rewrite run_ret. cbn [result after trace fst snd].
    split; [tidy | discriminate].
Qed.

Lemma vector_loop_clean todo : forall i w,
  stops_at_failure (trace (vector_loop todo i w)).
Proof.
  induction todo as [|todo IH]; intros i w; cbn [vector_loop].
  - apply clean_nil.
  - rewrite run_bind. cbn [result after trace fst snd].
    destruct (process_vector_clean i w) as [Hc Hs].
    destruct (result (process_vector i w)).
    + apply clean_app_sound; [exact (Hs eq_refl) | apply IH].
    + rewrite run_ret. cbn [trace snd]. apply clean_app_silent; [exact Hc | constructor].
Qed.

(** X17. Once a socket call of [processVectors] has failed (a count or
    a length that did not come as four bytes, a read of vector data that
    returned nothing, a result that did not go out as two bytes), no
    further call is made on the socket. *)
Theorem nothing_after_a_failed_call (w : World) (pre post : list event) (e : event) :
  trace (processVectors w) = pre ++ e :: post ->
  failed_call e ->
  Forall (fun e' => socket_event e' = false) post.
Proof.
  revert pre e post. change (stops_at_failure (trace (processVectors w))).
  unfold processVectors.
  rewrite !run_bind. cbn [result after trace fst snd get_world cout emit app].
  destruct (recv_event AtCount (local_array w 4) 0 4 w) as (data & Hrecv).
  rewrite Hrecv. set (r := recv _ _ _ _ w).
  destruct (Z.eqb_spec (result r).1 4) as [H4|H4]; cbn [negb].
  - rewrite !run_bind. cbn [result after trace fst snd get_world cout emit app].
    match goal with |- context [vector_loop ?n 0 ?w'] =>
      pose proof (vector_loop_clean n 0 w') as Hc;
      set (lp := vector_loop n 0 w') in *
    end.
    assert (Hlast : exists t,
              (if (result lp : bool)
               then cout ("DEBUG: All " +:+ to_string (uint32_of (result r).2)
                          +:+ " vectors processed successfully")
               else mret tt) (after lp) = (tt, after lp, t) /\ Forall silent t).
    { destruct (result lp); eexists; (split; [reflexivity|]); hush. }
    destruct Hlast as (t & Hlast & Ht). rewrite Hlast. cbn [trace snd].
    tidy.
  - rewrite !run_bind. cbn [result after trace fst snd get_world cout emit app].
    tidy.
Qed.

End Failure.

Lemma nothing_after_a_failed_call_witness :
  let w := sample_world [Data (bytes [1; 0; 0; 0]); Data (bytes [2; 0; 0; 0; 5; 0])] in
  let t := trace (processVectors w) in
  t = firstn 9 t ++ EvRecv (AtData 0) 2 0 EmptyString :: skipn 10 t
  /\ Forall (fun e => socket_event e = false) (skipn 10 t).
Proof.
  intros w t.
  assert (Hsplit : t = firstn 9 t ++ EvRecv (AtData 0) 2 0 EmptyString :: skipn 10 t)
    by (vm_compute; reflexivity).
  split; [exact Hsplit|].
  apply (nothing_after_a_failed_call w _ _ _ Hsplit). cbn. lia.
Defined.

(** ** [readExact] and the loop that repeats it *)

Section ReadExact.

Lemma str_drop_drop m : forall n s, str_drop n (str_drop m s) = str_drop (m + n) s.
Proof.
  induction m as [|m IH]; intros n [|c s]; cbn [str_drop Nat.add]; try reflexivity.
  - now destruct n.
  - apply IH.
Qed.

Lemma str_take_drop n : forall s, str_take n s +:+ str_drop n s = s.
Proof. induction n as [|n IH]; intros [|c s]; simpl; try reflexivity. now rewrite IH. Qed.

Lemma str_take_app_plus a t n :
  str_take (String.length a + n) (a +:+ t) = a +:+ str_take n t.
Proof. induction a as [|c a IH]; simpl; [reflexivity | now rewrite IH]. Qed.

Lemma str_drop_app_plus a t n :
  str_drop (String.length a + n) (a +:+ t) = str_drop n t.
Proof. induction a as [|c a IH]; simpl; [reflexivity | exact IH]. Qed.

Lemma buffer_write_cons c buf off data :
  buffer_write (String c buf) (S off) data = String c (buffer_write buf off data).
Proof. reflexivity. Qed.

Lemma buffer_write_nil buf off : buffer_write buf off EmptyString = buf.
Proof.
  unfold buffer_write. cbn [String.length String.append]. rewrite Nat.add_0_r.
  apply str_take_drop.
Qed.

(** Two successive writes, the second where the first ended, are one. *)
Lemma buffer_write_app off : forall buf a d,
  (off + String.length a + String.length d <= String.length buf)%nat ->
  buffer_write (buffer_write buf off a) (off + String.length a) d
  = buffer_write buf off (a +:+ d).
Proof.
  induction off as [|off IH]; intros buf a d Hlen.
  - unfold buffer_write. cbn [str_take Nat.add String.append].
    rewrite str_take_app, str_drop_app_plus, str_drop_drop, length_app.
    now rewrite str_app_assoc.
  - destruct buf as [|c buf]; [simpl in Hlen; lia|].
    cbn [Nat.add]. rewrite !buffer_write_cons. f_equal.
    apply IH. simpl in Hlen. lia.
Qed.

Lemma length_buffer_write_at off : forall buf data,
  (off + String.length data <= String.length buf)%nat ->
  String.length (buffer_write buf off data) = String.length buf.
Proof.
  intros buf data H. unfold buffer_write.
  rewrite !length_app, length_str_take, length_str_drop. lia.
Qed.

Lemma drain_0 inbox : drain 0 inbox = Some (EmptyString, inbox).
Proof. destruct inbox; reflexivity. Qed.

Lemma drain_length inbox : forall n data behind,
  drain n inbox = Some (data, behind) -> String.length data = n.
Proof.
  induction inbox as [|a rest IH]; intros n data behind H.
  - destruct n; [injection H as <- _; reflexivity | discriminate H].
  - destruct n as [|n]; [injection H as <- _; reflexivity|].
    cbn [drain] in H. destruct a as [seg| |]; try discriminate H.
    destruct (empty seg); [discriminate H|].
    destruct (Nat.leb_spec (String.length seg) (S n)) as [Hle|Hgt].
    + destruct (drain (S n - String.length seg) rest) as [[d l]|] eqn:Hd;
        [|discriminate H].
      injection H as <- _. rewrite length_app, (IH _ _ _ Hd). lia.
    + assert (Hd : data = str_take (S n) seg) by congruence.
      rewrite Hd, length_str_take. lia.
Qed.

Lemma readExact_loop_spec fuel : forall site buf total size w,
  0 <= total <= size ->
  (Z.to_nat (size - total) <= fuel)%nat ->
  (Z.to_nat size <= String.length buf)%nat ->
  let r := readExact_loop fuel site buf total size w in
  match drain (Z.to_nat (size - total)) (inbox w) with
  | Some (data, behind) =>
      result r = (Some true, buffer_write buf (Z.to_nat total) data)
      /\ inbox (after r) = behind
  | None => (result r).1 = Some false
  end.
Proof.
  induction fuel as [|fuel IH]; intros site buf total size w Ht Hfuel Hbuf r; subst r.
  - replace total with size by lia. rewrite Z.sub_diag.
    cbn [readExact_loop Z.to_nat]. rewrite drain_0, Z.ltb_irrefl, run_ret.
    cbn [result after fst snd]. now rewrite buffer_write_nil.
  - cbn [readExact_loop]. destruct (Z.ltb_spec total size) as [Hlt|Hge].
    2:{ replace total with size by lia. rewrite Z.sub_diag. cbn [Z.to_nat].
        rewrite drain_0, run_ret. cbn [result after fst snd]. now rewrite buffer_write_nil. }
    destruct (Z.to_nat (size - total)) as [|n] eqn:Hn; [lia|].
    rewrite run_bind.
    assert (Hnone : nothing_to_read (inbox w) ->
              (result
                 ((if (result (recv site buf (Z.to_nat total) (size - total) w)).1 <=? 0
                   then mret (Some false,
                              (result (recv site buf (Z.to_nat total) (size - total) w)).2)
                   else readExact_loop fuel site
                          (result (recv site buf (Z.to_nat total) (size - total) w)).2
                          (total + (result (recv site buf (Z.to_nat total)
                                                 (size - total) w)).1) size)
                    (after (recv site buf (Z.to_nat total) (size - total) w)))).1
              = Some false).
    { intros Hno.
      destruct (recv_nothing site buf (Z.to_nat total) (size - total) w Hno)
        as (ret & Hret & Hres & _).
      rewrite Hres. destruct (Z.leb_spec ret 0) as [_|]; [|lia].
      now rewrite run_ret. }
    destruct (inbox w) as [|[seg| |] rest] eqn:Hin; cbn [drain];
      try (apply Hnone; exact I).
    destruct seg as [|c seg]; [apply Hnone; reflexivity|]. clear Hnone.
    set (sg := String c seg) in *.
    assert (Hsg : (0 < String.length sg)%nat) by (simpl; lia).
    assert (Hempty : empty sg = false) by reflexivity. clearbody sg.
    rewrite Hempty.
    rewrite (recv_data site buf (Z.to_nat total) (size - total) w sg rest Hin).
    cbv zeta. cbn [result after trace fst snd]. rewrite Hn.
    destruct (Nat.leb_spec (String.length sg) (S n)) as [Hle|Hgt].
    + rewrite (str_take_all _ _ Hle).
      assert (Hd : str_drop (S n) sg = EmptyString).
      { pose proof (length_str_drop (S n) sg) as Hl.
        destruct (str_drop (S n) sg); [reflexivity | simpl in Hl; lia]. }
      rewrite Hd. cbn [empty].
      destruct (Z.leb_spec (str_length sg) 0) as [Hz|_];
        [unfold str_length in Hz; lia|].
      specialize (IH site (buffer_write buf (Z.to_nat total) sg)
                     (total + str_length sg) size (set_inbox rest w)).
      unfold str_length in *.
      replace (Z.to_nat (size - (total + Z.of_nat (String.length sg))))
        with (S n - String.length sg)%nat in IH by lia.
      cbn [inbox set_inbox] in IH.
      specialize (IH ltac:(lia) ltac:(lia)).
      rewrite length_buffer_write_at in IH by lia.
      specialize (IH Hbuf). cbv zeta in IH.
      destruct (drain (S n - String.length sg) rest) as [[data behind]|] eqn:Hdr;
        cbv beta iota in IH.
      * destruct IH as [Hres Hinb]. split; [|exact Hinb].
        rewrite Hres. f_equal.
        pose proof (drain_length _ _ _ _ Hdr) as Hdl.
        replace (Z.to_nat (total + Z.of_nat (String.length sg)))
          with (Z.to_nat total + String.length sg)%nat by lia.
        apply buffer_write_app. lia.
      * exact IH.
    + assert (Hlen : String.length (str_take (S n) sg) = S n)
        by (rewrite length_str_take; lia).
      unfold str_length. rewrite Hlen.
      destruct (Z.leb_spec (Z.of_nat (S n)) 0) as [|_]; [lia|].
      replace (total + Z.of_nat (S n)) with size by lia.
      assert (Hd : empty (str_drop (S n) sg) = false).
      { pose proof (length_str_drop (S n) sg) as Hl.
        destruct (str_drop (S n) sg); [simpl in Hl; lia | reflexivity]. }
      rewrite Hd.
      destruct fuel; cbn [readExact_loop]; rewrite Z.ltb_irrefl, run_ret;
        cbn [result after fst snd inbox set_inbox]; split; reflexivity.
Qed.

(** X18. [readExact] returns [true] exactly when [size] bytes can be put
    together from the successive segments of the socket; the buffer then
    holds them from its start on, and the socket is left right behind
    them, a segment that was only read in part being kept.  It returns
    [false] when the stream ends, fails or stalls before that.  The
    bound of the model is never what stops the loop. *)
Theorem readExact_reads_exactly (site : recv_site) (buffer : string) (size : Z)
        (w : World) :
  0 <= size ->
  (Z.to_nat size <= String.length buffer)%nat ->
  match drain (Z.to_nat size) (inbox w) with
  | Some (data, behind) =>
      result (readExact site buffer size w) = (Some true, buffer_write buffer 0 data)
      /\ inbox (after (readExact site buffer size w)) = behind
  | None => (result (readExact site buffer size w)).1 = Some false
  end.
Proof.
  intros Hsize Hbuf. unfold readExact.
  pose proof (readExact_loop_spec (Z.to_nat size) site buffer 0 size w
                ltac:(lia) ltac:(lia) Hbuf) as H.
  cbv zeta in H. rewrite Z.sub_0_r in H. exact H.
Qed.


Lemma recv_bound site buf off len w :
  0 < len -> (result (recv site buf off len w)).1 <= len.
Proof.
  intros Hlen. unfold recv.
  destruct (inbox w) as [|[seg| |] rest]; cbn [result fst]; try lia.
  unfold str_length. rewrite length_str_take. lia.
Qed.

(** X19. The read loop inside [processVectors] is [readExact] written
    out again: on every socket, from every state of the loop, both end
    the same way, with the same buffer, the same socket calls and the
    same bytes left unread; and when the loop of [processVectors] ends
    well, [totalRead] is [totalBytesToRead]. *)
Theorem read_vector_is_readExact (fuel : nat) (i : Z) (buf : string) (n total : Z)
        (w : World) :
  let rv := read_vector fuel i buf n total w in
  let re := readExact_loop fuel (AtData i) buf n total w in
  (result re).1
  = match result rv with
    | ReadDone _ _ => Some true
    | ReadFailed => Some false
    | ReadFuel => None
    end
  /\ (forall buffer totalRead,
        result rv = ReadDone buffer totalRead ->
        (result re).2 = buffer /\ totalRead = Z.max n total)
  /\ inbox (after rv) = inbox (after re)
  /\ List.filter socket_event (trace rv) = trace re.
Proof.
  revert buf n w. induction fuel as [|fuel IH]; intros buf n w;
    cbn [read_vector readExact_loop].
  - destruct (Z.ltb_spec n total); rewrite !run_ret; cbn [result after trace fst snd];
      (split; [reflexivity|]); (split; [|split; reflexivity]);
      intros b t [=]; subst; split; [reflexivity | lia].
  - destruct (Z.ltb_spec n total).
    2:{ rewrite !run_ret; cbn [result after trace fst snd].
        split; [reflexivity|]. split; [|split; reflexivity].
        intros b t [=]; subst; split; [reflexivity | lia]. }
    rewrite !run_bind. cbn [result after trace fst snd].
    destruct (recv_event (AtData i) buf (Z.to_nat n) (total - n) w) as (data & Hrecv).
    rewrite Hrecv. set (r := recv _ _ _ _ w).
    destruct (Z.leb_spec (result r).1 0) as [Hle|Hgt].
    + rewrite !run_bind, !run_ret. cbn [result after trace fst snd cout emit app].
      rewrite (proj1 (logError_run _ _ _)).
      split; [reflexivity|]. split; [intros b t [=]|]. split; [reflexivity|].
      cbn [List.filter socket_event]. rewrite List.filter_app.
      rewrite filter_log by reflexivity. reflexivity.
    + destruct (IH (result r).2 (n + (result r).1) (after r)) as (H1 & H2 & H3 & H4).
      split; [exact H1|]. split; [|split; [exact H3|]].
      * intros b t Hb. destruct (H2 b t Hb) as [Hbuf Ht]. split; [exact Hbuf|].
        pose proof (recv_bound (AtData i) buf (Z.to_nat n) (total - n) w ltac:(lia))
          as Hbound.
        fold r in Hbound. lia.
      * cbn [List.filter socket_event app]. now rewrite H4.
Qed.

End ReadExact.

Lemma readExact_reads_exactly_witness :
  let w := sample_world [Data "ab"; Data "cdef"] in
  0 <= 4
  /\ result (readExact AtCount (str_repeat NUL 4) 4 w) = (Some true, "abcd")
  /\ inbox (after (readExact AtCount (str_repeat NUL 4) 4 w)) = [Data "ef"].
Proof.
  intros w.
  assert (H0 : 0 <= 4) by lia.
  assert (H1 : (Z.to_nat 4 <= String.length (str_repeat NUL 4))%nat) by (vm_compute; lia).
  split; [exact H0|].
  exact (readExact_reads_exactly AtCount (str_repeat NUL 4) 4 w H0 H1).
Defined.

(** ** Connections, one at a time *)

Section Connections.
Variable evp : string -> option string.

Ltac inert := reflexivity.

Lemma authenticate_inert : emits (fun e => lifecycle_event e = false) (authenticate evp).
Proof. unfold authenticate, challenge. repeat emits_step inert. Qed.

Lemma read_vector_inert fuel : forall i buf n total,
  emits (fun e => lifecycle_event e = false) (read_vector fuel i buf n total).
Proof.
  induction fuel as [|fuel IH]; intros i buf n total; simpl; repeat emits_step inert.
Qed.
#[local] Hint Resolve read_vector_inert : steps.

Lemma process_vector_inert i : emits (fun e => lifecycle_event e = false) (process_vector i).
Proof. unfold process_vector. repeat emits_step inert. Qed.
#[local] Hint Resolve process_vector_inert : steps.

Lemma vector_loop_inert todo : forall i,
  emits (fun e => lifecycle_event e = false) (vector_loop todo i).
Proof. induction todo as [|todo IH]; intros i; simpl; repeat emits_step inert. Qed.
#[local] Hint Resolve vector_loop_inert : steps.

Lemma processVectors_inert : emits (fun e => lifecycle_event e = false) processVectors.
Proof. unfold processVectors. repeat emits_step inert. Qed.

Lemma inert_no_close t :
  Forall (fun e => lifecycle_event e = false) t -> Forall (fun e => close_event e = false) t.
Proof.
  induction 1 as [|e t He _ IH]; constructor; [|exact IH].
  unfold lifecycle_event in He. now apply orb_false_elim in He.
Qed.

Lemma closes_once_here post : Forall log_event post -> closes_once (EvClose :: post).
Proof. intros H. exists [], post. repeat split; [constructor | exact H]. Qed.

Lemma closes_once_app t1 t2 :
  Forall (fun e => close_event e = false) t1 -> closes_once t2 -> closes_once (t1 ++ t2).
Proof.
  intros H1 (pre & post & -> & Hpre & Hpost).
  exists (t1 ++ pre), post. split; [now rewrite <- app_assoc|].
  split; [apply Forall_app_2; assumption | exact Hpost].
Qed.

Lemma closes_once_cons e t :
  close_event e = false -> closes_once t -> closes_once (e :: t).
Proof. intros He Ht. apply (closes_once_app [e]); [repeat constructor; exact He | exact Ht]. Qed.

Lemma log_no_close msg crit w :
  Forall (fun e => close_event e = false) (trace (logError msg crit w)).
Proof. apply (emits_logError (fun e => close_event e = false)). reflexivity. Qed.

(** Where no call is cut short, [handleClient] closes the connection
    once. *)
Lemma handleClient_close (w : World) :
  exists pre post,
    trace (handleClient evp w) = pre ++ EvClose :: post
    /\ Forall (fun e => close_event e = false) pre
    /\ Forall log_event post.
Proof.
  change (closes_once (trace (handleClient evp w))).
  unfold handleClient.
  rewrite !run_bind. cbn [result after trace fst snd get_world cout emit close app].
  apply closes_once_cons; [reflexivity|].
  apply closes_once_app; [apply log_no_close|].
  apply closes_once_app; [apply inert_no_close, authenticate_inert|].
  destruct (result (authenticate evp _)); cbn [negb];
    rewrite !run_bind; cbn [result after trace fst snd get_world cout emit close app].
  - apply closes_once_cons; [reflexivity|].
    apply closes_once_app; [apply log_no_close|].
    apply closes_once_app; [apply inert_no_close, processVectors_inert|].
    apply closes_once_here. apply logError_trace.
  - apply closes_once_app; [apply log_no_close|].
    apply closes_once_here. constructor.
Qed.

Lemma close_unique (pre0 post0 : list event) : forall pre post,
  pre ++ EvClose :: post = pre0 ++ EvClose :: post0 ->
  Forall (fun e => close_event e = false) pre0 ->
  Forall log_event post0 ->
  Forall (fun e => close_event e = false) pre /\ Forall log_event post.
Proof.
  induction pre0 as [|e0 pre0 IH]; intros pre post Heq Hpre Hpost.
  - destruct pre as [|e pre]; cbn [app] in Heq.
    + injection Heq as <-. split; [constructor | exact Hpost].
    + injection Heq as _ Heq. exfalso.
      rewrite <- Heq in Hpost. apply Forall_app in Hpost as [_ Hpost].
      inversion Hpost as [|? ? Hc _]. exact Hc.
  - inversion Hpre as [|? ? He0 Hpre0]; subst.
    destruct pre as [|e pre]; cbn [app] in Heq.
    + injection Heq as <- _. discriminate He0.
    + injection Heq as <- Heq.
      destruct (IH pre post Heq Hpre0 Hpost) as [H1 H2].
      split; [constructor; assumption | exact H2].
Qed.

(** X20. [handleClient] never closes the connection twice and never uses
    it after closing it: before a [close] of a run there is no other
    [close], and behind it there are only log lines.  This is said of
    every [close] that occurs, so it holds as well of a run that is cut
    short by a call that does not return. *)
Theorem handleClient_closes_at_most_once (w : World) (pre post : list event) :
  trace (handleClient evp w) = pre ++ EvClose :: post ->
  Forall (fun e => close_event e = false) pre /\ Forall log_event post.
Proof.
  intros Hsplit.
  destruct (handleClient_close w) as (pre0 & post0 & Heq & Hpre & Hpost).
  rewrite Heq in Hsplit. symmetry in Hsplit.
  exact (close_unique pre0 post0 pre post Hsplit Hpre Hpost).
Qed.


Lemma keeps_loadUserDatabase {X} (f : World -> X) :
  (forall s w, f (set_server s w) = f w) -> keeps f loadUserDatabase.
Proof.
  intros H w. unfold loadUserDatabase.
  destruct (files w !! _); [apply H | apply (keeps_logError f)].
Qed.

Lemma check_log_result w :
  result (check_log w)
  = appendable w (logPath (server w)) || appendable w "./server_fallback.log".
Proof.
  unfold check_log. rewrite run_bind. cbn [result after trace fst snd get_world].
  destruct (appendable w (logPath (server w))); [reflexivity|].
  rewrite !run_bind. cbn [result after trace fst snd get_world cerr emit modify].
  destruct (appendable w "./server_fallback.log"); reflexivity.
Qed.

Lemma keeps_check_log {X} (f : World -> X) :
  (forall s w, f (set_server s w) = f w) -> keeps f check_log.
Proof.
  intros H w. unfold check_log. rewrite run_bind.
  cbn [result after trace fst snd get_world].
  destruct (appendable w (logPath (server w))); [reflexivity|].
  rewrite !run_bind. cbn [result after trace fst snd get_world cerr emit modify].
  destruct (appendable w "./server_fallback.log");
    rewrite ?run_bind, ?run_ret; cbn [after fst snd]; apply H.
Qed.

Ltac forget_logs :=
  repeat match goal with
    | |- context [after (logError ?m ?c ?w')] => rewrite (proj1 (logError_run m c w'))
    end.

(** X22. [start] returns [false] exactly when neither the log file nor
    its fallback can be opened, or one of [socket], [setsockopt], [bind]
    and [listen] fails.  A user database that cannot be read, a failed
    [accept] or anything a client does never makes it return. *)
Theorem start_fails_iff (w : World) :
  result (start evp w) = ReturnedFalse
  <-> (appendable w (logPath (server w)) = false
       /\ appendable w "./server_fallback.log" = false)
      \/ socket_ret w < 0 \/ setsockopt_ret w < 0 \/ bind_ret w < 0 \/ listen_ret w < 0.
Proof.
  unfold start. rewrite run_bind, check_log_result.
  destruct (appendable w (logPath (server w)) || appendable w "./server_fallback.log")
    eqn:Hlog; cbn [negb].
  2:{ rewrite run_ret. apply orb_false_elim in Hlog. cbn [result fst]. tauto. }
  assert (Hnot : ~ (appendable w (logPath (server w)) = false
                    /\ appendable w "./server_fallback.log" = false)).
  { intros [Ha Hb]. rewrite Ha, Hb in Hlog. discriminate Hlog. }
  rewrite !run_bind. cbn [result after trace fst snd get_world emit]. forget_logs.
  rewrite (keeps_loadUserDatabase socket_ret (fun _ _ => eq_refl)),
    (keeps_check_log socket_ret (fun _ _ => eq_refl)).
  destruct (Z.ltb_spec (socket_ret w) 0) as [Hs|Hs].
  { rewrite !run_bind, run_ret. cbn [result fst]. tauto. }
  rewrite !run_bind. cbn [result after trace fst snd get_world emit]. forget_logs.
  rewrite (keeps_loadUserDatabase setsockopt_ret (fun _ _ => eq_refl)),
    (keeps_check_log setsockopt_ret (fun _ _ => eq_refl)).
  destruct (Z.ltb_spec (setsockopt_ret w) 0) as [Ho|Ho].
  { rewrite !run_bind, run_ret. cbn [result fst]. tauto. }
  rewrite !run_bind. cbn [result after trace fst snd get_world emit]. forget_logs.
  rewrite (keeps_loadUserDatabase bind_ret (fun _ _ => eq_refl)),
    (keeps_check_log bind_ret (fun _ _ => eq_refl)).
  destruct (Z.ltb_spec (bind_ret w) 0) as [Hb|Hb].
  { rewrite !run_bind, run_ret. cbn [result fst]. tauto. }
  rewrite !run_bind. cbn [result after trace fst snd get_world emit]. forget_logs.
  rewrite (keeps_loadUserDatabase listen_ret (fun _ _ => eq_refl)),
    (keeps_check_log listen_ret (fun _ _ => eq_refl)).
  destruct (Z.ltb_spec (listen_ret w) 0) as [Hl|Hl].
  { rewrite !run_bind, run_ret. cbn [result fst]. tauto. }
  rewrite !run_bind. cbn [result after trace fst snd get_world emit cout]. forget_logs.
  rewrite (proj1 (accept_loop_spec evp _ _)).
  split; [discriminate | intros [?|[?|[?|[?|?]]]]; try contradiction; lia].
Qed.


Lemma handleClient_lifecycle w :
  List.filter lifecycle_event (trace (handleClient evp w)) = [EvClose].
Proof.
  unfold handleClient.
  rewrite !run_bind. cbn [result after trace fst snd get_world cout emit close app].
  cbn [List.filter lifecycle_event accept_event close_event orb].
  rewrite ?List.filter_app, ?filter_log by reflexivity.
  rewrite (filter_quiet lifecycle_event (authenticate evp) _ authenticate_inert).
  destruct (result (authenticate evp _)); cbn [negb];
    rewrite !run_bind; cbn [result after trace fst snd get_world cout emit close app].
  - cbn [List.filter lifecycle_event accept_event close_event orb].
    rewrite ?List.filter_app, ?filter_log by reflexivity.
    rewrite (filter_quiet lifecycle_event processVectors _ processVectors_inert).
    cbn [List.filter lifecycle_event accept_event close_event orb app].
    rewrite ?List.filter_app, ?filter_log by reflexivity. reflexivity.
  - rewrite ?List.filter_app, ?filter_log by reflexivity. reflexivity.
Qed.

(** Where no call is cut short, the accept loop takes the attempts one
    after the other. *)
Lemma accept_loop_lifecycle (pending : list (option Client)) (w : World) :
  List.filter lifecycle_event (trace (accept_loop evp pending w))
  = flat_map served pending.
Proof.
  revert w. induction pending as [|[client|] later IH]; intros w; cbn [accept_loop].
  - reflexivity.
  - rewrite !run_bind. cbn [result after trace fst snd get_world cout emit modify app].
    cbn [List.filter lifecycle_event accept_event close_event orb].
    rewrite !List.filter_app, handleClient_lifecycle, IH. reflexivity.
  - rewrite !run_bind. cbn [result after trace fst snd get_world cout emit modify app].
    cbn [List.filter lifecycle_event accept_event close_event orb].
    rewrite ?List.filter_app, ?filter_log, IH by reflexivity. reflexivity.
Qed.

Lemma served_before (pending : list (option Client)) : forall before accepted behind,
  flat_map served pending = before ++ EvAccept accepted :: behind ->
  exists k attempt,
    nth_error pending k = Some attempt
    /\ accepted = (match attempt with Some _ => true | None => false end)
    /\ before = flat_map served (firstn k pending).
Proof.
  induction pending as [|[client|] later IH]; intros before accepted behind Heq.
  - destruct before; discriminate Heq.
  - cbn [flat_map served app] in Heq.
    destruct before as [|e [|e' before]]; cbn [app] in Heq.
    + injection Heq as <- _. exists O, (Some client). repeat split.
    + injection Heq as _ Heq _. discriminate Heq.
    + injection Heq as <- <- Heq.
      destruct (IH _ _ _ Heq) as (k & attempt & Hnth & Hacc & Hbefore).
      exists (S k), attempt. split; [exact Hnth|]. split; [exact Hacc|].
      cbn [firstn flat_map served app]. now rewrite Hbefore.
  - cbn [flat_map served app] in Heq.
    destruct before as [|e before]; cbn [app] in Heq.
    + injection Heq as <- _. exists O, None. repeat split.
    + injection Heq as <- Heq.
      destruct (IH _ _ _ Heq) as (k & attempt & Hnth & Hacc & Hbefore).
      exists (S k), attempt. split; [exact Hnth|]. split; [exact Hacc|].
      cbn [firstn flat_map served app]. now rewrite Hbefore.
Qed.

(** X23. The accept loop never has two connections open: whenever
    [accept] is called, every connection accepted before has been closed,
    once, and the failed attempts before it were each followed by the
    next [accept].  This is said of every [accept] that occurs, so it
    holds as well of a run that is cut short by a call that does not
    return. *)
Theorem accept_only_after_close (pending : list (option Client)) (w : World)
        (pre post : list event) (accepted : bool) :
  trace (accept_loop evp pending w) = pre ++ EvAccept accepted :: post ->
  exists k attempt,
    nth_error pending k = Some attempt
    /\ accepted = (match attempt with Some _ => true | None => false end)
    /\ List.filter lifecycle_event pre = flat_map served (firstn k pending).
Proof.
  intros Hsplit.
  pose proof (accept_loop_lifecycle pending w) as Hall.
  rewrite Hsplit, List.filter_app in Hall.
  cbn [List.filter lifecycle_event accept_event close_event orb] in Hall.
  exact (served_before pending _ _ _ (eq_sym Hall)).
Qed.

End Connections.

Lemma handleClient_closes_at_most_once_witness :
  let w := sample_world [Data "mallory"] in
  let t := trace (handleClient SHA224.evp w) in
  t = firstn 7 t ++ EvClose :: skipn 8 t
  /\ Forall (fun e => close_event e = false) (firstn 7 t)
  /\ Forall log_event (skipn 8 t).
Proof.
  intros w t.
  assert (Hsplit : t = firstn 7 t ++ EvClose :: skipn 8 t) by (vm_compute; reflexivity).
  split; [exact Hsplit|].
  exact (handleClient_closes_at_most_once SHA224.evp w _ _ Hsplit).
Defined.

Lemma accept_only_after_close_witness :
  let pending := [Some (mkClient "10.0.0.1:4000" [Data "mallory"] []); None;
                  Some (mkClient "10.0.0.2:4000" [] [])] in
  let t := trace (accept_loop SHA224.evp pending fresh_world) in
  t = firstn 12 t ++ EvAccept true :: skipn 13 t
  /\ exists k attempt,
       nth_error pending k = Some attempt
       /\ true = (match attempt with Some _ => true | None => false end)
       /\ List.filter lifecycle_event (firstn 12 t) = flat_map served (firstn k pending).
Proof.
  intros pending t.
  assert (Hsplit : t = firstn 12 t ++ EvAccept true :: skipn 13 t)
    by (vm_compute; reflexivity).
  split; [exact Hsplit|].
  exact (accept_only_after_close SHA224.evp pending fresh_world _ _ _ Hsplit).
Defined.

(** ** The log file *)

Section LogFile.
Variable evp : string -> option string.

Lemma steady_bind {A B} (m : M A) (k : A -> M B) :
  steady m -> (forall a, steady (k a)) -> steady (m ≫= k).
Proof.
  intros Hm Hk w. destruct (Hm w) as [Hp Ht].
  destruct (Hk (result (m w)) (after (m w))) as [Hp' Ht'].
  rewrite after_bind, trace_bind. split; [congruence|].
  apply Forall_app_2; [exact Ht | now rewrite <- Hp].
Qed.

Lemma steady_ret {A} (a : A) : steady (mret a).
Proof. intros w. split; [reflexivity | constructor]. Qed.

Lemma steady_emit e : logs_to EmptyString e -> (forall p, logs_to p e) -> steady (emit e).
Proof. intros _ H w. split; [reflexivity | repeat constructor; apply H]. Qed.

Lemma steady_get_world : steady get_world.
Proof. intros w. split; [reflexivity | constructor]. Qed.

Lemma steady_logError msg crit : steady (logError msg crit).
Proof.
  intros w. unfold logError. destruct (appendable w _);
    (split; [reflexivity | repeat constructor]).
Qed.

Lemma steady_recv site buf off len : steady (recv site buf off len).
Proof.
  intros w. unfold recv.
  destruct (inbox w) as [|[seg| |] rest]; (split; [reflexivity | repeat constructor]).
Qed.

Lemma steady_send site data len : steady (send site data len).
Proof. intros w. split; [reflexivity | repeat constructor]. Qed.

Lemma steady_generateSalt : steady generateSalt.
Proof. intros w. split; [reflexivity | repeat constructor]. Qed.

Lemma steady_modify g :
  (forall w, logPath (server (g w)) = logPath (server w)) -> steady (modify g).
Proof. intros H w. split; [apply H | constructor]. Qed.

Lemma steady_loadUserDatabase : steady loadUserDatabase.
Proof.
  intros w. unfold loadUserDatabase.
  destruct (files w !! _); [split; [reflexivity | constructor]|].
  apply steady_logError.
Qed.

Ltac steady_step :=
  lazymatch goal with
  | |- steady (_ ≫= _) => apply steady_bind; [|intros ?]
  | |- steady (mret _) => apply steady_ret
  | |- steady (emit _) => apply steady_emit; [exact I | intros ?; exact I]
  | |- steady (cout _) => apply steady_emit; [exact I | intros ?; exact I]
  | |- steady (cerr _) => apply steady_emit; [exact I | intros ?; exact I]
  | |- steady close => apply steady_emit; [exact I | intros ?; exact I]
  | |- steady get_world => apply steady_get_world
  | |- steady (logError _ _) => apply steady_logError
  | |- steady (recv _ _ _ _) => apply steady_recv
  | |- steady (send _ _ _) => apply steady_send
  | |- steady generateSalt => apply steady_generateSalt
  | |- steady (modify _) => apply steady_modify; reflexivity
  | |- steady loadUserDatabase => apply steady_loadUserDatabase
  | |- steady (match ?x with _ => _ end) => destruct x
  | |- _ => first [ progress cbv zeta | solve [auto with steps] ]
  end.

Lemma steady_authenticate : steady (authenticate evp).
Proof. unfold authenticate, challenge. repeat steady_step. Qed.

Lemma steady_read_vector fuel : forall i buf n total,
  steady (read_vector fuel i buf n total).
Proof.
  induction fuel as [|fuel IH]; intros i buf n total; simpl; repeat steady_step.
Qed.
#[local] Hint Resolve steady_read_vector : steps.

Lemma steady_process_vector i : steady (process_vector i).
Proof. unfold process_vector. repeat steady_step. Qed.
#[local] Hint Resolve steady_process_vector : steps.

Lemma steady_vector_loop todo : forall i, steady (vector_loop todo i).
Proof. induction todo as [|todo IH]; intros i; simpl; repeat steady_step. Qed.
#[local] Hint Resolve steady_vector_loop : steps.

Lemma steady_processVectors : steady processVectors.
Proof. unfold processVectors. repeat steady_step. Qed.
#[local] Hint Resolve steady_authenticate steady_processVectors : steps.

Lemma steady_handleClient : steady (handleClient evp).
Proof. unfold handleClient. repeat steady_step. Qed.
#[local] Hint Resolve steady_handleClient : steps.

Lemma steady_accept_loop pending : steady (accept_loop evp pending).
Proof.
  induction pending as [|[client|] later IH]; cbn [accept_loop]; repeat steady_step.
Qed.
#[local] Hint Resolve steady_accept_loop : steps.

Lemma check_log_path w :
  result (check_log w) = true ->
  logPath (server (after (check_log w)))
  = (if appendable w (logPath (server w)) then logPath (server w)
     else "./server_fallback.log").
Proof.
  unfold check_log. rewrite run_bind. cbn [result after trace fst snd get_world].
  destruct (appendable w (logPath (server w))); [reflexivity|].
  rewrite !run_bind. cbn [result after trace fst snd get_world cerr emit modify app].
  destruct (appendable w "./server_fallback.log"); rewrite ?run_bind, ?run_ret;
    cbn [result after trace fst snd get_world cerr emit modify app];
    [reflexivity | discriminate].
Qed.

Lemma check_log_no_log w path level message :
  ~ In (EvLog path level message) (trace (check_log w)).
Proof.
  unfold check_log. rewrite !run_bind. cbn [result after trace fst snd get_world].
  destruct (appendable w (logPath (server w))); [intros []|].
  rewrite !run_bind. cbn [result after trace fst snd get_world cerr emit modify app].
  destruct (appendable w "./server_fallback.log"); rewrite ?run_bind, ?run_ret;
    cbn [result after trace fst snd get_world cerr emit modify app];
    intros H; repeat (destruct H as [H|H]; [discriminate H|]); exact H.
Qed.

(** X21. Every log line written during a run of [start], those of the
    clients it serves included, goes to one file: the configured log
    path when it can be opened, and [./server_fallback.log] when not. *)
Theorem start_logs_to_one_file (w : World) (path level message : string) :
  In (EvLog path level message) (trace (start evp w)) ->
  path = (if appendable w (logPath (server w)) then logPath (server w)
          else "./server_fallback.log").
Proof.
  unfold start. rewrite trace_bind. intros Hin.
  apply in_app_or in Hin as [Hin|Hin]; [now apply check_log_no_log in Hin|].
  destruct (result (check_log w)) eqn:Hok; cbn [negb] in Hin.
  2:{ rewrite run_ret in Hin. destruct Hin. }
  rewrite <- (check_log_path w Hok).
  match type of Hin with In _ (trace (?rest ?w1)) =>
    assert (Hsteady : steady rest) by (repeat steady_step);
    destruct (Hsteady w1) as [_ Hall]
  end.
  exact (proj1 (List.Forall_forall _ _) Hall _ Hin).
Qed.

End LogFile.

Lemma start_logs_to_one_file_witness :
  let w := mkWorld (mkServer 33333 "/scale.conf" "/log/scale.log" ∅) ∅
                   (fun path => String.eqb path "./server_fallback.log")
                   [] "" [] [] 3 0 0 0 [] in
  In (EvLog "./server_fallback.log" "NON-CRITICAL" "=== Server starting ===")
     (trace (start SHA224.evp w))
  /\ appendable w (logPath (server w)) = false.
Proof.
  intros w.
  assert (Hin : In (EvLog "./server_fallback.log" "NON-CRITICAL" "=== Server starting ===")
                   (trace (start SHA224.evp w))).
  { vm_compute. tauto. }
  split; [exact Hin|].
  pose proof (start_logs_to_one_file SHA224.evp w _ _ _ Hin) as H.
  destruct (appendable w (logPath (server w))); [discriminate H | reflexivity].
Defined.

(** ** The command line *)

Section MainMore.
Variable evp : string -> option string.

Lemma help_requested argv :
  existsb (fun arg => String.eqb arg "-h") argv = true <-> In "-h" argv.
Proof.
  rewrite existsb_exists. split.
  - intros (x & Hin & Heq). apply String.eqb_eq in Heq. now subst.
  - intros Hin. exists "-h". split; [exact Hin | reflexivity].
Qed.

Lemma unknown_option_run arg w :
  result (unknown_option arg w) = None
  /\ after (unknown_option arg w) = w
  /\ Forall console_event (trace (unknown_option arg w)).
Proof. split; [|split]; try reflexivity. repeat constructor. Qed.

(** What the option loop does, whatever the arguments. *)
Lemma parse_options_spec : forall (n : nat) args o w,
  (length args <= n)%nat ->
  valid_port (opt_port o) ->
  after (parse_options args o w) = w
  /\ Forall console_event (trace (parse_options args o w))
  /\ (forall o', result (parse_options args o w) = Some o' ->
        valid_port (opt_port o') /\ Nat.even (length args) = true).
Proof.
  assert (Hfail : forall (t : list event) w (args : list string),
            Forall console_event t ->
            after (@pair (option Options * World) _ (None, w) t) = w
            /\ Forall console_event (trace (@pair (option Options * World) _ (None, w) t))
            /\ (forall o', result (@pair (option Options * World) _ (None, w) t) = Some o' ->
                  valid_port (opt_port o') /\ Nat.even (length args) = true)).
  { intros t w args Ht. split; [reflexivity|]. split; [exact Ht | discriminate]. }
  induction n as [|n IH]; intros args o w Hlen Hport.
  - destruct args; [|simpl in Hlen; lia].
    split; [reflexivity|]. split; [constructor|].
    intros o' [= <-]. split; [exact Hport | reflexivity].
  - destruct args as [|arg [|value rest]].
    + split; [reflexivity|]. split; [constructor|].
      intros o' [= <-]. split; [exact Hport | reflexivity].
    + cbn [parse_options]. apply Hfail. repeat constructor.
    + cbn [parse_options length Nat.even].
      assert (Hrest : (length rest <= n)%nat) by (simpl in Hlen; lia).
      destruct (String.eqb arg "-p").
      * destruct (stoi value) as [port|].
        -- destruct ((port <? 1) || (65535 <? port)) eqn:Hrange.
           ++ apply Hfail. repeat constructor.
           ++ apply orb_false_elim in Hrange as [H1 H2].
              apply Z.ltb_ge in H1, H2.
              apply IH; [exact Hrest | split; cbn; lia].
        -- apply Hfail. repeat constructor.
      * destruct (String.eqb arg "-c"); [apply IH; [lia | exact Hport]|].
        destruct (String.eqb arg "-l"); [apply IH; [lia | exact Hport]|].
        apply Hfail. repeat constructor.
Qed.


Ltac client_side := cbn; solve [auto | intros []].

Lemma authenticate_client : emits (fun e => ~ startup_event e) (authenticate evp).
Proof. unfold authenticate, challenge. repeat emits_step client_side. Qed.

Lemma read_vector_client fuel : forall i buf n total,
  emits (fun e => ~ startup_event e) (read_vector fuel i buf n total).
Proof.
  induction fuel as [|fuel IH]; intros i buf n total; simpl; repeat emits_step client_side.
Qed.
#[local] Hint Resolve read_vector_client : steps.

Lemma process_vector_client i : emits (fun e => ~ startup_event e) (process_vector i).
Proof. unfold process_vector. repeat emits_step client_side. Qed.
#[local] Hint Resolve process_vector_client : steps.

Lemma vector_loop_client todo : forall i,
  emits (fun e => ~ startup_event e) (vector_loop todo i).
Proof. induction todo as [|todo IH]; intros i; simpl; repeat emits_step client_side. Qed.
#[local] Hint Resolve vector_loop_client : steps.

Lemma processVectors_client : emits (fun e => ~ startup_event e) processVectors.
Proof. unfold processVectors. repeat emits_step client_side. Qed.
#[local] Hint Resolve authenticate_client processVectors_client : steps.

Lemma handleClient_client : emits (fun e => ~ startup_event e) (handleClient evp).
Proof. unfold handleClient. repeat emits_step client_side. Qed.
#[local] Hint Resolve handleClient_client : steps.

Lemma accept_loop_client pending :
  emits (fun e => ~ startup_event e) (accept_loop evp pending).
Proof.
  induction pending as [|[client|] later IH]; cbn [accept_loop];
    repeat emits_step client_side.
Qed.

Lemma keeps_port_loadUserDatabase : keeps (fun w => port (server w)) loadUserDatabase.
Proof.
  intros w. unfold loadUserDatabase.
  destruct (files w !! _); [reflexivity | apply (keeps_logError (fun w => port (server w)))].
Qed.

Lemma keeps_port_check_log : keeps (fun w => port (server w)) check_log.
Proof.
  intros w. unfold check_log. rewrite run_bind.
  cbn [result after trace fst snd get_world].
  destruct (appendable w (logPath (server w))); [reflexivity|].
  rewrite !run_bind. cbn [result after trace fst snd get_world cerr emit modify].
  destruct (appendable w "./server_fallback.log");
    rewrite ?run_bind, ?run_ret; reflexivity.
Qed.

Lemma check_log_console w : Forall console_event (trace (check_log w)).
Proof.
  unfold check_log. rewrite run_bind. cbn [result after trace fst snd get_world].
  destruct (appendable w (logPath (server w))); [constructor|].
  rewrite !run_bind. cbn [result after trace fst snd get_world cerr emit modify app].
  destruct (appendable w "./server_fallback.log");
    rewrite ?run_bind, ?run_ret; repeat constructor.
Qed.

Lemma client_binds_to p t :
  Forall (fun e => ~ startup_event e) t -> Forall (binds_to p) t.
Proof.
  induction 1 as [|e t He _ IH]; constructor; [|exact IH].
  destruct e; try exact I. contradiction He. exact I.
Qed.

Lemma console_binds_to p t : Forall console_event t -> Forall (binds_to p) t.
Proof.
  induction 1 as [|e t He _ IH]; constructor; [|exact IH].
  destruct e; try exact I. destruct He.
Qed.

Lemma log_binds_to p msg crit w : Forall (binds_to p) (trace (logError msg crit w)).
Proof. apply (emits_logError (binds_to p)). intros; exact I. Qed.

Lemma load_binds_to p w : Forall (binds_to p) (trace (loadUserDatabase w)).
Proof.
  unfold loadUserDatabase. destruct (files w !! _); [constructor | apply log_binds_to].
Qed.

(** The only port [start] ever binds is the one the server was
    constructed with. *)
Lemma start_binds_port w : Forall (binds_to (port (server w))) (trace (start evp w)).
Proof.
  unfold start. explore.
  all: rewrite ?run_ret; cbn [trace snd].
  all: repeat match goal with
         | |- Forall _ [] => constructor
         | |- Forall _ (_ ++ _) => apply Forall_app_2
         | |- Forall _ (trace (check_log _)) => apply console_binds_to, check_log_console
         | |- Forall _ (trace (logError _ _ _)) => apply log_binds_to
         | |- Forall _ (trace (loadUserDatabase _)) => apply load_binds_to
         | |- Forall _ (trace (accept_loop _ _ _)) =>
             apply client_binds_to, accept_loop_client
         | |- Forall _ (EvBind _ _ :: _) => apply Forall_cons_2; [cbn|]
         | |- Forall _ (_ :: _) => apply Forall_cons_2; [exact I|]
         end.
  all: rewrite !(proj1 (logError_run _ _ _)).
  all: rewrite (keeps_port_loadUserDatabase _), (keeps_port_check_log w); reflexivity.
Qed.


(** X24. [main] ends with status 0 exactly when it has only shown the
    help: there is no argument, or one of them is [-h]. *)
Theorem exit_status_zero_means_help (argv : list string) (w : World) :
  result (main evp argv w) = Exited 0 <-> argv = [] \/ In "-h" argv.
Proof.
  unfold main. destruct (existsb _ argv) eqn:Hh.
  - rewrite run_bind, run_ret. cbn [result fst].
    apply help_requested in Hh. tauto.
  - assert (Hno : ~ In "-h" argv).
    { intros Hin. apply help_requested in Hin. congruence. }
    destruct argv as [|arg rest].
    + rewrite run_bind, run_ret. cbn [result fst]. tauto.
    + rewrite run_bind.
      destruct (result (parse_options (arg :: rest) default_options w)) as [o|].
      * rewrite !run_bind. cbn [result after trace fst snd cout emit modify].
        destruct (result (start evp _)); rewrite ?run_bind, ?run_ret; cbn [result fst];
          (split; [discriminate | intros [Hnil|Hin]; [discriminate Hnil | contradiction]]).
      * rewrite run_ret. cbn [result fst].
        split; [discriminate | intros [Hnil|Hin]; [discriminate Hnil | contradiction]].
Qed.

(** X25. Whatever the command line, a port that [main] has the server
    bind lies between 1 and 65535. *)
Theorem main_binds_valid_port (argv : list string) (w : World) (p r : Z) :
  In (EvBind p r) (trace (main evp argv w)) -> valid_port p.
Proof.
  assert (Hconsole : forall t, Forall console_event t -> In (EvBind p r) t -> valid_port p).
  { intros t Ht Hin. destruct (proj1 (List.Forall_forall _ _) Ht _ Hin). }
  unfold main. destruct (existsb _ argv).
  { rewrite run_bind, run_ret. apply Hconsole. repeat constructor. }
  destruct argv as [|arg rest].
  { rewrite run_bind, run_ret. apply Hconsole. repeat constructor. }
  rewrite trace_bind.
  destruct (parse_options_spec (length (arg :: rest)) (arg :: rest) default_options w
              (le_n _) ltac:(split; cbn; lia)) as (Hafter & Htrace & Hres).
  intros Hin. apply in_app_or in Hin as [Hin|Hin]; [exact (Hconsole _ Htrace Hin)|].
  destruct (result (parse_options (arg :: rest) default_options w)) as [o|];
    [|rewrite run_ret in Hin; destruct Hin].
  destruct (Hres o eq_refl) as [Hport _].
  revert Hin. rewrite !run_bind. cbn [result after trace fst snd cout emit modify app].
  intros Hin. repeat (destruct Hin as [Hin|Hin]; [discriminate Hin|]).
  apply in_app_or in Hin as [Hin|Hin].
  - pose proof (proj1 (List.Forall_forall _ _) (start_binds_port _) _ Hin) as Hp.
    cbn in Hp. subst p. exact Hport.
  - destruct (result (start evp _)); rewrite ?run_bind, ?run_ret in Hin;
      cbn [trace snd cerr emit app] in Hin;
      repeat (destruct Hin as [Hin|Hin]; [discriminate Hin|]); destruct Hin.
Qed.

(** X26. Every option takes a value: with an odd number of arguments,
    none of them [-h], [main] ends with status 1 and has only written to
    the terminal; no log line is written and no socket is created. *)
Theorem option_without_value_is_rejected (argv : list string) (w : World) :
  Nat.odd (length argv) = true ->
  ~ In "-h" argv ->
  result (main evp argv w) = Exited 1
  /\ Forall console_event (trace (main evp argv w)).
Proof.
  intros Hodd Hno. unfold main.
  destruct (existsb _ argv) eqn:Hh; [apply help_requested in Hh; contradiction|].
  destruct argv as [|arg rest]; [discriminate Hodd|].
  destruct (parse_options_spec (length (arg :: rest)) (arg :: rest) default_options w
              (le_n _) ltac:(split; cbn; lia)) as (Hafter & Htrace & Hres).
  rewrite run_bind.
  destruct (result (parse_options (arg :: rest) default_options w)) as [o|].
  - destruct (Hres o eq_refl) as [_ Heven].
    unfold Nat.odd in Hodd. rewrite Heven in Hodd. discriminate Hodd.
  - rewrite run_ret. cbn [result after trace fst snd]. split; [reflexivity|].
    rewrite app_nil_r. exact Htrace.
Qed.

Lemma leading_digits_prefix s c rest : forall acc seen,
  isdigit c = false ->
  leading_digits acc seen (s +:+ String c rest) = leading_digits acc seen s.
Proof.
  induction s as [|d s IH]; intros acc seen Hc; cbn [String.append leading_digits].
  - now rewrite Hc.
  - destruct (isdigit d); [apply IH; exact Hc | reflexivity].
Qed.

Lemma stoi_prefix s c rest v :
  stoi s = Some v -> isdigit c = false -> stoi (s +:+ String c rest) = Some v.
Proof.
  unfold stoi. intros Hs Hc.
  assert (Hskip : skip_spaces s <> EmptyString).
  { intros He. rewrite He in Hs. discriminate Hs. }
  assert (Happ : skip_spaces (s +:+ String c rest) = skip_spaces s +:+ String c rest).
  { clear Hs. induction s as [|d s IH]; [contradiction|].
    cbn [String.append skip_spaces] in *.
    destruct (isspace d); [apply IH; exact Hskip | reflexivity]. }
  rewrite Happ. destruct (skip_spaces s) as [|d s']; [contradiction|].
  cbn [String.append].
  revert Hs. cbv zeta.
  destruct d as [[] [] [] [] [] [] [] []]; cbn [fst snd];
    try match goal with
      | |- context [leading_digits 0 false (String ?a (s' +:+ String c rest))] =>
          change (String a (s' +:+ String c rest)) with (String a s' +:+ String c rest)
      end;
    rewrite leading_digits_prefix by exact Hc; exact (fun H => H).
Qed.

(** X27. The value of [-p] is read as far as it is a number: when it
    converts, anything behind it that starts with a character other than
    a digit is ignored, so that [-p 8080x] is [-p 8080]. *)
Theorem port_number_prefix (value : string) (c : ascii) (rest : string) (port : Z)
        (args : list string) (o : Options) (w : World) :
  stoi value = Some port ->
  isdigit c = false ->
  parse_options ("-p" :: (value +:+ String c rest) :: args) o w
  = parse_options ("-p" :: value :: args) o w.
Proof.
  intros Hs Hc. cbn [parse_options String.eqb Ascii.eqb Bool.eqb].
  now rewrite (stoi_prefix value c rest port Hs Hc), Hs.
Qed.

End MainMore.

Lemma main_binds_valid_port_witness :
  In (EvBind 8080 0) (trace (main SHA224.evp ["-p"; "8080"] fresh_world))
  /\ valid_port 8080.
Proof.
  assert (Hin : In (EvBind 8080 0) (trace (main SHA224.evp ["-p"; "8080"] fresh_world))).
  { vm_compute. tauto. }
  split; [exact Hin | exact (main_binds_valid_port SHA224.evp _ _ _ _ Hin)].
Defined.

Lemma option_without_value_is_rejected_witness :
  Nat.odd (length ["-c"; "users.txt"; "-p"]) = true
  /\ result (main SHA224.evp ["-c"; "users.txt"; "-p"] fresh_world) = Exited 1.
Proof.
  assert (Hno : ~ In "-h" ["-c"; "users.txt"; "-p"]).
  { intros [H|[H|[H|[]]]]; discriminate H. }
  split; [reflexivity|].
  exact (proj1 (option_without_value_is_rejected SHA224.evp ["-c"; "users.txt"; "-p"]
                  fresh_world eq_refl Hno)).
Defined.

Lemma port_number_prefix_witness :
  stoi "8080" = Some 8080
  /\ parse_options ["-p"; "8080x"] default_options fresh_world
     = parse_options ["-p"; "8080"] default_options fresh_world.
Proof.
  assert (Hs : stoi "8080" = Some 8080) by reflexivity.
  split; [exact Hs|].
  exact (port_number_prefix "8080" "x" "" 8080 [] default_options fresh_world Hs eq_refl).
Defined.

(** ** A whole session *)

Section Session.
Variable evp : string -> option string.

Lemma str_drop_all n s : (String.length s <= n)%nat -> str_drop n s = EmptyString.
Proof.
  intros H. pose proof (length_str_drop n s) as Hl.
  destruct (str_drop n s); [reflexivity | simpl in Hl; lia].
Qed.

Lemma results_sent_log msg crit w : results_sent (trace (logError msg crit w)) = [].
Proof. unfold logError. destruct (appendable w _); reflexivity. Qed.

Lemma authenticate_accepts (w : World) (login resp secret digest : string)
      (rest : list arrival) :
  inbox w = Data login :: Data resp :: rest ->
  outcomes w = [] ->
  login <> EmptyString -> (String.length login <= 255)%nat ->
  resp <> EmptyString -> (String.length resp <= 255)%nat ->
  known w !! received_string login = Some secret ->
  evp (next_salt w +:+ secret) = Some digest ->
  str_map toupper (received_string resp) = str_map toupper (hex_bytes digest) ->
  result (authenticate evp w) = true
  /\ In (EvSend AtOk "OK" 2) (trace (authenticate evp w))
  /\ results_sent (trace (authenticate evp w)) = []
  /\ inbox (after (authenticate evp w)) = rest
  /\ outcomes (after (authenticate evp w)) = [].
Proof.
  intros Hin Hout Hne Hlen Hresp Hrlen Hknown Hevp Hmatch.
  rewrite (authenticate_identify evp w login _ Hin Hne). cbv zeta.
  unfold known in Hknown. rewrite Hknown.
  rewrite (str_drop_all 255 login Hlen). cbn [empty].
  set (w1 := set_inbox (Data resp :: rest) w).
  match goal with |- context [challenge evp _ ?b _] => set (buffer := b) end.
  assert (Hbuf : String.length buffer = 256%nat).
  { subst buffer. rewrite length_buffer_set, length_buffer_write, local_array_length;
      [reflexivity | rewrite local_array_length, length_str_take; lia]. }
  pose proof (str_length_pos resp Hresp 255 ltac:(lia)) as Hpos.
  assert (Htok : c_str (buffer_set (buffer_write buffer 0 (str_take 255 resp))
                                   (Z.to_nat (str_length (str_take 255 resp))) NUL)
                 = received_string resp).
  { unfold str_length. rewrite Nat2Z.id. apply c_str_buffer.
    rewrite Hbuf, length_str_take. lia. }
  assert (Hhash : sha224Hash evp (next_salt w1 +:+ secret)
                  = str_map toupper (hex_bytes digest)).
  { unfold sha224Hash. change (next_salt w1) with (next_salt w). now rewrite Hevp. }
  assert (Hsend : forall w' len, outcomes w' = [] -> next_send w' len = len).
  { intros w' len Hw'. unfold next_send. now rewrite Hw'. }
  unfold challenge.
  rewrite run_bind, generateSalt_eq. cbn [result after trace fst snd].
  rewrite run_bind, send_eq. cbn [result after trace fst snd].
  rewrite (Hsend _ 16) by exact Hout. cbn [negb Z.eqb Pos.eqb].
  rewrite run_bind.
  match goal with |- context [recv AtResponse buffer 0 255 ?w3] =>
    pose proof (recv_data AtResponse buffer 0 255 w3 resp rest eq_refl) as Hrecv
  end.
  change (Z.to_nat 255) with 255%nat in Hrecv. cbv zeta in Hrecv.
  rewrite Hrecv. cbn [result after trace fst snd].
  rewrite Hpos, Htok, Hhash, Hmatch, String.eqb_refl.
  rewrite (str_drop_all 255 resp Hrlen). cbn [empty].
  rewrite !run_bind, send_eq. cbn [result after trace fst snd app].
  rewrite (Hsend _ 2) by (cbn; now rewrite Hout).
  rewrite (proj1 (logError_run _ _ _)), run_ret. cbn [result after trace fst snd].
  split; [reflexivity|]. split; [|split; [|split]].
  - do 5 right. left. reflexivity.
  - cbn [results_sent]. rewrite !results_sent_app.
    rewrite results_sent_log. reflexivity.
  - reflexivity.
  - cbn. now rewrite Hout.
Qed.


(** X28. A whole session.  A peer that sends a known login, then the
    digest of salt and secret in hexadecimal (in either case), then a
    well-formed request, over a socket that takes every send whole, is
    sent OK and then, in order, the sum of squares of each of its
    vectors; [handleClient] reads the three messages and nothing more. *)
Theorem session_serves_request (w : World) (login resp secret digest : string)
        (vs : list (list Z)) (rest : list arrival) :
  inbox w = Data login :: Data resp :: Data (encode_request vs) :: rest ->
  outcomes w = [] ->
  login <> EmptyString -> (String.length login <= 255)%nat ->
  resp <> EmptyString -> (String.length resp <= 255)%nat ->
  known w !! received_string login = Some secret ->
  evp (next_salt w +:+ secret) = Some digest ->
  str_map toupper (received_string resp) = str_map toupper (hex_bytes digest) ->
  Z.of_nat (length vs) < 2 ^ 32 ->
  Forall (fun v => Z.of_nat (length v) < 2 ^ 32 /\ Forall int16 v) vs ->
  In (EvSend AtOk "OK" 2) (trace (handleClient evp w))
  /\ results_sent (trace (handleClient evp w))
     = map (fun v => bytes_of_int16 (calculateSumOfSquares v)) vs
  /\ inbox (after (handleClient evp w)) = rest.
Proof.
  intros Hin Hout Hne Hlen Hresp Hrlen Hknown Hevp Hmatch Hn Hvs.
  unfold handleClient.
  rewrite !run_bind. cbn [result after trace fst snd get_world cout emit close app].
  rewrite (proj1 (logError_run _ _ w)).
  destruct (authenticate_accepts w login resp secret digest _
              Hin Hout Hne Hlen Hresp Hrlen Hknown Hevp Hmatch)
    as (Hres & Hok & Hnone & Hinb & Houts).
  rewrite Hres. cbn [negb].
  rewrite !run_bind. cbn [result after trace fst snd get_world cout emit close app].
  rewrite !(proj1 (logError_run _ _ _)).
  set (w1 := after (authenticate evp w)) in *.
  rewrite <- (str_app_nil (encode_request vs)) in Hinb.
  destruct (processVectors_run w1 vs EmptyString rest Hinb Hn Hvs) as [Hsent Hleft].
  { unfold whole_sends. rewrite Houts. constructor. }
  split; [|split].
  - right. apply in_or_app. right. apply in_or_app. left. exact Hok.
  - cbn [results_sent]. rewrite !results_sent_app, !results_sent_log, Hnone.
    cbn [results_sent app]. rewrite !results_sent_app, !results_sent_log, Hsent.
    cbn [results_sent app]. rewrite results_sent_log. now rewrite !app_nil_r.
  - cbn. exact Hleft.
Qed.

End Session.

Lemma session_serves_request_witness :
  let resp := "cb79139e536dc94b1f38a085176828f96915947d9f9bbefe663dd83b" in
  let w := sample_world [Data "user"; Data resp; Data (encode_request [[3; 4]; [200; 200]])] in
  known w !! received_string "user" = Some "P@ssW0rd"
  /\ str_map toupper (received_string resp)
     = str_map toupper (hex_bytes (SHA224.digest (next_salt w +:+ "P@ssW0rd")))
  /\ In (EvSend AtOk "OK" 2) (trace (handleClient SHA224.evp w))
  /\ results_sent (trace (handleClient SHA224.evp w)) = [bytes [25; 0]; bytes [255; 127]].
Proof.
  intros resp w.
  assert (Hk : known w !! received_string "user" = Some "P@ssW0rd")
    by (vm_compute; reflexivity).
  assert (Ha : str_map toupper (received_string resp)
               = str_map toupper (hex_bytes (SHA224.digest (next_salt w +:+ "P@ssW0rd"))))
    by (vm_compute; reflexivity).
  assert (Hl : (String.length "user" <= 255)%nat) by (vm_compute; lia).
  assert (Hr : (String.length resp <= 255)%nat) by (vm_compute; lia).
  assert (Hv : Forall (fun v => Z.of_nat (length v) < 2 ^ 32 /\ Forall int16 v)
                      [[3; 4]; [200; 200]]).
  { unfold int16, INT16_MIN, INT16_MAX.
    repeat first [apply Forall_nil_2 | apply Forall_cons_2 | split]; cbn [length]; lia. }
  assert (Hn : Z.of_nat (length [[3; 4]; [200; 200]]) < 2 ^ 32) by (cbn [length]; lia).
  destruct (session_serves_request SHA224.evp w "user" resp "P@ssW0rd"
              (SHA224.digest (next_salt w +:+ "P@ssW0rd")) [[3; 4]; [200; 200]] []
              eq_refl eq_refl ltac:(discriminate) Hl ltac:(discriminate) Hr Hk eq_refl
              Ha Hn Hv) as (Hok & Hsent & _).
  split; [exact Hk|]. split; [exact Ha|]. split; [exact Hok | exact Hsent].
Defined.
